(** * The snake game engine of Rican7/gogames, embedded in Rocq

    The engine exists in two revisions that share every function except
    [Tick] (and [PlayNew], which only the second revision has):

    - [src/gameengine/snake/snake.go]: [Tick] starts the game by itself
      (status New becomes Playing on the first executed step);
    - [src/unnamed/part_000]: [Tick] does nothing unless the status is
      Playing, and [PlayNew] resets into Playing.

    Go's [uint] and [int] are taken as 64 bits wide and modelled as [Z] with
    the wrap-around written out.  A slice of points is a [list Point], head
    of the snake first.  The package-level random source [math/rand] is an
    explicit stream of raw values threaded through the calls that draw from
    it.  A Go panic and a loop that runs out of the fuel given to it are
    the two failure outcomes of [result]. *)

From Stdlib Require Import ZArith List Bool Lia.
Import ListNotations.
Local Open Scope Z_scope.

(** ** Machine integers *)

Definition uintModulus : Z := 18446744073709551616.   (* 2^64 *)
Definition maxInt : Z := 9223372036854775807.         (* 2^63 - 1 *)

(** Reduction of a mathematical result into [uint]. *)
Definition wrapUint (z : Z) : Z := z mod uintModulus.

(** Reduction of a mathematical result into [int] (two's complement). *)
Definition wrapInt (z : Z) : Z := (z + (maxInt + 1)) mod uintModulus - (maxInt + 1).

Definition uadd (a b : Z) : Z := wrapUint (a + b).
Definition usub (a b : Z) : Z := wrapUint (a - b).
Definition umul (a b : Z) : Z := wrapUint (a * b).
Definition udiv (a b : Z) : Z := a / b.
Definition iadd (a b : Z) : Z := wrapInt (a + b).

(** The conversion [int(u)] of a [uint]. *)
Definition intOfUint (u : Z) : Z := wrapInt u.

(** Go's [%] on [int] truncates towards zero. *)
Definition irem (a b : Z) : Z := Z.rem a b.

Definition isUint (z : Z) : Prop := 0 <= z < uintModulus.

(** ** Outcomes of a call *)

Inductive result (A : Type) : Type :=
| Ok (a : A)
| Panic
| OutOfFuel.

Arguments Ok {A} a.
Arguments Panic {A}.
Arguments OutOfFuel {A}.

Definition bind {A B : Type} (r : result A) (k : A -> result B) : result B :=
  match r with
  | Ok a => k a
  | Panic => Panic
  | OutOfFuel => OutOfFuel
  end.

Notation "x <- r ;; k" := (bind r (fun x => k))
  (at level 61, r at next level, right associativity).
Notation "' p <- r ;; k" := (bind r (fun x => let 'p := x in k))
  (at level 61, p pattern, r at next level, right associativity).

(** ** The random source

    [rand.Intn n] panics when [n <= 0] and otherwise returns a value of
    [[0, n)].  The stream holds raw values; the value handed out is the raw
    one reduced modulo [n], so every sequence of in-range values is the
    image of some stream. *)

Definition Rand : Type := nat -> Z.

Definition Intn (rng : Rand) (n : Z) : result (Z * Rand) :=
  if n <=? 0 then Panic
  else Ok (rng 0%nat mod n, fun k => rng (S k)).

(** ** Primitives *)

Inductive Status : Type := StatusNew | StatusPlaying | StatusLost.

Definition Status_eqb (a b : Status) : bool :=
  match a, b with
  | StatusNew, StatusNew | StatusPlaying, StatusPlaying | StatusLost, StatusLost => true
  | _, _ => false
  end.

Record Point : Type := mkPoint { X : Z; Y : Z }.

(** [==] on the struct [Point], as [slices.Contains] uses it. *)
Definition Point_eqb (p q : Point) : bool := (X p =? X q) && (Y p =? Y q).

(** [Direction] is a [uint8] in the source, of which four values are named.
    This type holds the four named values: the engine initialises both
    direction fields with [DirectionRight], copies one into the other, and
    the front ends pass named constants only.  What [UpdateDirection] does
    with the other values of the [uint8] is modelled on raw values in
    [Uint8Direction] below. *)
Inductive Direction : Type :=
  DirectionUp | DirectionDown | DirectionLeft | DirectionRight.

Definition Direction_eqb (a b : Direction) : bool :=
  match a, b with
  | DirectionUp, DirectionUp | DirectionDown, DirectionDown
  | DirectionLeft, DirectionLeft | DirectionRight, DirectionRight => true
  | _, _ => false
  end.

Definition isOpposite (d dir : Direction) : bool :=
  (Direction_eqb d DirectionUp && Direction_eqb dir DirectionDown) ||
  (Direction_eqb d DirectionDown && Direction_eqb dir DirectionUp) ||
  (Direction_eqb d DirectionLeft && Direction_eqb dir DirectionRight) ||
  (Direction_eqb d DirectionRight && Direction_eqb dir DirectionLeft).

(** ** The engine *)

Record GameEngine : Type := mkGameEngine {
  status : Status;
  playAreaWidth : Z;
  playAreaHeight : Z;
  score : Z;
  speed : Z;
  tickThrottleCount : Z;
  foodLocation : Point;
  snakeBody : list Point;
  snakeDirection : Direction;
  snakeDirectionLastMoved : Direction;
  snakeShouldElongate : bool
}.

(** Field assignments [ge.f = v]. *)

Definition set_status (v : Status) (ge : GameEngine) : GameEngine :=
  mkGameEngine v (playAreaWidth ge) (playAreaHeight ge) (score ge) (speed ge)
    (tickThrottleCount ge) (foodLocation ge) (snakeBody ge) (snakeDirection ge)
    (snakeDirectionLastMoved ge) (snakeShouldElongate ge).

Definition set_score (v : Z) (ge : GameEngine) : GameEngine :=
  mkGameEngine (status ge) (playAreaWidth ge) (playAreaHeight ge) v (speed ge)
    (tickThrottleCount ge) (foodLocation ge) (snakeBody ge) (snakeDirection ge)
    (snakeDirectionLastMoved ge) (snakeShouldElongate ge).

Definition set_speed (v : Z) (ge : GameEngine) : GameEngine :=
  mkGameEngine (status ge) (playAreaWidth ge) (playAreaHeight ge) (score ge) v
    (tickThrottleCount ge) (foodLocation ge) (snakeBody ge) (snakeDirection ge)
    (snakeDirectionLastMoved ge) (snakeShouldElongate ge).

Definition set_tickThrottleCount (v : Z) (ge : GameEngine) : GameEngine :=
  mkGameEngine (status ge) (playAreaWidth ge) (playAreaHeight ge) (score ge) (speed ge)
    v (foodLocation ge) (snakeBody ge) (snakeDirection ge)
    (snakeDirectionLastMoved ge) (snakeShouldElongate ge).

Definition set_foodLocation (v : Point) (ge : GameEngine) : GameEngine :=
  mkGameEngine (status ge) (playAreaWidth ge) (playAreaHeight ge) (score ge) (speed ge)
    (tickThrottleCount ge) v (snakeBody ge) (snakeDirection ge)
    (snakeDirectionLastMoved ge) (snakeShouldElongate ge).

Definition set_snakeBody (v : list Point) (ge : GameEngine) : GameEngine :=
  mkGameEngine (status ge) (playAreaWidth ge) (playAreaHeight ge) (score ge) (speed ge)
    (tickThrottleCount ge) (foodLocation ge) v (snakeDirection ge)
    (snakeDirectionLastMoved ge) (snakeShouldElongate ge).

Definition set_snakeDirection (v : Direction) (ge : GameEngine) : GameEngine :=
  mkGameEngine (status ge) (playAreaWidth ge) (playAreaHeight ge) (score ge) (speed ge)
    (tickThrottleCount ge) (foodLocation ge) (snakeBody ge) v
    (snakeDirectionLastMoved ge) (snakeShouldElongate ge).

Definition set_snakeDirectionLastMoved (v : Direction) (ge : GameEngine) : GameEngine :=
  mkGameEngine (status ge) (playAreaWidth ge) (playAreaHeight ge) (score ge) (speed ge)
    (tickThrottleCount ge) (foodLocation ge) (snakeBody ge) (snakeDirection ge)
    v (snakeShouldElongate ge).

Definition set_snakeShouldElongate (v : bool) (ge : GameEngine) : GameEngine :=
  mkGameEngine (status ge) (playAreaWidth ge) (playAreaHeight ge) (score ge) (speed ge)
    (tickThrottleCount ge) (foodLocation ge) (snakeBody ge) (snakeDirection ge)
    (snakeDirectionLastMoved ge) v.

(** [NewGame]: every mutable field is reset; the dimensions stay. *)
Definition NewGame (ge : GameEngine) : GameEngine :=
  let w := playAreaWidth ge in
  let h := playAreaHeight ge in
  {| status := StatusNew;
     playAreaWidth := w;
     playAreaHeight := h;
     score := 0;
     speed := 1;
     tickThrottleCount := 0;
     foodLocation := mkPoint (umul (udiv w 4) 3) (udiv h 2);
     snakeBody := [ mkPoint (udiv w 4) (udiv h 2);
                    mkPoint (usub (udiv w 4) 1) (udiv h 2) ];
     snakeDirection := DirectionRight;
     snakeDirectionLastMoved := DirectionRight;
     snakeShouldElongate := false |}.

(** [NewGameEngine]: a struct literal with the two dimensions (every other
    field at its zero value), then [NewGame].  There is no validation of the
    dimensions and no operation that can panic. *)
Definition NewGameEngine (playAreaWidth playAreaHeight : Z) : GameEngine :=
  NewGame {| status := StatusNew;
             playAreaWidth := playAreaWidth;
             playAreaHeight := playAreaHeight;
             score := 0;
             speed := 0;
             tickThrottleCount := 0;
             foodLocation := mkPoint 0 0;
             snakeBody := [];
             snakeDirection := DirectionUp;
             snakeDirectionLastMoved := DirectionUp;
             snakeShouldElongate := false |}.

(** The accessors return a field each.  The method [Status] is [GetStatus]
    here, where the name is the type's. *)
Definition GetStatus (ge : GameEngine) : Status := status ge.
Definition PlayAreaWidth (ge : GameEngine) : Z := playAreaWidth ge.
Definition PlayAreaHeight (ge : GameEngine) : Z := playAreaHeight ge.
Definition Score (ge : GameEngine) : Z := score ge.
Definition Speed (ge : GameEngine) : Z := speed ge.
Definition FoodLocation (ge : GameEngine) : Point := foodLocation ge.
Definition SnakeBody (ge : GameEngine) : list Point := snakeBody ge.

Definition UpdateDirection (dir : Direction) (ge : GameEngine) : GameEngine :=
  if Direction_eqb (snakeDirection ge) dir || isOpposite (snakeDirection ge) dir ||
     Direction_eqb (snakeDirectionLastMoved ge) dir ||
     isOpposite (snakeDirectionLastMoved ge) dir
  then ge
  else set_snakeDirection dir ge.

(** [tickThrottle] returns the engine it leaves and its boolean. *)
Definition tickThrottle (ge : GameEngine) : GameEngine * bool :=
  if tickThrottleCount ge =? 0
  then (set_tickThrottleCount (usub 10 (usub (speed ge) 1)) ge, true)
  else (set_tickThrottleCount (usub (tickThrottleCount ge) 1) ge, false).

Definition wouldMoveCauseLoss (ge : GameEngine) (next : Point) : bool :=
  if Status_eqb (status ge) StatusLost then true
  else if (X next <? 0) || (Y next <? 0) ||
          (X next >? usub (playAreaWidth ge) 1) ||
          (Y next >? usub (playAreaHeight ge) 1)
  then true
  else existsb (fun point => (X next =? X point) && (Y next =? Y point))
               (snakeBody ge).

(** [moveSnake]: indexing an empty body panics; [slices.Insert] at 0 is a
    cons, the reslice [[:len-1]] drops the last element. *)
Definition moveSnake (ge : GameEngine) : result (GameEngine * bool) :=
  match snakeBody ge with
  | [] => Panic
  | head :: _ =>
      let direction := snakeDirection ge in
      let next :=
        match direction with
        | DirectionUp => mkPoint (X head) (usub (Y head) 1)
        | DirectionDown => mkPoint (X head) (uadd (Y head) 1)
        | DirectionLeft => mkPoint (usub (X head) 1) (Y head)
        | DirectionRight => mkPoint (uadd (X head) 1) (Y head)
        end in
      if wouldMoveCauseLoss ge next then Ok (ge, false)
      else
        let ge := set_snakeBody (next :: snakeBody ge) ge in
        let ge := set_snakeDirectionLastMoved direction ge in
        let ge := if negb (snakeShouldElongate ge)
                  then set_snakeBody (removelast (snakeBody ge)) ge
                  else ge in
        let ge := set_snakeShouldElongate false ge in
        Ok (ge, true)
  end.

Definition isInScorePosition (ge : GameEngine) : result bool :=
  if Status_eqb (status ge) StatusLost then Ok false
  else
    match snakeBody ge with
    | [] => Panic
    | head :: _ =>
        Ok ((X head =? X (foodLocation ge)) && (Y head =? Y (foodLocation ge)))
    end.

(** The loop of [placeFood]: one unit of fuel per candidate drawn. *)
Fixpoint placeFoodLoop (fuel : nat) (rng : Rand) (ge : GameEngine)
  : result (Point * Rand) :=
  match fuel with
  | O => OutOfFuel
  | S fuel' =>
      '(x, rng) <- Intn rng (intOfUint (playAreaWidth ge)) ;;
      '(y, rng) <- Intn rng (intOfUint (playAreaHeight ge)) ;;
      let newLocation := mkPoint x y in
      if (X newLocation =? X (foodLocation ge)) || (Y newLocation =? Y (foodLocation ge))
      then placeFoodLoop fuel' rng ge
      else if existsb (Point_eqb newLocation) (snakeBody ge)
      then placeFoodLoop fuel' rng ge
      else Ok (newLocation, rng)
  end.

Definition placeFood (fuel : nat) (rng : Rand) (ge : GameEngine)
  : result (GameEngine * Rand) :=
  '(newLocation, rng) <- placeFoodLoop fuel rng ge ;;
  Ok (set_foodLocation newLocation ge, rng).

(** ** [Tick] of [src/gameengine/snake/snake.go] *)

Module ImplicitStart.

Definition Tick (fuel : nat) (rng : Rand) (ge : GameEngine)
  : result (GameEngine * Rand * Status) :=
  if Status_eqb (status ge) StatusLost then Ok (ge, rng, status ge)
  else
    let '(ge, run) := tickThrottle ge in
    if negb run then Ok (ge, rng, status ge)
    else
      let ge := if Status_eqb (status ge) StatusNew
                then set_status StatusPlaying ge else ge in
      '(ge, validMove) <- moveSnake ge ;;
      if negb validMove then
        let ge := set_status StatusLost ge in
        Ok (ge, rng, status ge)
      else
        scoring <- isInScorePosition ge ;;
        if scoring then
          let ge := set_score (iadd (score ge) 1) ge in
          let ge := if irem (score ge) 5 =? 0
                    then set_speed (uadd (speed ge) 1) ge else ge in
          '(ge, rng) <- placeFood fuel rng ge ;;
          let ge := set_snakeShouldElongate true ge in
          Ok (ge, rng, status ge)
        else Ok (ge, rng, status ge).

End ImplicitStart.

(** ** [PlayNew] and [Tick] of [src/unnamed/part_000] *)

Module ExplicitStart.

Definition PlayNew (ge : GameEngine) : GameEngine :=
  set_status StatusPlaying (NewGame ge).

Definition Tick (fuel : nat) (rng : Rand) (ge : GameEngine)
  : result (GameEngine * Rand * Status) :=
  if negb (Status_eqb (status ge) StatusPlaying) then Ok (ge, rng, status ge)
  else
    let '(ge, run) := tickThrottle ge in
    if negb run then Ok (ge, rng, status ge)
    else
      '(ge, validMove) <- moveSnake ge ;;
      if negb validMove then
        let ge := set_status StatusLost ge in
        Ok (ge, rng, status ge)
      else
        scoring <- isInScorePosition ge ;;
        if scoring then
          let ge := set_score (iadd (score ge) 1) ge in
          let ge := if irem (score ge) 5 =? 0
                    then set_speed (uadd (speed ge) 1) ge else ge in
          '(ge, rng) <- placeFood fuel rng ge ;;
          let ge := set_snakeShouldElongate true ge in
          Ok (ge, rng, status ge)
        else Ok (ge, rng, status ge).

End ExplicitStart.

(** * Vocabulary of the specification *)

(** The direction on the same axis that is not [d]. *)
Definition opposite (d : Direction) : Direction :=
  match d with
  | DirectionUp => DirectionDown
  | DirectionDown => DirectionUp
  | DirectionLeft => DirectionRight
  | DirectionRight => DirectionLeft
  end.

(** The guard of [UpdateDirection]: the request is discarded. *)
Definition rejectsDirection (ge : GameEngine) (dir : Direction) : bool :=
  Direction_eqb (snakeDirection ge) dir || isOpposite (snakeDirection ge) dir ||
  Direction_eqb (snakeDirectionLastMoved ge) dir ||
  isOpposite (snakeDirectionLastMoved ge) dir.

(** The cell that the [switch] of [moveSnake] computes from the head. *)
Definition nextHead (direction : Direction) (head : Point) : Point :=
  match direction with
  | DirectionUp => mkPoint (X head) (usub (Y head) 1)
  | DirectionDown => mkPoint (X head) (uadd (Y head) 1)
  | DirectionLeft => mkPoint (usub (X head) 1) (Y head)
  | DirectionRight => mkPoint (uadd (X head) 1) (Y head)
  end.

(** The statements of [Tick] that follow its guard, which are the same in
    both revisions: one simulation step (move, collision, scoring).
    [ImplicitStart_Tick_unfold] and [ExplicitStart_Tick_unfold] relate the
    two [Tick]s to it. *)
Definition simulationStep (fuel : nat) (rng : Rand) (ge : GameEngine)
  : result (GameEngine * Rand * Status) :=
  '(ge, validMove) <- moveSnake ge ;;
  if negb validMove then
    let ge := set_status StatusLost ge in
    Ok (ge, rng, status ge)
  else
    scoring <- isInScorePosition ge ;;
    if scoring then
      let ge := set_score (iadd (score ge) 1) ge in
      let ge := if irem (score ge) 5 =? 0
                then set_speed (uadd (speed ge) 1) ge else ge in
      '(ge, rng) <- placeFood fuel rng ge ;;
      let ge := set_snakeShouldElongate true ge in
      Ok (ge, rng, status ge)
    else Ok (ge, rng, status ge).

(** The engine that a valid move to [next] leaves ([moveSnake] past its
    collision test). *)
Definition afterMove (ge : GameEngine) (next : Point) : GameEngine :=
  set_snakeShouldElongate false
    (set_snakeBody
       (if snakeShouldElongate ge then next :: snakeBody ge
        else removelast (next :: snakeBody ge))
       (set_snakeDirectionLastMoved (snakeDirection ge) ge)).

(** The score and speed updates of a scoring step. *)
Definition afterScore (ge : GameEngine) : GameEngine :=
  let ge := set_score (iadd (score ge) 1) ge in
  if irem (score ge) 5 =? 0 then set_speed (uadd (speed ge) 1) ge else ge.

(** Construction seen as a call with an outcome: [NewGameEngine] contains no
    statement that can panic (its divisions are by the constants 4 and 2)
    and no loop, so the call returns its engine. *)
Definition construct (w h : Z) : result GameEngine := Ok (NewGameEngine w h).

(** [baseInterval] as the specification writes it. *)
Definition baseInterval (speed : Z) : Z := Z.max 1 (10 - (speed - 1)).

Definition inBounds (ge : GameEngine) (p : Point) : Prop :=
  0 <= X p < playAreaWidth ge /\ 0 <= Y p < playAreaHeight ge.

(** Invariants 2 and 3 of the specification: body and food on the board,
    food not on the body. *)
Definition onBoard (ge : GameEngine) : Prop :=
  (forall p, In p (snakeBody ge) -> inBounds ge p) /\
  inBounds ge (foodLocation ge) /\
  ~ In (foodLocation ge) (snakeBody ge).

(** The relation between the length of the body and the score. *)
Definition lengthTracksScore (ge : GameEngine) : Prop :=
  Z.of_nat (length (snakeBody ge)) =
  if snakeShouldElongate ge then score ge + 1 else score ge + 2.

(** A candidate that the loop of [placeFood] accepts. *)
Definition acceptsFood (ge : GameEngine) (x y : Z) : bool :=
  negb ((x =? X (foodLocation ge)) || (y =? Y (foodLocation ge))) &&
  negb (existsb (Point_eqb (mkPoint x y)) (snakeBody ge)).

(** The calls a driver makes, and a run of them that also counts the calls
    to [Tick] on which a simulation step was executed. *)
Inductive Call : Type :=
| CallNewGame
| CallPlayNew
| CallUpdateDirection (dir : Direction)
| CallTick.

Module ImplicitStartRun.
Import ImplicitStart.

(** [Tick] passes its guard: the status is not Lost and the throttle lets
    the call through. *)
Definition stepDue (ge : GameEngine) : bool :=
  negb (Status_eqb (status ge) StatusLost) && (tickThrottleCount ge =? 0).

(** This revision has no [PlayNew]: a run that asks for it panics. *)
Fixpoint run (calls : list Call) (fuel : nat) (rng : Rand) (ge : GameEngine)
  (steps : nat) : result (GameEngine * Rand * nat) :=
  match calls with
  | [] => Ok (ge, rng, steps)
  | CallNewGame :: rest => run rest fuel rng (NewGame ge) steps
  | CallPlayNew :: _ => Panic
  | CallUpdateDirection dir :: rest => run rest fuel rng (UpdateDirection dir ge) steps
  | CallTick :: rest =>
      '(ge', rng', _) <- Tick fuel rng ge ;;
      run rest fuel rng' ge' (if stepDue ge then S steps else steps)
  end.

Inductive reachable (w h : Z) : GameEngine -> Prop :=
| reach_NewGameEngine : reachable w h (NewGameEngine w h)
| reach_NewGame ge : reachable w h ge -> reachable w h (NewGame ge)
| reach_UpdateDirection ge dir :
    reachable w h ge -> reachable w h (UpdateDirection dir ge)
| reach_Tick ge fuel rng ge' rng' st :
    reachable w h ge -> Tick fuel rng ge = Ok (ge', rng', st) ->
    reachable w h ge'.

End ImplicitStartRun.

Module ExplicitStartRun.
Import ExplicitStart.

(** [Tick] passes its guard: the status is Playing and the throttle lets
    the call through. *)
Definition stepDue (ge : GameEngine) : bool :=
  Status_eqb (status ge) StatusPlaying && (tickThrottleCount ge =? 0).

Fixpoint run (calls : list Call) (fuel : nat) (rng : Rand) (ge : GameEngine)
  (steps : nat) : result (GameEngine * Rand * nat) :=
  match calls with
  | [] => Ok (ge, rng, steps)
  | CallNewGame :: rest => run rest fuel rng (NewGame ge) steps
  | CallPlayNew :: rest => run rest fuel rng (PlayNew ge) steps
  | CallUpdateDirection dir :: rest => run rest fuel rng (UpdateDirection dir ge) steps
  | CallTick :: rest =>
      '(ge', rng', _) <- Tick fuel rng ge ;;
      run rest fuel rng' ge' (if stepDue ge then S steps else steps)
  end.

Inductive reachable (w h : Z) : GameEngine -> Prop :=
| reach_NewGameEngine : reachable w h (NewGameEngine w h)
| reach_NewGame ge : reachable w h ge -> reachable w h (NewGame ge)
| reach_PlayNew ge : reachable w h ge -> reachable w h (PlayNew ge)
| reach_UpdateDirection ge dir :
    reachable w h ge -> reachable w h (UpdateDirection dir ge)
| reach_Tick ge fuel rng ge' rng' st :
    reachable w h ge -> Tick fuel rng ge = Ok (ge', rng', st) ->
    reachable w h ge'.

End ExplicitStartRun.

(** The three ways in which a call to [Tick] returns, in either revision:
    the status keeps it from running, the throttle holds it back, or it
    executes a step ([due] tells which: it is [stepDue] of the revision). *)
Definition tickCases (due : bool) (fuel : nat) (rng : Rand) (ge ge' : GameEngine)
  (rng' : Rand) (st : Status) : Prop :=
  (due = false /\ ge' = ge /\ rng' = rng /\ st = status ge) \/
  (due = false /\ tickThrottleCount ge <> 0 /\
   ge' = set_tickThrottleCount (usub (tickThrottleCount ge) 1) ge /\
   rng' = rng /\ st = status ge) \/
  (due = true /\ tickThrottleCount ge = 0 /\
   exists s0,
     simulationStep fuel rng
       (set_status s0
          (set_tickThrottleCount (usub 10 (usub (speed ge) 1)) ge))
     = Ok (ge', rng', st)).

(** A random source that replays a script and then yields [0] for ever. *)
Definition scripted (draws : list Z) : Rand := fun k => nth k draws 0.

(** [n] consecutive calls to [Tick]. *)
Definition ticks (n : nat) : list Call := repeat CallTick n.

(** The bound on the throttle counter that the code keeps: the counter is
    set to [10 - (speed - 1)] before the step that may raise the speed by
    one, so it may exceed that value for the new speed by one. *)
Definition throttleBounded (ge : GameEngine) : Prop :=
  isUint (speed ge) /\ isUint (tickThrottleCount ge) /\
  (speed ge <= 11 -> tickThrottleCount ge <= 10 - (speed ge - 1) + 1).

(** A game on the 20 x 20 board in which the snake eats five times: ten
    steps to the right reach the first food at (15, 10); each further food is
    put one column to the right and one row below the head, and reached by a
    step to the right and a step down. *)
Definition staircase : list Call :=
  ticks 111 ++
  CallUpdateDirection DirectionDown :: ticks 11 ++
  CallUpdateDirection DirectionRight :: ticks 11 ++
  CallUpdateDirection DirectionDown :: ticks 11 ++
  CallUpdateDirection DirectionRight :: ticks 11 ++
  CallUpdateDirection DirectionDown :: ticks 11 ++
  CallUpdateDirection DirectionRight :: ticks 11 ++
  CallUpdateDirection DirectionDown :: ticks 11.

Definition staircaseFood : list Z := [16; 11; 17; 12; 18; 13; 19; 14; 0; 0].

(** ** Vocabulary of the further properties *)

(** The cell one step from [head] in [direction], in unbounded arithmetic
    (the [switch] of [moveSnake] without the wrap-around of [uint]). *)
Definition cellAhead (direction : Direction) (head : Point) : Point :=
  match direction with
  | DirectionUp => mkPoint (X head) (Y head - 1)
  | DirectionDown => mkPoint (X head) (Y head + 1)
  | DirectionLeft => mkPoint (X head - 1) (Y head)
  | DirectionRight => mkPoint (X head + 1) (Y head)
  end.

(** Two cells that share a side. *)
Definition adjacent (p q : Point) : Prop :=
  Z.abs (X p - X q) + Z.abs (Y p - Y q) = 1.

(** Every point of the body shares a side with the next one. *)
Fixpoint contiguous (body : list Point) : Prop :=
  match body with
  | p :: rest =>
      match rest with
      | q :: _ => adjacent p q /\ contiguous rest
      | [] => True
      end
  | [] => True
  end.

(** The [k]-th candidate that the loop of [placeFood] draws from [rng]. *)
Definition candidateX (rng : Rand) (ge : GameEngine) (k : nat) : Z :=
  rng (2 * k)%nat mod intOfUint (playAreaWidth ge).

Definition candidateY (rng : Rand) (ge : GameEngine) (k : nat) : Z :=
  rng (2 * k + 1)%nat mod intOfUint (playAreaHeight ge).

(** Several calls to [UpdateDirection] in a row. *)
Definition UpdateDirections (dirs : list Direction) (ge : GameEngine) : GameEngine :=
  fold_left (fun g dir => UpdateDirection dir g) dirs ge.

(** ** [UpdateDirection] on raw values of [Direction]

    The guard of [UpdateDirection] compares [uint8] values, and a caller of
    the package may pass any of the 256.  [code] is the value of a named
    constant ([iota] numbers them from 0); [isOpposite] and
    [UpdateDirection] are the source's functions on raw values, acting on the
    two fields that [UpdateDirection] reads and writes. *)
Module Uint8Direction.

Definition isUint8 (v : Z) : Prop := 0 <= v < 256.

Definition code (d : Direction) : Z :=
  match d with
  | DirectionUp => 0
  | DirectionDown => 1
  | DirectionLeft => 2
  | DirectionRight => 3
  end.

(** The value is one of the four named constants. *)
Definition named (v : Z) : bool := (0 <=? v) && (v <=? 3).

Definition isOpposite (d dir : Z) : bool :=
  ((d =? code DirectionUp) && (dir =? code DirectionDown)) ||
  ((d =? code DirectionDown) && (dir =? code DirectionUp)) ||
  ((d =? code DirectionLeft) && (dir =? code DirectionRight)) ||
  ((d =? code DirectionRight) && (dir =? code DirectionLeft)).

(** The fields [snakeDirection] and [snakeDirectionLastMoved]. *)
Record Directions : Type := mkDirections {
  pending : Z;
  lastMoved : Z
}.

Definition UpdateDirection (dir : Z) (ge : Directions) : Directions :=
  if (pending ge =? dir) || isOpposite (pending ge) dir ||
     (lastMoved ge =? dir) || isOpposite (lastMoved ge) dir
  then ge
  else mkDirections dir (lastMoved ge).

(** The guard of [UpdateDirection]. *)
Definition rejects (ge : Directions) (dir : Z) : bool :=
  (pending ge =? dir) || isOpposite (pending ge) dir ||
  (lastMoved ge =? dir) || isOpposite (lastMoved ge) dir.

(** Several calls in a row. *)
Definition UpdateDirections (dirs : list Z) (ge : Directions) : Directions :=
  fold_left (fun g dir => UpdateDirection dir g) dirs ge.

End Uint8Direction.

(** The two direction fields of an engine, as raw values. *)
Definition directionFields (ge : GameEngine) : Uint8Direction.Directions :=
  Uint8Direction.mkDirections
    (Uint8Direction.code (snakeDirection ge))
    (Uint8Direction.code (snakeDirectionLastMoved ge)).

(** ** The front end of [src/internal/snake/snake.go]

    The file holds three revisions of the front end.  Each keeps a pointer
    to the engine, which [Update] mutates; the model passes the engine in and
    out.  [Update] always returns a nil error, so its outcome is that of the
    engine calls it makes.  Window, fonts and drawing belong to the ebiten
    library and are not modelled. *)

(** What [inpututil.IsKeyJustPressed] answers during one frame. *)
Record Keys : Type := mkKeys {
  keyEnter : bool;
  keyArrowUp : bool;
  keyArrowDown : bool;
  keyArrowLeft : bool;
  keyArrowRight : bool
}.

(** [handlePlayInput] ([handleInput] in the second revision): a [switch]
    without tag takes the first case that holds. *)
Definition handlePlayInput (keys : Keys) (ge : GameEngine) : GameEngine :=
  if keyArrowUp keys then UpdateDirection DirectionUp ge
  else if keyArrowDown keys then UpdateDirection DirectionDown ge
  else if keyArrowLeft keys then UpdateDirection DirectionLeft ge
  else if keyArrowRight keys then UpdateDirection DirectionRight ge
  else ge.

(** First revision (lines 1-230): plays on the engine whose [Tick] starts
    the game, and restarts a lost game with [NewGame] on Enter. *)
Module FrontEnd.

Definition Update (keys : Keys) (fuel : nat) (rng : Rand) (ge : GameEngine)
  : result (GameEngine * Rand) :=
  match status ge with
  | StatusNew | StatusPlaying =>
      let ge := handlePlayInput keys ge in
      '(ge, rng, _) <- ImplicitStart.Tick fuel rng ge ;;
      Ok (ge, rng)
  | StatusLost =>
      if keyEnter keys then Ok (NewGame ge, rng) else Ok (ge, rng)
  end.

(** One call to [Update] per frame. *)
Fixpoint playFrames (frames : list Keys) (fuel : nat) (rng : Rand)
  (ge : GameEngine) : result (GameEngine * Rand) :=
  match frames with
  | [] => Ok (ge, rng)
  | keys :: rest =>
      '(ge, rng) <- Update keys fuel rng ge ;;
      playFrames rest fuel rng ge
  end.

End FrontEnd.

(** Second revision (lines 231-387): the same without a case for Lost. *)
Module FrontEndNoRestart.

Definition Update (keys : Keys) (fuel : nat) (rng : Rand) (ge : GameEngine)
  : result (GameEngine * Rand) :=
  if Status_eqb (status ge) StatusNew || Status_eqb (status ge) StatusPlaying
  then
    let ge := handlePlayInput keys ge in
    '(ge, rng, _) <- ImplicitStart.Tick fuel rng ge ;;
    Ok (ge, rng)
  else Ok (ge, rng).

Fixpoint playFrames (frames : list Keys) (fuel : nat) (rng : Rand)
  (ge : GameEngine) : result (GameEngine * Rand) :=
  match frames with
  | [] => Ok (ge, rng)
  | keys :: rest =>
      '(ge, rng) <- Update keys fuel rng ge ;;
      playFrames rest fuel rng ge
  end.

End FrontEndNoRestart.

(** Third revision (lines 388-672), [GUIFrontEnd]: plays on the engine with
    [PlayNew], which Enter calls in status New and in status Lost. *)
Module GUIFrontEnd.

Definition Update (keys : Keys) (fuel : nat) (rng : Rand) (ge : GameEngine)
  : result (GameEngine * Rand) :=
  match status ge with
  | StatusNew | StatusLost =>
      if keyEnter keys then Ok (ExplicitStart.PlayNew ge, rng) else Ok (ge, rng)
  | StatusPlaying =>
      let ge := handlePlayInput keys ge in
      '(ge, rng, _) <- ExplicitStart.Tick fuel rng ge ;;
      Ok (ge, rng)
  end.

Fixpoint playFrames (frames : list Keys) (fuel : nat) (rng : Rand)
  (ge : GameEngine) : result (GameEngine * Rand) :=
  match frames with
  | [] => Ok (ge, rng)
  | keys :: rest =>
      '(ge, rng) <- Update keys fuel rng ge ;;
      playFrames rest fuel rng ge
  end.

End GUIFrontEnd.

(** [image.Rectangle] of the Go standard library, with [image.Rect] (which
    swaps the coordinates it is given where needed, so that Min <= Max) and
    the extents [Dx] and [Dy]; the coordinates are [int]s. *)
Record Rectangle : Type := mkRectangle {
  MinX : Z; MinY : Z; MaxX : Z; MaxY : Z
}.

Definition Rect (x0 y0 x1 y1 : Z) : Rectangle :=
  let '(x0, x1) := if x0 >? x1 then (x1, x0) else (x0, x1) in
  let '(y0, y1) := if y0 >? y1 then (y1, y0) else (y0, y1) in
  mkRectangle x0 y0 x1 y1.

Definition Dx (r : Rectangle) : Z := wrapInt (MaxX r - MinX r).
Definition Dy (r : Rectangle) : Z := wrapInt (MaxY r - MinY r).

(** The conversion [uint(i)] of an [int]. *)
Definition uintOfInt (i : Z) : Z := wrapUint i.

(** Division of [uint]s by a divisor that is not a constant: a zero divisor
    is a run-time panic. *)
Definition udivChecked (a b : Z) : result Z :=
  if b =? 0 then Panic else Ok (a / b).

(** The fields of the front end other than the pointer to the engine. *)
Record FrontEndLayout : Type := mkFrontEndLayout {
  width : Z;
  height : Z;
  statusAreaBounds : Rectangle;
  playAreaBounds : Rectangle;
  playAreaGameWidthMultiplier : Z;
  playAreaGameHeightMultiplier : Z
}.

(** [NewFrontEnd], the same in the three revisions. *)
Definition NewFrontEnd (gameEngine : GameEngine) (width height : Z)
  : result FrontEndLayout :=
  let statusAreaBounds := Rect 0 0 width 20 in
  let playAreaBounds := Rect 0 (MaxY statusAreaBounds) width height in
  playAreaGameWidthMultiplier <-
    udivChecked (uintOfInt (Dx playAreaBounds)) (PlayAreaWidth gameEngine) ;;
  playAreaGameHeightMultiplier <-
    udivChecked (uintOfInt (Dy playAreaBounds)) (PlayAreaHeight gameEngine) ;;
  Ok {| width := width;
        height := height;
        statusAreaBounds := statusAreaBounds;
        playAreaBounds := playAreaBounds;
        playAreaGameWidthMultiplier := playAreaGameWidthMultiplier;
        playAreaGameHeightMultiplier := playAreaGameHeightMultiplier |}.

(** [Layout] returns the logical size, whatever the window's size is. *)
Definition Layout (fe : FrontEndLayout) (outsideWidth outsideHeight : Z) : Z * Z :=
  (width fe, height fe).

(** * Properties *)

(** ** Machine arithmetic *)

Lemma wrapUint_small z : isUint z -> wrapUint z = z.
Proof. unfold isUint, wrapUint. intros H. apply Z.mod_small; exact H. Qed.

Lemma wrapUint_range z : isUint (wrapUint z).
Proof.
  unfold isUint, wrapUint. apply Z.mod_pos_bound. unfold uintModulus. lia.
Qed.

Lemma wrapInt_small z : - (maxInt + 1) <= z <= maxInt -> wrapInt z = z.
Proof.
  unfold wrapInt, maxInt, uintModulus. intros H.
  rewrite Z.mod_small by lia. lia.
Qed.

Lemma intOfUint_small u : 0 <= u <= maxInt -> intOfUint u = u.
Proof. unfold intOfUint, maxInt. intros H. apply wrapInt_small. unfold maxInt. lia. Qed.

(** ** The two [Tick]s in terms of the simulation step *)

Lemma ImplicitStart_Tick_unfold fuel rng ge :
  ImplicitStart.Tick fuel rng ge =
  if Status_eqb (status ge) StatusLost then Ok (ge, rng, status ge)
  else if tickThrottleCount ge =? 0 then
    simulationStep fuel rng
      (let ge1 := set_tickThrottleCount (usub 10 (usub (speed ge) 1)) ge in
       if Status_eqb (status ge) StatusNew then set_status StatusPlaying ge1 else ge1)
  else Ok (set_tickThrottleCount (usub (tickThrottleCount ge) 1) ge, rng, status ge).
Proof.
  unfold ImplicitStart.Tick, tickThrottle, simulationStep.
  destruct (Status_eqb (status ge) StatusLost); [reflexivity|].
  destruct (tickThrottleCount ge =? 0); reflexivity.
Qed.

Lemma ExplicitStart_Tick_unfold fuel rng ge :
  ExplicitStart.Tick fuel rng ge =
  if negb (Status_eqb (status ge) StatusPlaying) then Ok (ge, rng, status ge)
  else if tickThrottleCount ge =? 0 then
    simulationStep fuel rng (set_tickThrottleCount (usub 10 (usub (speed ge) 1)) ge)
  else Ok (set_tickThrottleCount (usub (tickThrottleCount ge) 1) ge, rng, status ge).
Proof.
  unfold ExplicitStart.Tick, tickThrottle, simulationStep.
  destruct (Status_eqb (status ge) StatusPlaying); [|reflexivity].
  destruct (tickThrottleCount ge =? 0); reflexivity.
Qed.

(** ** Equality tests *)

Lemma Status_eqb_eq a b : Status_eqb a b = true <-> a = b.
Proof. destruct a, b; simpl; split; intros H; try reflexivity; discriminate. Qed.

Lemma Direction_eqb_eq a b : Direction_eqb a b = true <-> a = b.
Proof. destruct a, b; simpl; split; intros H; try reflexivity; discriminate. Qed.

Lemma Point_eqb_eq p q : Point_eqb p q = true <-> p = q.
Proof.
  destruct p as [px py], q as [qx qy]. unfold Point_eqb. simpl.
  rewrite andb_true_iff, !Z.eqb_eq. split.
  - intros [-> ->]. reflexivity.
  - intros H. injection H as -> ->. split; reflexivity.
Qed.

Lemma isOpposite_opposite d e : isOpposite d e = true <-> e = opposite d.
Proof. destruct d, e; simpl; split; intros H; try reflexivity; discriminate. Qed.

(** ** Lost is terminal *)

(** C3. In a state whose status is Lost, [Tick] (of either revision)
    returns Lost and leaves the whole engine, and the random source, as
    they were; [UpdateDirection], the only other operation that is not a
    reset, keeps the status, the score, the speed, the body and the food
    of any state. *)
Theorem lost_is_terminal (ge : GameEngine) (fuel : nat) (rng : Rand)
  (Hlost : status ge = StatusLost) :
  ImplicitStart.Tick fuel rng ge = Ok (ge, rng, StatusLost) /\
  ExplicitStart.Tick fuel rng ge = Ok (ge, rng, StatusLost) /\
  forall dir,
    let ge' := UpdateDirection dir ge in
    status ge' = StatusLost /\ score ge' = score ge /\ speed ge' = speed ge /\
    snakeBody ge' = snakeBody ge /\ foodLocation ge' = foodLocation ge.
Proof.
  repeat split.
  - unfold ImplicitStart.Tick. rewrite Hlost. reflexivity.
  - unfold ExplicitStart.Tick. rewrite Hlost. reflexivity.
  - unfold UpdateDirection. destruct (_ || _); simpl; exact Hlost.
  - unfold UpdateDirection. destruct (_ || _); reflexivity.
  - unfold UpdateDirection. destruct (_ || _); reflexivity.
  - unfold UpdateDirection. destruct (_ || _); reflexivity.
  - unfold UpdateDirection. destruct (_ || _); reflexivity.
Qed.

Lemma lost_is_terminal_witness :
  let ge := set_status StatusLost (NewGameEngine 20 20) in
  ImplicitStart.Tick 0 (scripted []) ge = Ok (ge, scripted [], StatusLost) /\
  ExplicitStart.Tick 0 (scripted []) ge = Ok (ge, scripted [], StatusLost) /\
  forall dir,
    let ge' := UpdateDirection dir ge in
    status ge' = StatusLost /\ score ge' = score ge /\ speed ge' = speed ge /\
    snakeBody ge' = snakeBody ge /\ foodLocation ge' = foodLocation ge.
Proof.
  exact (lost_is_terminal (set_status StatusLost (NewGameEngine 20 20)) 0
           (scripted []) eq_refl).
Defined.

(** ** Direction updates *)

Lemma UpdateDirection_rejected ge dir :
  rejectsDirection ge dir = true -> UpdateDirection dir ge = ge.
Proof. unfold UpdateDirection, rejectsDirection. intros ->. reflexivity. Qed.

Lemma UpdateDirection_accepted ge dir :
  rejectsDirection ge dir = false ->
  UpdateDirection dir ge = set_snakeDirection dir ge.
Proof. unfold UpdateDirection, rejectsDirection. intros ->. reflexivity. Qed.

(** The claim of C7 fails on the fresh 20 x 20 engine with [d = Up]: the
    first call is accepted, the second is discarded, and the pending
    direction ends as Up where it was Right. *)
Lemma update_then_opposite_changes_direction :
  let ge := NewGameEngine 20 20 in
  snakeDirection ge = DirectionRight /\
  snakeDirection
    (UpdateDirection (opposite DirectionUp) (UpdateDirection DirectionUp ge))
  = DirectionUp.
Proof. split; reflexivity. Qed.

(** C7, amended. The second call, with the opposite direction, never has
    an effect: the engine stays as the first call left it. The pending
    direction is therefore the one from before the first call exactly when
    the first call was discarded too. *)
Theorem update_then_opposite (ge : GameEngine) (d : Direction) :
  UpdateDirection (opposite d) (UpdateDirection d ge) = UpdateDirection d ge /\
  (snakeDirection (UpdateDirection (opposite d) (UpdateDirection d ge))
     = snakeDirection ge
   <-> rejectsDirection ge d = true).
Proof.
  assert (Hsecond :
    UpdateDirection (opposite d) (UpdateDirection d ge) = UpdateDirection d ge).
  { destruct (rejectsDirection ge d) eqn:Hrej.
    - rewrite (UpdateDirection_rejected _ _ Hrej).
      apply UpdateDirection_rejected.
      unfold rejectsDirection in *.
      destruct (snakeDirection ge), (snakeDirectionLastMoved ge), d;
        simpl in *; try reflexivity; discriminate.
    - rewrite (UpdateDirection_accepted _ _ Hrej).
      apply UpdateDirection_rejected.
      unfold rejectsDirection. simpl. destruct d; reflexivity. }
  split; [exact Hsecond|].
  rewrite Hsecond. split.
  - intros Hsame. destruct (rejectsDirection ge d) eqn:Hrej; [reflexivity|].
    rewrite (UpdateDirection_accepted _ _ Hrej) in Hsame. simpl in Hsame.
    unfold rejectsDirection in Hrej. rewrite <- Hsame in Hrej.
    destruct d; discriminate.
  - intros Hrej. rewrite (UpdateDirection_rejected _ _ Hrej). reflexivity.
Qed.

(** ** The starting configuration *)

Lemma udiv4_range w : isUint w -> isUint (udiv w 4).
Proof.
  unfold isUint, udiv, uintModulus. intros H. split.
  - apply Z.div_pos; lia.
  - apply Z.div_lt_upper_bound; lia.
Qed.

Lemma NewGame_food ge :
  isUint (playAreaWidth ge) ->
  foodLocation (NewGame ge) =
  mkPoint (3 * (playAreaWidth ge / 4)) (playAreaHeight ge / 2).
Proof.
  intros Hw.
  assert (Hx : umul (udiv (playAreaWidth ge) 4) 3 = 3 * (playAreaWidth ge / 4)).
  { unfold umul, udiv. rewrite wrapUint_small; [lia|].
    unfold isUint, uintModulus in *.
    assert (0 <= playAreaWidth ge / 4) by (apply Z.div_pos; lia).
    assert (playAreaWidth ge / 4 < 4611686018427387904)
      by (apply Z.div_lt_upper_bound; lia).
    lia. }
  unfold NewGame. cbn [foodLocation]. rewrite Hx. reflexivity.
Qed.

(** The claim of C5 fails for a 6 x 6 board: the food starts at (3, 3),
    where the claim's formula gives (4, 3). *)
Lemma food_start_not_three_quarters :
  foodLocation (NewGameEngine 6 6) = mkPoint 3 3 /\
  foodLocation (NewGameEngine 6 6) <> mkPoint (3 * 6 / 4) (6 / 2).
Proof. split; [reflexivity | discriminate]. Qed.

(** C5, amended. After construction, [NewGame] or [PlayNew] the food is at
    (3 * floor(width / 4), floor(height / 2)): the quarter is rounded down
    before it is tripled.  That is the claim's cell exactly when
    [width mod 4 <= 1]. *)
Theorem food_start (ge : GameEngine)
  (Hw : isUint (playAreaWidth ge)) (Hh : isUint (playAreaHeight ge)) :
  let w := playAreaWidth ge in
  let h := playAreaHeight ge in
  foodLocation (NewGameEngine w h) = mkPoint (3 * (w / 4)) (h / 2) /\
  foodLocation (NewGame ge) = mkPoint (3 * (w / 4)) (h / 2) /\
  foodLocation (ExplicitStart.PlayNew ge) = mkPoint (3 * (w / 4)) (h / 2) /\
  (3 * (w / 4) = 3 * w / 4 <-> w mod 4 <= 1).
Proof.
  intros w h. repeat split.
  - unfold NewGameEngine. rewrite NewGame_food; [reflexivity | exact Hw].
  - apply NewGame_food; exact Hw.
  - unfold ExplicitStart.PlayNew. simpl.
    change (foodLocation (NewGame ge) = mkPoint (3 * (w / 4)) (h / 2)).
    apply NewGame_food; exact Hw.
  - intros Heq.
    pose proof (Z.div_mod w 4 ltac:(lia)) as Hdm.
    pose proof (Z.mod_pos_bound w 4 ltac:(lia)) as Hmb.
    assert (Hq : 3 * w / 4 = 3 * (w / 4) + 3 * (w mod 4) / 4).
    { replace (3 * w) with ((3 * (w / 4)) * 4 + 3 * (w mod 4)) by lia.
      rewrite Z.div_add_l by lia. reflexivity. }
    rewrite Hq in Heq.
    assert (Hz : 3 * (w mod 4) / 4 = 0) by lia.
    apply Z.div_small_iff in Hz; lia.
  - intros Hle.
    pose proof (Z.div_mod w 4 ltac:(lia)) as Hdm.
    pose proof (Z.mod_pos_bound w 4 ltac:(lia)) as Hmb.
    replace (3 * w) with ((3 * (w / 4)) * 4 + 3 * (w mod 4)) by lia.
    rewrite Z.div_add_l by lia.
    rewrite (Z.div_small (3 * (w mod 4)) 4) by lia. lia.
Qed.

Lemma food_start_witness :
  foodLocation (NewGameEngine 6 7) = mkPoint (3 * (6 / 4)) (7 / 2) /\
  foodLocation (NewGame (NewGameEngine 6 7)) = mkPoint (3 * (6 / 4)) (7 / 2) /\
  foodLocation (ExplicitStart.PlayNew (NewGameEngine 6 7))
    = mkPoint (3 * (6 / 4)) (7 / 2) /\
  (3 * (6 / 4) = 3 * 6 / 4 <-> 6 mod 4 <= 1).
Proof.
  apply (food_start (NewGameEngine 6 7)); unfold isUint, uintModulus; simpl; lia.
Defined.

(** ** Construction with a zero dimension *)

(** The claim of C8 fails: construction of a 0 x 0 engine returns, and
    what it returns is an engine whose food lies under the snake's head and
    whose tail has wrapped around to the largest [uint]. *)
Lemma construct_zero_returns :
  construct 0 0 =
  Ok {| status := StatusNew; playAreaWidth := 0; playAreaHeight := 0;
        score := 0; speed := 1; tickThrottleCount := 0;
        foodLocation := mkPoint 0 0;
        snakeBody := [mkPoint 0 0; mkPoint 18446744073709551615 0];
        snakeDirection := DirectionRight;
        snakeDirectionLastMoved := DirectionRight;
        snakeShouldElongate := false |}.
Proof. reflexivity. Qed.

(** C8, amended. Construction performs no validation: with a zero width or
    a zero height it still returns an engine, in status New and with the
    dimensions it was given, and that engine is degenerate (its food is
    not on the board). *)
Theorem construct_zero_dimension (w h : Z) (Hzero : w = 0 \/ h = 0) :
  exists ge,
    construct w h = Ok ge /\
    status ge = StatusNew /\ playAreaWidth ge = w /\ playAreaHeight ge = h /\
    ~ onBoard ge.
Proof.
  exists (NewGameEngine w h). repeat split.
  intros (_ & (Hx & Hy) & _). simpl in Hx, Hy. lia.
Qed.

Lemma construct_zero_dimension_witness :
  exists ge,
    construct 0 5 = Ok ge /\
    status ge = StatusNew /\ playAreaWidth ge = 0 /\ playAreaHeight ge = 5 /\
    ~ onBoard ge.
Proof. apply (construct_zero_dimension 0 5). left. reflexivity. Defined.

(** ** The simulation step *)

Lemma wouldMoveCauseLoss_false ge next :
  wouldMoveCauseLoss ge next = false ->
  status ge <> StatusLost /\
  X next <= usub (playAreaWidth ge) 1 /\
  Y next <= usub (playAreaHeight ge) 1 /\
  ~ In next (snakeBody ge).
Proof.
  unfold wouldMoveCauseLoss.
  destruct (Status_eqb (status ge) StatusLost) eqn:Hst; [discriminate|].
  destruct (_ || _) eqn:Hbounds; [discriminate|].
  intros Hbody.
  apply orb_false_iff in Hbounds as [Hbounds Hy].
  apply orb_false_iff in Hbounds as [_ Hx].
  repeat split.
  - intros Heq. rewrite Heq in Hst. discriminate.
  - lia.
  - lia.
  - intros Hin.
    assert (Hex : existsb
              (fun point => (X next =? X point) && (Y next =? Y point))
              (snakeBody ge) = true).
    { apply existsb_exists. exists next. split; [exact Hin|].
      rewrite !Z.eqb_refl. reflexivity. }
    rewrite Hex in Hbody. discriminate.
Qed.

(** The step, case by case, for a snake that has a head. *)
Lemma simulationStep_eq fuel rng ge head tail :
  snakeBody ge = head :: tail ->
  simulationStep fuel rng ge =
  let next := nextHead (snakeDirection ge) head in
  if wouldMoveCauseLoss ge next
  then Ok (set_status StatusLost ge, rng, StatusLost)
  else if Point_eqb next (foodLocation ge) then
    '(p, rng') <- placeFoodLoop fuel rng (afterScore (afterMove ge next)) ;;
    Ok (set_snakeShouldElongate true
          (set_foodLocation p (afterScore (afterMove ge next))),
        rng', status ge)
  else Ok (afterMove ge next, rng, status ge).
Proof.
  intros Hbody. unfold simulationStep, moveSnake. rewrite Hbody.
  change (match snakeDirection ge with
          | DirectionUp => mkPoint (X head) (usub (Y head) 1)
          | DirectionDown => mkPoint (X head) (uadd (Y head) 1)
          | DirectionLeft => mkPoint (usub (X head) 1) (Y head)
          | DirectionRight => mkPoint (uadd (X head) 1) (Y head)
          end) with (nextHead (snakeDirection ge) head).
  cbv zeta. set (next := nextHead (snakeDirection ge) head).
  destruct (wouldMoveCauseLoss ge next) eqn:Hloss; [reflexivity|].
  apply wouldMoveCauseLoss_false in Hloss as (Hst & _).
  assert (Hnl : Status_eqb (status ge) StatusLost = false).
  { destruct (status ge); try reflexivity. contradiction. }
  assert (Hmoved :
    set_snakeShouldElongate false
      (if negb (snakeShouldElongate
                  (set_snakeDirectionLastMoved (snakeDirection ge)
                     (set_snakeBody (next :: head :: tail) ge)))
       then set_snakeBody
              (removelast
                 (snakeBody
                    (set_snakeDirectionLastMoved (snakeDirection ge)
                       (set_snakeBody (next :: head :: tail) ge))))
              (set_snakeDirectionLastMoved (snakeDirection ge)
                 (set_snakeBody (next :: head :: tail) ge))
       else set_snakeDirectionLastMoved (snakeDirection ge)
              (set_snakeBody (next :: head :: tail) ge))
    = afterMove ge next).
  { unfold afterMove. rewrite Hbody. simpl.
    destruct (snakeShouldElongate ge); reflexivity. }
  rewrite Hmoved. unfold bind at 1. cbv beta iota. simpl negb. cbv iota.
  assert (Hscore : isInScorePosition (afterMove ge next)
                   = Ok (Point_eqb next (foodLocation ge))).
  { unfold isInScorePosition, afterMove. simpl. rewrite Hnl, Hbody.
    destruct (snakeShouldElongate ge); reflexivity. }
  rewrite Hscore. unfold bind at 1. cbv beta iota.
  destruct (Point_eqb next (foodLocation ge)); [|reflexivity].
  unfold placeFood, afterScore.
  destruct (placeFoodLoop _ _ _) as [[p rng']| |]; try reflexivity.
  unfold bind. destruct (irem _ _ =? 0); reflexivity.
Qed.

Lemma simulationStep_headless fuel rng ge :
  snakeBody ge = [] -> simulationStep fuel rng ge = Panic.
Proof. intros Hbody. unfold simulationStep, moveSnake. rewrite Hbody. reflexivity. Qed.

(** What a returning step leaves. *)
Lemma simulationStep_inv fuel rng ge ge' rng' st :
  simulationStep fuel rng ge = Ok (ge', rng', st) ->
  exists head tail,
    snakeBody ge = head :: tail /\
    let next := nextHead (snakeDirection ge) head in
    (wouldMoveCauseLoss ge next = true /\
     ge' = set_status StatusLost ge /\ rng' = rng /\ st = StatusLost) \/
    (wouldMoveCauseLoss ge next = false /\ Point_eqb next (foodLocation ge) = false /\
     ge' = afterMove ge next /\ rng' = rng /\ st = status ge) \/
    (wouldMoveCauseLoss ge next = false /\ Point_eqb next (foodLocation ge) = true /\
     exists p,
       placeFoodLoop fuel rng (afterScore (afterMove ge next)) = Ok (p, rng') /\
       ge' = set_snakeShouldElongate true
               (set_foodLocation p (afterScore (afterMove ge next))) /\
       st = status ge).
Proof.
  intros Hstep. destruct (snakeBody ge) as [|head tail] eqn:Hbody.
  - rewrite (simulationStep_headless _ _ _ Hbody) in Hstep. discriminate.
  - exists head, tail. split; [reflexivity|].
    rewrite (simulationStep_eq _ _ _ _ _ Hbody) in Hstep. cbv zeta in Hstep |- *.
    destruct (wouldMoveCauseLoss ge _) eqn:Hloss.
    + left. injection Hstep as <- <- <-. repeat split; reflexivity.
    + right. destruct (Point_eqb _ (foodLocation ge)) eqn:Hfood.
      * right. destruct (placeFoodLoop _ _ _) as [[p r]| |] eqn:Hloop;
          simpl in Hstep; try discriminate.
        injection Hstep as <- <- <-.
        repeat split. exists p. repeat split; reflexivity.
      * left. injection Hstep as <- <- <-. repeat split; reflexivity.
Qed.

Lemma afterScore_frame ge :
  status (afterScore ge) = status ge /\
  playAreaWidth (afterScore ge) = playAreaWidth ge /\
  playAreaHeight (afterScore ge) = playAreaHeight ge /\
  tickThrottleCount (afterScore ge) = tickThrottleCount ge /\
  foodLocation (afterScore ge) = foodLocation ge /\
  snakeBody (afterScore ge) = snakeBody ge /\
  snakeShouldElongate (afterScore ge) = snakeShouldElongate ge /\
  score (afterScore ge) = iadd (score ge) 1.
Proof.
  unfold afterScore. cbv zeta. destruct (irem _ 5 =? 0); repeat split.
Qed.

(** A step never touches the dimensions or the throttle counter, and the
    status it returns is the one it leaves: Lost, or the one it found. *)
Lemma simulationStep_frame fuel rng ge ge' rng' st :
  simulationStep fuel rng ge = Ok (ge', rng', st) ->
  playAreaWidth ge' = playAreaWidth ge /\
  playAreaHeight ge' = playAreaHeight ge /\
  tickThrottleCount ge' = tickThrottleCount ge /\
  status ge' = st /\
  (st = StatusLost \/ st = status ge /\ status ge <> StatusLost).
Proof.
  intros Hstep.
  apply simulationStep_inv in Hstep as (head & tail & Hbody & Hcases).
  cbv zeta in Hcases.
  destruct Hcases as [(_ & -> & _ & ->) | [(Hloss & _ & -> & _ & ->) |
                      (Hloss & _ & p & _ & -> & ->)]].
  - repeat split. left. reflexivity.
  - apply wouldMoveCauseLoss_false in Hloss as (Hst & _).
    repeat split. right. split; [reflexivity | exact Hst].
  - apply wouldMoveCauseLoss_false in Hloss as (Hst & _).
    destruct (afterScore_frame (afterMove ge (nextHead (snakeDirection ge) head)))
      as (Hs & Hw & Hh & Ht & _).
    unfold set_snakeShouldElongate, set_foodLocation.
    cbn [playAreaWidth playAreaHeight tickThrottleCount status].
    rewrite Hw, Hh, Ht, Hs. repeat split.
    right. split; [reflexivity | exact Hst].
Qed.

Lemma afterMove_head ge next head tail :
  snakeBody ge = head :: tail ->
  hd_error (snakeBody (afterMove ge next)) = Some next.
Proof.
  intros Hbody. unfold afterMove.
  cbn [snakeBody set_snakeShouldElongate set_snakeBody]. rewrite Hbody.
  destruct (snakeShouldElongate ge); reflexivity.
Qed.


(** ** The cadence of the throttle *)

Lemma usub_pred t : 0 < t < uintModulus -> usub t 1 = t - 1.
Proof.
  intros H. unfold usub. apply wrapUint_small. unfold isUint. lia.
Qed.

Lemma set_tickThrottleCount_twice a b ge :
  set_tickThrottleCount a (set_tickThrottleCount b ge) = set_tickThrottleCount a ge.
Proof. reflexivity. Qed.

Lemma ImplicitStart_skips k : forall ge fuel rng n,
  status ge <> StatusLost ->
  Z.of_nat k <= tickThrottleCount ge < uintModulus ->
  ImplicitStartRun.run (ticks k) fuel rng ge n =
  Ok (set_tickThrottleCount (tickThrottleCount ge - Z.of_nat k) ge, rng, n).
Proof.
  induction k as [|k IH]; intros ge fuel rng n Hst Ht.
  - simpl. rewrite Z.sub_0_r. destruct ge; reflexivity.
  - unfold ticks. simpl repeat. fold (ticks k). simpl ImplicitStartRun.run.
    rewrite ImplicitStart_Tick_unfold.
    assert (Hnl : Status_eqb (status ge) StatusLost = false).
    { destruct (status ge); try reflexivity. contradiction. }
    rewrite Hnl.
    assert (Hnz : (tickThrottleCount ge =? 0) = false) by (apply Z.eqb_neq; lia).
    rewrite Hnz. simpl bind.
    unfold ImplicitStartRun.stepDue. rewrite Hnz, andb_false_r.
    rewrite usub_pred by lia.
    rewrite IH; [|exact Hst | simpl; lia].
    simpl tickThrottleCount. rewrite set_tickThrottleCount_twice.
    replace (tickThrottleCount ge - 1 - Z.of_nat k)
      with (tickThrottleCount ge - Z.of_nat (S k)) by lia.
    reflexivity.
Qed.

Lemma ExplicitStart_skips k : forall ge fuel rng n,
  status ge = StatusPlaying ->
  Z.of_nat k <= tickThrottleCount ge < uintModulus ->
  ExplicitStartRun.run (ticks k) fuel rng ge n =
  Ok (set_tickThrottleCount (tickThrottleCount ge - Z.of_nat k) ge, rng, n).
Proof.
  induction k as [|k IH]; intros ge fuel rng n Hst Ht.
  - simpl. rewrite Z.sub_0_r. destruct ge; reflexivity.
  - unfold ticks. simpl repeat. fold (ticks k). simpl ExplicitStartRun.run.
    rewrite ExplicitStart_Tick_unfold. rewrite Hst. simpl negb. cbv iota.
    assert (Hnz : (tickThrottleCount ge =? 0) = false) by (apply Z.eqb_neq; lia).
    rewrite Hnz. simpl bind.
    unfold ExplicitStartRun.stepDue. rewrite Hnz, andb_false_r.
    rewrite usub_pred by lia.
    rewrite IH; [|exact Hst | simpl; lia].
    simpl tickThrottleCount. rewrite set_tickThrottleCount_twice.
    replace (tickThrottleCount ge - 1 - Z.of_nat k)
      with (tickThrottleCount ge - Z.of_nat (S k)) by lia.
    reflexivity.
Qed.


(** The cadence from any state with speed 1 and counter 0 whose status lets
    [Tick] run: the call executes a step; if that step returns and does not
    lose, the next ten calls only count the throttle down and the call after
    them executes a step again. *)
Lemma tick_cadence_general (ge : GameEngine) (fuel : nat) (rng : Rand)
  (Hspeed : speed ge = 1) (Hcount : tickThrottleCount ge = 0) :
  (status ge <> StatusLost ->
   ImplicitStartRun.stepDue ge = true /\
   ImplicitStart.Tick fuel rng ge =
     simulationStep fuel rng
       (set_status StatusPlaying (set_tickThrottleCount 10 ge)) /\
   forall ge1 rng1 st,
     ImplicitStart.Tick fuel rng ge = Ok (ge1, rng1, st) -> st <> StatusLost ->
     (forall k fuel' rng', (k <= 10)%nat ->
        ImplicitStartRun.run (ticks k) fuel' rng' ge1 0 =
        Ok (set_tickThrottleCount (10 - Z.of_nat k) ge1, rng', 0%nat)) /\
     ImplicitStartRun.stepDue (set_tickThrottleCount 0 ge1) = true) /\
  (status ge = StatusPlaying ->
   ExplicitStartRun.stepDue ge = true /\
   ExplicitStart.Tick fuel rng ge =
     simulationStep fuel rng (set_tickThrottleCount 10 ge) /\
   forall ge1 rng1 st,
     ExplicitStart.Tick fuel rng ge = Ok (ge1, rng1, st) -> st <> StatusLost ->
     (forall k fuel' rng', (k <= 10)%nat ->
        ExplicitStartRun.run (ticks k) fuel' rng' ge1 0 =
        Ok (set_tickThrottleCount (10 - Z.of_nat k) ge1, rng', 0%nat)) /\
     ExplicitStartRun.stepDue (set_tickThrottleCount 0 ge1) = true).
Proof.
  assert (Hten : usub 10 (usub (speed ge) 1) = 10) by (rewrite Hspeed; reflexivity).
  split.
  - intros Hst.
    assert (Hnl : Status_eqb (status ge) StatusLost = false).
    { destruct (status ge); try reflexivity. contradiction. }
    assert (Htick : ImplicitStart.Tick fuel rng ge =
              simulationStep fuel rng
                (set_status StatusPlaying (set_tickThrottleCount 10 ge))).
    { rewrite ImplicitStart_Tick_unfold, Hnl, Hcount, Hten. simpl Z.eqb. cbv iota zeta.
      destruct (status ge) eqn:Hs; simpl Status_eqb; cbv iota.
      - reflexivity.
      - f_equal. unfold set_status, set_tickThrottleCount. cbn.
        rewrite Hs. reflexivity.
      - contradiction Hst; reflexivity. }
    split; [|split].
    + unfold ImplicitStartRun.stepDue. rewrite Hnl, Hcount. reflexivity.
    + exact Htick.
    + intros ge1 rng1 st Hok Hnot. rewrite Htick in Hok.
      apply simulationStep_frame in Hok as (_ & _ & Ht & Hs & Hor).
      simpl in Ht.
      assert (Hst1 : status ge1 <> StatusLost) by (rewrite Hs; exact Hnot).
      split.
      * intros k fuel' rng' Hk.
        rewrite ImplicitStart_skips; [rewrite Ht; reflexivity | exact Hst1 |].
        rewrite Ht. unfold uintModulus. lia.
      * unfold ImplicitStartRun.stepDue. simpl.
        destruct (status ge1); try reflexivity. contradiction Hst1; reflexivity.
  - intros Hst.
    assert (Htick : ExplicitStart.Tick fuel rng ge =
              simulationStep fuel rng (set_tickThrottleCount 10 ge)).
    { rewrite ExplicitStart_Tick_unfold, Hst, Hcount, Hten. reflexivity. }
    split; [|split].
    + unfold ExplicitStartRun.stepDue. rewrite Hst, Hcount. reflexivity.
    + exact Htick.
    + intros ge1 rng1 st Hok Hnot. rewrite Htick in Hok.
      apply simulationStep_frame in Hok as (_ & _ & Ht & Hs & Hor).
      simpl in Ht.
      assert (Hst1 : status ge1 = StatusPlaying).
      { rewrite Hs. destruct Hor as [Hl | [Hp _]]; [contradiction|].
        rewrite Hp. simpl. exact Hst. }
      split.
      * intros k fuel' rng' Hk.
        rewrite ExplicitStart_skips; [rewrite Ht; reflexivity | exact Hst1 |].
        rewrite Ht. unfold uintModulus. lia.
      * unfold ExplicitStartRun.stepDue. simpl. rewrite Hst1. reflexivity.
Qed.

(** The first step of a fresh game never reaches the food (the food is at
    column [3 * (width / 4)], the head moves to column [width / 4 + 1]), so
    it returns without drawing from the random source. *)
Lemma fresh_step_returns ge0 s fuel rng :
  isUint (playAreaWidth ge0) ->
  exists ge1 st,
    simulationStep fuel rng (set_status s (set_tickThrottleCount 10 (NewGame ge0)))
    = Ok (ge1, rng, st).
Proof.
  intros Hw. erewrite simulationStep_eq by reflexivity. cbv zeta.
  destruct (wouldMoveCauseLoss _ _); [eexists; eexists; reflexivity|].
  assert (Hfood : Point_eqb
            (nextHead
               (snakeDirection (set_status s (set_tickThrottleCount 10 (NewGame ge0))))
               (mkPoint (udiv (playAreaWidth ge0) 4) (udiv (playAreaHeight ge0) 2)))
            (foodLocation (set_status s (set_tickThrottleCount 10 (NewGame ge0))))
          = false).
  { unfold Point_eqb. cbn [snakeDirection foodLocation set_status
      set_tickThrottleCount NewGame nextHead X Y].
    apply andb_false_iff. left. apply Z.eqb_neq.
    pose proof (udiv4_range _ Hw) as Hq.
    unfold isUint, uintModulus, udiv in *.
    assert (Hq4 : playAreaWidth ge0 / 4 < 4611686018427387904)
      by (apply Z.div_lt_upper_bound; lia).
    unfold uadd, umul, udiv.
    rewrite !wrapUint_small by (unfold isUint, uintModulus; lia). lia. }
  rewrite Hfood. eexists; eexists; reflexivity.
Qed.




(** ** The cases of [Tick] *)

Lemma ImplicitStart_Tick_cases fuel rng ge ge' rng' st :
  ImplicitStart.Tick fuel rng ge = Ok (ge', rng', st) ->
  tickCases (ImplicitStartRun.stepDue ge) fuel rng ge ge' rng' st.
Proof.
  rewrite ImplicitStart_Tick_unfold. unfold tickCases, ImplicitStartRun.stepDue.
  destruct (Status_eqb (status ge) StatusLost) eqn:Hlost.
  - intros H. injection H as <- <- <-. left. repeat split.
  - destruct (tickThrottleCount ge =? 0) eqn:Hzero.
    + intros H. right. right. apply Z.eqb_eq in Hzero.
      repeat split; [exact Hzero|].
      exists (if Status_eqb (status ge) StatusNew then StatusPlaying else status ge).
      rewrite <- H. f_equal. cbv zeta.
      destruct (Status_eqb (status ge) StatusNew); reflexivity.
    + intros H. injection H as <- <- <-. right. left.
      apply Z.eqb_neq in Hzero. repeat split. exact Hzero.
Qed.

Lemma ExplicitStart_Tick_cases fuel rng ge ge' rng' st :
  ExplicitStart.Tick fuel rng ge = Ok (ge', rng', st) ->
  tickCases (ExplicitStartRun.stepDue ge) fuel rng ge ge' rng' st.
Proof.
  rewrite ExplicitStart_Tick_unfold. unfold tickCases, ExplicitStartRun.stepDue.
  destruct (Status_eqb (status ge) StatusPlaying) eqn:Hplay; simpl negb; cbv iota.
  - destruct (tickThrottleCount ge =? 0) eqn:Hzero.
    + intros H. right. right. apply Z.eqb_eq in Hzero.
      repeat split; [exact Hzero|].
      exists (status ge). rewrite <- H. reflexivity.
    + intros H. injection H as <- <- <-. right. left.
      apply Z.eqb_neq in Hzero. repeat split. exact Hzero.
  - intros H. injection H as <- <- <-. left. repeat split.
Qed.

(** ** Invariants of the reachable states

    A property that holds after construction and is kept by [NewGame],
    [PlayNew], [UpdateDirection] and each of the three cases of [Tick] holds
    in every state reachable in either revision. *)

Section ReachableInvariant.

Variables w h : Z.
Variable P : GameEngine -> Prop.

Hypothesis P_constructed : P (NewGameEngine w h).
Hypothesis P_NewGame : forall ge, P ge -> P (NewGame ge).
Hypothesis P_PlayNew : forall ge, P ge -> P (ExplicitStart.PlayNew ge).
Hypothesis P_UpdateDirection : forall dir ge, P ge -> P (UpdateDirection dir ge).
Hypothesis P_Tick : forall due fuel rng ge ge' rng' st,
  tickCases due fuel rng ge ge' rng' st -> P ge -> P ge'.

Lemma ImplicitStart_invariant ge : ImplicitStartRun.reachable w h ge -> P ge.
Proof.
  induction 1 as [|ge _ IH|ge dir _ IH|ge fuel rng ge' rng' st _ IH Htick].
  - exact P_constructed.
  - apply P_NewGame; exact IH.
  - apply P_UpdateDirection; exact IH.
  - apply ImplicitStart_Tick_cases in Htick. exact (P_Tick _ _ _ _ _ _ _ Htick IH).
Qed.

Lemma ExplicitStart_invariant ge : ExplicitStartRun.reachable w h ge -> P ge.
Proof.
  induction 1 as [|ge _ IH|ge _ IH|ge dir _ IH|ge fuel rng ge' rng' st _ IH Htick].
  - exact P_constructed.
  - apply P_NewGame; exact IH.
  - apply P_PlayNew; exact IH.
  - apply P_UpdateDirection; exact IH.
  - apply ExplicitStart_Tick_cases in Htick. exact (P_Tick _ _ _ _ _ _ _ Htick IH).
Qed.

Lemma reachable_invariant ge :
  ImplicitStartRun.reachable w h ge \/ ExplicitStartRun.reachable w h ge -> P ge.
Proof.
  intros [Hr | Hr]; [apply ImplicitStart_invariant | apply ExplicitStart_invariant];
    exact Hr.
Qed.

End ReachableInvariant.

(** ** The length of the snake *)

Lemma removelast_cons_length (A : Type) (a : A) (l : list A) :
  length (removelast (a :: l)) = length l.
Proof.
  revert a. induction l as [|b l IH]; intros a; [reflexivity|].
  change (removelast (a :: b :: l)) with (a :: removelast (b :: l)).
  cbn [length]. f_equal. apply IH.
Qed.

Lemma In_removelast (A : Type) (x : A) (l : list A) :
  In x (removelast l) -> In x l.
Proof.
  induction l as [|a l IH]; [intros []|].
  destruct l as [|b l]; [intros []|].
  change (removelast (a :: b :: l)) with (a :: removelast (b :: l)).
  intros [Heq | Hin]; [left; exact Heq | right; apply IH; exact Hin].
Qed.

Lemma afterMove_length ge next :
  length (snakeBody (afterMove ge next)) =
  (length (snakeBody ge) + if snakeShouldElongate ge then 1 else 0)%nat.
Proof.
  unfold afterMove. cbn [snakeBody set_snakeShouldElongate set_snakeBody].
  destruct (snakeShouldElongate ge).
  - simpl. lia.
  - rewrite removelast_cons_length. lia.
Qed.

Lemma simulationStep_length fuel rng ge ge' rng' st :
  simulationStep fuel rng ge = Ok (ge', rng', st) ->
  length (snakeBody ge') =
  (length (snakeBody ge) +
   if negb (Status_eqb st StatusLost) && snakeShouldElongate ge then 1 else 0)%nat.
Proof.
  intros Hstep.
  apply simulationStep_inv in Hstep as (head & tail & Hbody & Hcases).
  cbv zeta in Hcases.
  destruct Hcases as [(_ & -> & _ & ->) | [(Hloss & _ & -> & _ & ->) |
                      (Hloss & _ & p & _ & -> & ->)]].
  - simpl. lia.
  - apply wouldMoveCauseLoss_false in Hloss as (Hst & _).
    rewrite afterMove_length.
    destruct (status ge); try reflexivity. contradiction Hst; reflexivity.
  - apply wouldMoveCauseLoss_false in Hloss as (Hst & _).
    destruct (afterScore_frame (afterMove ge (nextHead (snakeDirection ge) head)))
      as (_ & _ & _ & _ & _ & Hb & _).
    unfold set_snakeShouldElongate, set_foodLocation. cbn [snakeBody].
    rewrite Hb, afterMove_length.
    destruct (status ge); try reflexivity. contradiction Hst; reflexivity.
Qed.

Lemma tickCases_length due fuel rng ge ge' rng' st :
  tickCases due fuel rng ge ge' rng' st ->
  length (snakeBody ge') =
  (length (snakeBody ge) +
   if due && negb (Status_eqb st StatusLost) && snakeShouldElongate ge
   then 1 else 0)%nat.
Proof.
  intros [(-> & -> & _) | [(-> & _ & -> & _) | (-> & _ & s0 & Hstep)]].
  - simpl. lia.
  - simpl. lia.
  - apply simulationStep_length in Hstep. exact Hstep.
Qed.

(** The claim of C4 fails on a reachable state of the 20 x 20 game.  After
    99 calls the head is at (14, 10), next to the food at (15, 10).  The
    100th call executes a step whose new head reaches the food (the score
    becomes 1) and the body keeps its length 2; the step after it, eleven
    calls later, reaches no food and the body grows to 3. *)
Lemma scoring_step_keeps_length :
  exists s99 s100 s111 rng',
    ImplicitStartRun.run (ticks 99) 0 (scripted []) (NewGameEngine 20 20) 0
      = Ok (s99, scripted [], 9%nat) /\
    ImplicitStartRun.stepDue s99 = true /\
    ImplicitStart.Tick 1 (scripted [3; 3]) s99 = Ok (s100, rng', StatusPlaying) /\
    hd_error (snakeBody s100) = Some (foodLocation s99) /\
    score s99 = 0 /\ score s100 = 1 /\
    length (snakeBody s99) = 2%nat /\ length (snakeBody s100) = 2%nat /\
    ImplicitStartRun.run (ticks 11) 0 rng' s100 0 = Ok (s111, rng', 1%nat) /\
    score s111 = 1 /\ length (snakeBody s111) = 3%nat.
Proof.
  do 4 eexists.
  split; [vm_compute; reflexivity|].
  split; [reflexivity|].
  split; [vm_compute; reflexivity|].
  split; [reflexivity|].
  split; [reflexivity|].
  split; [reflexivity|].
  split; [reflexivity|].
  split; [reflexivity|].
  split; [vm_compute; reflexivity|].
  split; reflexivity.
Qed.

Lemma tickCases_elongation due fuel rng ge ge' rng' st :
  tickCases due fuel rng ge ge' rng' st ->
  (due && negb (Status_eqb st StatusLost) = true ->
   exists newHead,
     hd_error (snakeBody ge') = Some newHead /\
     snakeShouldElongate ge' = Point_eqb newHead (foodLocation ge)) /\
  (due && negb (Status_eqb st StatusLost) = false ->
   snakeShouldElongate ge' = snakeShouldElongate ge).
Proof.
  intros [(-> & -> & _) | [(-> & _ & -> & _) | (-> & _ & s0 & Hstep)]].
  - split; [discriminate | reflexivity].
  - split; [discriminate | reflexivity].
  - apply simulationStep_inv in Hstep as (head & tail & Hbody & Hcases).
    cbv zeta in Hcases.
    cbn [snakeDirection foodLocation snakeBody set_status set_tickThrottleCount]
      in Hbody, Hcases.
    set (g1 := set_status s0
                 (set_tickThrottleCount (usub 10 (usub (speed ge) 1)) ge)) in *.
    set (next := nextHead (snakeDirection ge) head) in *.
    destruct Hcases as [(_ & -> & _ & ->) | [(Hloss & Hfood & -> & _ & ->) |
                        (Hloss & Hfood & p & _ & -> & ->)]].
    + split; [discriminate | reflexivity].
    + apply wouldMoveCauseLoss_false in Hloss as (Hst & _).
      assert (Hnl : Status_eqb (status g1) StatusLost = false).
      { destruct (status g1); try reflexivity. contradiction Hst; reflexivity. }
      rewrite Hnl. split; [|discriminate].
      intros _. exists next.
      split; [apply (afterMove_head g1 next head tail Hbody)|].
      rewrite Hfood. reflexivity.
    + apply wouldMoveCauseLoss_false in Hloss as (Hst & _).
      assert (Hnl : Status_eqb (status g1) StatusLost = false).
      { destruct (status g1); try reflexivity. contradiction Hst; reflexivity. }
      rewrite Hnl. split; [|discriminate].
      intros _. exists next.
      destruct (afterScore_frame (afterMove g1 next))
        as (_ & _ & _ & _ & _ & Hsb & _).
      unfold set_snakeShouldElongate, set_foodLocation.
      cbn [snakeBody snakeShouldElongate]. rewrite Hsb.
      split; [apply (afterMove_head g1 next head tail Hbody)|].
      rewrite Hfood. reflexivity.
Qed.

(** C4, amended. A call to [Tick] that returns leaves a body that is one
    longer when it executed a step, that step did not lose and
    [snakeShouldElongate] was set when the call began, and a body of the
    same length in every other case; so the length never decreases.  Whether
    the new head reaches the food plays no part in the length that the step
    itself leaves: an executed step that does not lose sets
    [snakeShouldElongate] exactly when its new head is on the cell of the
    food, and clears it otherwise; a call that executes no step, or whose
    step loses, leaves the flag as it was.  The growth for a food therefore
    comes with the next executed step that does not lose, and only with
    that one.  ([due] is [stepDue] of the revision whose [Tick] is
    called.) *)
Theorem body_length_law (fuel : nat) (rng : Rand) (ge ge' : GameEngine)
  (rng' : Rand) (st : Status) (due : bool)
  (Htick :
     (ImplicitStart.Tick fuel rng ge = Ok (ge', rng', st) /\
      due = ImplicitStartRun.stepDue ge) \/
     (ExplicitStart.Tick fuel rng ge = Ok (ge', rng', st) /\
      due = ExplicitStartRun.stepDue ge)) :
  length (snakeBody ge') =
    (length (snakeBody ge) +
     if due && negb (Status_eqb st StatusLost) && snakeShouldElongate ge
     then 1 else 0)%nat /\
  (length (snakeBody ge) <= length (snakeBody ge'))%nat /\
  (due && negb (Status_eqb st StatusLost) = true ->
   exists newHead,
     hd_error (snakeBody ge') = Some newHead /\
     snakeShouldElongate ge' = Point_eqb newHead (foodLocation ge)) /\
  (due && negb (Status_eqb st StatusLost) = false ->
   snakeShouldElongate ge' = snakeShouldElongate ge).
Proof.
  assert (Hcases : tickCases due fuel rng ge ge' rng' st).
  { destruct Htick as [[Ht ->] | [Ht ->]].
    - apply ImplicitStart_Tick_cases; exact Ht.
    - apply ExplicitStart_Tick_cases; exact Ht. }
  pose proof (tickCases_length _ _ _ _ _ _ _ Hcases) as Hlen.
  pose proof (tickCases_elongation _ _ _ _ _ _ _ Hcases) as [Hset Hkeep].
  split; [exact Hlen|]. split; [lia|]. split; assumption.
Qed.

Lemma body_length_law_witness :
  let ge := {| status := StatusPlaying; playAreaWidth := 20; playAreaHeight := 20;
               score := 1; speed := 1; tickThrottleCount := 0;
               foodLocation := mkPoint 3 3;
               snakeBody := [mkPoint 15 10; mkPoint 14 10];
               snakeDirection := DirectionRight;
               snakeDirectionLastMoved := DirectionRight;
               snakeShouldElongate := true |} in
  let ge' := {| status := StatusPlaying; playAreaWidth := 20; playAreaHeight := 20;
                score := 1; speed := 1; tickThrottleCount := 10;
                foodLocation := mkPoint 3 3;
                snakeBody := [mkPoint 16 10; mkPoint 15 10; mkPoint 14 10];
                snakeDirection := DirectionRight;
                snakeDirectionLastMoved := DirectionRight;
                snakeShouldElongate := false |} in
  length (snakeBody ge') =
    (length (snakeBody ge) +
     if true && negb (Status_eqb StatusPlaying StatusLost) && snakeShouldElongate ge
     then 1 else 0)%nat /\
  (length (snakeBody ge) <= length (snakeBody ge'))%nat /\
  (true && negb (Status_eqb StatusPlaying StatusLost) = true ->
   exists newHead,
     hd_error (snakeBody ge') = Some newHead /\
     snakeShouldElongate ge' = Point_eqb newHead (foodLocation ge)) /\
  (true && negb (Status_eqb StatusPlaying StatusLost) = false ->
   snakeShouldElongate ge' = snakeShouldElongate ge).
Proof.
  cbv zeta.
  apply (body_length_law 0 (scripted []) _ _ (scripted []) StatusPlaying true).
  left. split; reflexivity.
Defined.

(** ** Length and score *)

Lemma simulationStep_lengthTracksScore fuel rng ge ge' rng' st :
  simulationStep fuel rng ge = Ok (ge', rng', st) ->
  lengthTracksScore ge ->
  Z.of_nat (length (snakeBody ge')) <= maxInt ->
  lengthTracksScore ge'.
Proof.
  intros Hstep Hinv Hmax.
  apply simulationStep_inv in Hstep as (head & tail & Hbody & Hcases).
  cbv zeta in Hcases. unfold lengthTracksScore in *.
  destruct Hcases as [(_ & -> & _ & ->) | [(Hloss & _ & -> & _ & ->) |
                      (Hloss & _ & p & _ & -> & ->)]].
  - exact Hinv.
  - rewrite afterMove_length.
    change (snakeShouldElongate (afterMove ge (nextHead (snakeDirection ge) head)))
      with false.
    change (score (afterMove ge (nextHead (snakeDirection ge) head)))
      with (score ge).
    destruct (snakeShouldElongate ge); lia.
  - set (gm := afterMove ge (nextHead (snakeDirection ge) head)) in *.
    destruct (afterScore_frame gm) as (_ & _ & _ & _ & _ & Hb & _ & Hsc).
    unfold set_snakeShouldElongate, set_foodLocation in *.
    cbn [snakeBody snakeShouldElongate score] in *.
    rewrite Hb in *. rewrite Hsc.
    assert (Hlen : Z.of_nat (length (snakeBody gm)) = score ge + 2).
    { unfold gm. rewrite afterMove_length.
      destruct (snakeShouldElongate ge); lia. }
    change (score gm) with (score ge).
    unfold iadd. rewrite wrapInt_small; unfold maxInt in *; lia.
Qed.

Lemma tickCases_lengthTracksScore due fuel rng ge ge' rng' st :
  tickCases due fuel rng ge ge' rng' st ->
  (Z.of_nat (length (snakeBody ge)) <= maxInt -> lengthTracksScore ge) ->
  Z.of_nat (length (snakeBody ge')) <= maxInt ->
  lengthTracksScore ge'.
Proof.
  intros Hcases IH Hmax.
  pose proof (tickCases_length _ _ _ _ _ _ _ Hcases) as Hlen.
  assert (Hinv : lengthTracksScore ge) by (apply IH; lia).
  destruct Hcases as [(_ & -> & _) | [(_ & _ & -> & _) | (_ & _ & s0 & Hstep)]].
  - exact Hinv.
  - exact Hinv.
  - apply (simulationStep_lengthTracksScore _ _ _ _ _ _ Hstep); [|exact Hmax].
    exact Hinv.
Qed.

Lemma UpdateDirection_frame dir ge :
  status (UpdateDirection dir ge) = status ge /\
  playAreaWidth (UpdateDirection dir ge) = playAreaWidth ge /\
  playAreaHeight (UpdateDirection dir ge) = playAreaHeight ge /\
  score (UpdateDirection dir ge) = score ge /\
  speed (UpdateDirection dir ge) = speed ge /\
  tickThrottleCount (UpdateDirection dir ge) = tickThrottleCount ge /\
  foodLocation (UpdateDirection dir ge) = foodLocation ge /\
  snakeBody (UpdateDirection dir ge) = snakeBody ge /\
  snakeShouldElongate (UpdateDirection dir ge) = snakeShouldElongate ge.
Proof. unfold UpdateDirection. destruct (_ || _); repeat split. Qed.

Lemma UpdateDirection_lengthTracksScore dir ge :
  lengthTracksScore ge -> lengthTracksScore (UpdateDirection dir ge).
Proof.
  unfold lengthTracksScore.
  destruct (UpdateDirection_frame dir ge) as (_ & _ & _ & Hs & _ & _ & _ & Hb & He).
  rewrite Hs, Hb, He. tauto.
Qed.

Lemma reachable_lengthTracksScore w h ge :
  ImplicitStartRun.reachable w h ge \/ ExplicitStartRun.reachable w h ge ->
  Z.of_nat (length (snakeBody ge)) <= maxInt -> lengthTracksScore ge.
Proof.
  apply (reachable_invariant w h
           (fun ge => Z.of_nat (length (snakeBody ge)) <= maxInt ->
                      lengthTracksScore ge)).
  - intros _. reflexivity.
  - intros g _ _. reflexivity.
  - intros g _ _. reflexivity.
  - intros dir g IH Hmax. apply UpdateDirection_lengthTracksScore. apply IH.
    destruct (UpdateDirection_frame dir g) as (_ & _ & _ & _ & _ & _ & _ & Hb & _).
    rewrite <- Hb. exact Hmax.
  - intros due fuel rng g g' rng' st Hcases IH.
    exact (tickCases_lengthTracksScore _ _ _ _ _ _ _ Hcases IH).
Qed.

(** C10. In every state reachable in either revision (from construction
    with any dimensions, through [NewGame], [PlayNew], [UpdateDirection] and
    returning calls to [Tick]), the body has [score + 2] points when
    [snakeShouldElongate] is false and [score + 1] when it is true.  The
    body is a Go slice, so its length is at most the largest [int]; the
    lists of the model have no such limit and the bound is stated. *)
Theorem length_tracks_score (w h : Z) (ge : GameEngine)
  (Hreach : ImplicitStartRun.reachable w h ge \/ ExplicitStartRun.reachable w h ge)
  (Hlen : Z.of_nat (length (snakeBody ge)) <= maxInt) :
  Z.of_nat (length (snakeBody ge)) =
  if snakeShouldElongate ge then score ge + 1 else score ge + 2.
Proof.
  exact (reachable_lengthTracksScore w h ge Hreach Hlen).
Qed.

(** ** Runs stay within the reachable states *)

Lemma ImplicitStart_run_reachable w h calls :
  forall fuel rng ge n ge' rng' n',
    ImplicitStartRun.reachable w h ge ->
    ImplicitStartRun.run calls fuel rng ge n = Ok (ge', rng', n') ->
    ImplicitStartRun.reachable w h ge'.
Proof.
  induction calls as [|c calls IH]; intros fuel rng ge n ge' rng' n' Hr Hrun.
  - simpl in Hrun. injection Hrun as <- _ _. exact Hr.
  - destruct c; simpl in Hrun.
    + apply (IH _ _ _ _ _ _ _ (ImplicitStartRun.reach_NewGame _ _ _ Hr) Hrun).
    + discriminate.
    + apply (IH _ _ _ _ _ _ _
               (ImplicitStartRun.reach_UpdateDirection _ _ _ dir Hr) Hrun).
    + destruct (ImplicitStart.Tick fuel rng ge) as [[[g r] s]| |] eqn:Htick;
        simpl in Hrun; try discriminate.
      apply (IH _ _ _ _ _ _ _
               (ImplicitStartRun.reach_Tick _ _ _ _ _ _ _ _ Hr Htick) Hrun).
Qed.

Lemma ExplicitStart_run_reachable w h calls :
  forall fuel rng ge n ge' rng' n',
    ExplicitStartRun.reachable w h ge ->
    ExplicitStartRun.run calls fuel rng ge n = Ok (ge', rng', n') ->
    ExplicitStartRun.reachable w h ge'.
Proof.
  induction calls as [|c calls IH]; intros fuel rng ge n ge' rng' n' Hr Hrun.
  - simpl in Hrun. injection Hrun as <- _ _. exact Hr.
  - destruct c; simpl in Hrun.
    + apply (IH _ _ _ _ _ _ _ (ExplicitStartRun.reach_NewGame _ _ _ Hr) Hrun).
    + apply (IH _ _ _ _ _ _ _ (ExplicitStartRun.reach_PlayNew _ _ _ Hr) Hrun).
    + apply (IH _ _ _ _ _ _ _
               (ExplicitStartRun.reach_UpdateDirection _ _ _ dir Hr) Hrun).
    + destruct (ExplicitStart.Tick fuel rng ge) as [[[g r] s]| |] eqn:Htick;
        simpl in Hrun; try discriminate.
      apply (IH _ _ _ _ _ _ _
               (ExplicitStartRun.reach_Tick _ _ _ _ _ _ _ _ Hr Htick) Hrun).
Qed.

Lemma length_tracks_score_witness :
  let ge := {| status := StatusPlaying; playAreaWidth := 20; playAreaHeight := 20;
               score := 1; speed := 1; tickThrottleCount := 10;
               foodLocation := mkPoint 3 3;
               snakeBody := [mkPoint 15 10; mkPoint 14 10];
               snakeDirection := DirectionRight;
               snakeDirectionLastMoved := DirectionRight;
               snakeShouldElongate := true |} in
  Z.of_nat (length (snakeBody ge)) =
  if snakeShouldElongate ge then score ge + 1 else score ge + 2.
Proof.
  apply (length_tracks_score 20 20).
  - left.
    apply (ImplicitStart_run_reachable 20 20 (ticks 100) 1 (scripted [3; 3])
             (NewGameEngine 20 20) 0 _ (fun k => scripted [3; 3] (S (S k))) 10%nat).
    + apply ImplicitStartRun.reach_NewGameEngine.
    + vm_compute. reflexivity.
  - vm_compute. discriminate.
Defined.

(** ** Body and food on the board *)

Lemma intOfUint_pos u : isUint u -> 0 < intOfUint u -> intOfUint u = u.
Proof.
  unfold isUint, intOfUint, wrapInt, maxInt, uintModulus. intros Hu Hpos.
  destruct (Z_lt_ge_dec u 9223372036854775808) as [Hlt | Hge].
  - rewrite Z.mod_small by lia. lia.
  - exfalso.
    replace (u + (9223372036854775807 + 1))
      with (u - 9223372036854775808 + 1 * 18446744073709551616) in Hpos by lia.
    rewrite Z.mod_add in Hpos by lia.
    rewrite Z.mod_small in Hpos by lia. lia.
Qed.

Lemma Intn_spec rng n v rng' :
  Intn rng n = Ok (v, rng') ->
  0 < n /\ v = rng 0%nat mod n /\ rng' = (fun k => rng (S k)) /\ 0 <= v < n.
Proof.
  unfold Intn. destruct (n <=? 0) eqn:Hn; [discriminate|].
  apply Z.leb_gt in Hn. intros H. injection H as <- <-.
  repeat split; try exact Hn; apply Z.mod_pos_bound; exact Hn.
Qed.

(** What the loop of [placeFood] returns is a drawn cell in another column
    and another row than the old food, and off the body. *)
Lemma placeFoodLoop_spec fuel : forall rng ge p rng',
  placeFoodLoop fuel rng ge = Ok (p, rng') ->
  0 <= X p < intOfUint (playAreaWidth ge) /\
  0 <= Y p < intOfUint (playAreaHeight ge) /\
  X p <> X (foodLocation ge) /\ Y p <> Y (foodLocation ge) /\
  ~ In p (snakeBody ge).
Proof.
  induction fuel as [|fuel IH]; intros rng ge p rng' Hloop; [discriminate|].
  simpl in Hloop.
  destruct (Intn rng (intOfUint (playAreaWidth ge))) as [[x r1]| |] eqn:Hx;
    simpl in Hloop; try discriminate.
  destruct (Intn r1 (intOfUint (playAreaHeight ge))) as [[y r2]| |] eqn:Hy;
    simpl in Hloop; try discriminate.
  destruct ((x =? X (foodLocation ge)) || (y =? Y (foodLocation ge))) eqn:Hsame.
  - apply (IH _ _ _ _ Hloop).
  - destruct (existsb (Point_eqb (mkPoint x y)) (snakeBody ge)) eqn:Hon.
    + apply (IH _ _ _ _ Hloop).
    + injection Hloop as <- <-.
      apply Intn_spec in Hx as (_ & _ & _ & Hxr).
      apply Intn_spec in Hy as (_ & _ & _ & Hyr).
      apply orb_false_iff in Hsame as [Hsx Hsy].
      apply Z.eqb_neq in Hsx. apply Z.eqb_neq in Hsy.
      repeat split; try (simpl; lia).
      intros Hin.
      assert (Hex : existsb (Point_eqb (mkPoint x y)) (snakeBody ge) = true).
      { apply existsb_exists. exists (mkPoint x y). split; [exact Hin|].
        apply Point_eqb_eq. reflexivity. }
      rewrite Hex in Hon. discriminate.
Qed.

Lemma nextHead_nonneg dir head :
  0 <= X head -> 0 <= Y head ->
  0 <= X (nextHead dir head) /\ 0 <= Y (nextHead dir head).
Proof.
  intros Hx Hy.
  destruct dir; simpl; unfold uadd, usub; split; try assumption;
    apply wrapUint_range.
Qed.

Lemma afterMove_body_incl ge next p :
  In p (snakeBody (afterMove ge next)) -> p = next \/ In p (snakeBody ge).
Proof.
  unfold afterMove. cbn [snakeBody set_snakeShouldElongate set_snakeBody].
  destruct (snakeShouldElongate ge); intros Hin.
  - destruct Hin as [<- | Hin]; [left; reflexivity | right; exact Hin].
  - apply In_removelast in Hin.
    destruct Hin as [<- | Hin]; [left; reflexivity | right; exact Hin].
Qed.

Lemma simulationStep_onBoard fuel rng ge ge' rng' st :
  simulationStep fuel rng ge = Ok (ge', rng', st) ->
  0 < playAreaWidth ge < uintModulus ->
  0 < playAreaHeight ge < uintModulus ->
  onBoard ge -> onBoard ge'.
Proof.
  intros Hstep Hw Hh (Hbody & Hfood & Hoff).
  apply simulationStep_inv in Hstep as (head & tail & Hhead & Hcases).
  cbv zeta in Hcases.
  set (next := nextHead (snakeDirection ge) head) in *.
  assert (Hnext : wouldMoveCauseLoss ge next = false ->
                  inBounds ge next /\ ~ In next (snakeBody ge)).
  { intros Hloss.
    apply wouldMoveCauseLoss_false in Hloss as (_ & Hx & Hy & Hnot).
    rewrite usub_pred in Hx by lia. rewrite usub_pred in Hy by lia.
    assert (Hin : inBounds ge head) by (apply Hbody; rewrite Hhead; left; reflexivity).
    destruct Hin as [Hhx Hhy].
    destruct (nextHead_nonneg (snakeDirection ge) head) as [Hnx Hny]; try lia.
    fold next in Hnx, Hny.
    split; [|exact Hnot]. unfold inBounds. lia. }
  assert (Hmoved : wouldMoveCauseLoss ge next = false ->
                   forall p, In p (snakeBody (afterMove ge next)) -> inBounds ge p).
  { intros Hloss p Hin. apply afterMove_body_incl in Hin as [-> | Hin].
    - apply Hnext; exact Hloss.
    - apply Hbody; exact Hin. }
  destruct Hcases as [(_ & -> & _ & _) | [(Hloss & Hnf & -> & _ & _) |
                      (Hloss & _ & p & Hloop & -> & _)]].
  - repeat split; try (apply Hbody; assumption); try apply Hfood. exact Hoff.
  - split; [exact (Hmoved Hloss)|]. split; [exact Hfood|].
    change (foodLocation (afterMove ge next)) with (foodLocation ge).
    intros Hin. apply afterMove_body_incl in Hin as [Heq | Hin].
    + assert (Hc : Point_eqb next (foodLocation ge) = true)
        by (apply Point_eqb_eq; symmetry; exact Heq).
      rewrite Hc in Hnf. discriminate.
    + exact (Hoff Hin).
  - set (gm := afterMove ge next) in *.
    destruct (afterScore_frame gm) as (_ & Hsw & Hsh & _ & _ & Hsb & _).
    apply placeFoodLoop_spec in Hloop as (Hpx & Hpy & _ & _ & Hpoff).
    rewrite Hsw in Hpx. rewrite Hsh in Hpy. rewrite Hsb in Hpoff.
    change (playAreaWidth gm) with (playAreaWidth ge) in Hpx.
    change (playAreaHeight gm) with (playAreaHeight ge) in Hpy.
    rewrite intOfUint_pos in Hpx by (unfold isUint; lia).
    rewrite intOfUint_pos in Hpy by (unfold isUint; lia).
    unfold onBoard, inBounds, set_snakeShouldElongate, set_foodLocation.
    cbn [snakeBody foodLocation playAreaWidth playAreaHeight].
    rewrite Hsw, Hsh, Hsb.
    change (playAreaWidth gm) with (playAreaWidth ge).
    change (playAreaHeight gm) with (playAreaHeight ge).
    split; [exact (Hmoved Hloss)|]. split; [split; assumption | exact Hpoff].
Qed.

Lemma NewGame_onBoard ge :
  4 <= playAreaWidth ge < uintModulus ->
  0 < playAreaHeight ge < uintModulus ->
  onBoard (NewGame ge).
Proof.
  intros Hw Hh. unfold uintModulus in *.
  set (w := playAreaWidth ge) in *. set (h := playAreaHeight ge) in *.
  pose proof (Z.div_mod w 4 ltac:(lia)) as Hdw.
  pose proof (Z.mod_pos_bound w 4 ltac:(lia)) as Hmw.
  pose proof (Z.div_mod h 2 ltac:(lia)) as Hdh.
  pose proof (Z.mod_pos_bound h 2 ltac:(lia)) as Hmh.
  assert (Hfx : umul (udiv w 4) 3 = 3 * (w / 4)).
  { unfold umul, udiv. rewrite wrapUint_small; [lia|].
    unfold isUint, uintModulus. lia. }
  assert (Htx : usub (udiv w 4) 1 = w / 4 - 1).
  { unfold usub, udiv. apply wrapUint_small. unfold isUint, uintModulus. lia. }
  unfold onBoard, inBounds, NewGame.
  cbn [snakeBody foodLocation playAreaWidth playAreaHeight].
  fold w h. rewrite Hfx, Htx. unfold udiv.
  split; [|split].
  - intros p [<- | [<- | []]]; cbn [X Y]; lia.
  - cbn [X Y]. lia.
  - intros [Heq | [Heq | []]]; apply (f_equal X) in Heq; cbn [X] in Heq; lia.
Qed.

Lemma tickCases_onBoard w h due fuel rng ge ge' rng' st :
  0 < w < uintModulus -> 0 < h < uintModulus ->
  tickCases due fuel rng ge ge' rng' st ->
  playAreaWidth ge = w /\ playAreaHeight ge = h /\ onBoard ge ->
  playAreaWidth ge' = w /\ playAreaHeight ge' = h /\ onBoard ge'.
Proof.
  intros Hw Hh Hcases (Hgw & Hgh & Hon).
  destruct Hcases as [(_ & -> & _) | [(_ & _ & -> & _) | (_ & _ & s0 & Hstep)]].
  - split; [exact Hgw|]. split; [exact Hgh | exact Hon].
  - split; [exact Hgw|]. split; [exact Hgh | exact Hon].
  - pose proof (simulationStep_frame _ _ _ _ _ _ Hstep) as (Hfw & Hfh & _).
    cbn [playAreaWidth playAreaHeight set_status set_tickThrottleCount] in Hfw, Hfh.
    split; [congruence|]. split; [congruence|].
    apply (simulationStep_onBoard _ _ _ _ _ _ Hstep).
    + cbn [playAreaWidth set_status set_tickThrottleCount]. lia.
    + cbn [playAreaHeight set_status set_tickThrottleCount]. lia.
    + exact Hon.
Qed.

Lemma UpdateDirection_onBoard dir ge : onBoard ge -> onBoard (UpdateDirection dir ge).
Proof. unfold UpdateDirection. destruct (_ || _); intros H; exact H. Qed.

Lemma reachable_onBoard w h ge :
  4 <= w < uintModulus -> 0 < h < uintModulus ->
  ImplicitStartRun.reachable w h ge \/ ExplicitStartRun.reachable w h ge ->
  playAreaWidth ge = w /\ playAreaHeight ge = h /\ onBoard ge.
Proof.
  intros Hw Hh.
  assert (Hreset : forall g,
            playAreaWidth g = w /\ playAreaHeight g = h /\ onBoard g ->
            playAreaWidth (NewGame g) = w /\ playAreaHeight (NewGame g) = h /\
            onBoard (NewGame g)).
  { intros g (Hgw & Hgh & _).
    split; [exact Hgw|]. split; [exact Hgh|].
    apply NewGame_onBoard; [rewrite Hgw | rewrite Hgh]; assumption. }
  apply (reachable_invariant w h
           (fun ge => playAreaWidth ge = w /\ playAreaHeight ge = h /\ onBoard ge)).
  - split; [reflexivity|]. split; [reflexivity|].
    apply NewGame_onBoard; assumption.
  - exact Hreset.
  - intros g Hg. exact (Hreset g Hg).
  - intros dir g (Hgw & Hgh & Hon).
    destruct (UpdateDirection_frame dir g) as (_ & Hfw & Hfh & _).
    split; [congruence|]. split; [congruence|].
    apply UpdateDirection_onBoard; exact Hon.
  - intros due fuel rng g g' rng' st Hcases IH.
    apply (tickCases_onBoard w h _ _ _ _ _ _ _ ltac:(lia) Hh Hcases IH).
Qed.

(** The claim of C2 fails right after construction of a 3 x 3 engine
    (positive dimensions): the food is on the snake's head, and the tail,
    at X = 2^64 - 1, is off the board. *)
Lemma small_board_breaks_placement :
  let ge := NewGameEngine 3 3 in
  foodLocation ge = mkPoint 0 1 /\
  snakeBody ge = [mkPoint 0 1; mkPoint 18446744073709551615 1] /\
  In (foodLocation ge) (snakeBody ge) /\
  ~ inBounds ge (mkPoint 18446744073709551615 1) /\
  ~ onBoard ge.
Proof.
  cbv zeta. split; [reflexivity|]. split; [reflexivity|].
  split; [left; reflexivity|]. split.
  - intros [[_ Hx] _]. simpl in Hx. lia.
  - intros (_ & _ & Hoff). apply Hoff. left. reflexivity.
Qed.

(** C2, amended. On an engine created with width >= 4 and height > 0,
    after construction and after every [NewGame], [PlayNew],
    [UpdateDirection] and returning [Tick], every point of the body and the
    food lie within [0, width) x [0, height), and the food is on no point
    of the body.  (For a width below 4 the starting placement itself is
    off: [width / 4] is 0.) *)
Theorem body_and_food_on_board (w h : Z) (ge : GameEngine)
  (Hw : 4 <= w < uintModulus) (Hh : 0 < h < uintModulus)
  (Hreach : ImplicitStartRun.reachable w h ge \/ ExplicitStartRun.reachable w h ge) :
  (forall p, In p (snakeBody ge) -> 0 <= X p < w /\ 0 <= Y p < h) /\
  (0 <= X (foodLocation ge) < w /\ 0 <= Y (foodLocation ge) < h) /\
  ~ In (foodLocation ge) (snakeBody ge).
Proof.
  assert (H : playAreaWidth ge = w /\ playAreaHeight ge = h /\ onBoard ge).
  { apply reachable_onBoard; assumption. }
  destruct H as (Hgw & Hgh & Hbody & Hfood & Hoff).
  unfold inBounds in *. rewrite Hgw, Hgh in *.
  split; [exact Hbody|]. split; [exact Hfood | exact Hoff].
Qed.

Lemma body_and_food_on_board_witness :
  let ge := {| status := StatusPlaying; playAreaWidth := 20; playAreaHeight := 20;
               score := 1; speed := 1; tickThrottleCount := 10;
               foodLocation := mkPoint 3 3;
               snakeBody := [mkPoint 15 10; mkPoint 14 10];
               snakeDirection := DirectionRight;
               snakeDirectionLastMoved := DirectionRight;
               snakeShouldElongate := true |} in
  (forall p, In p (snakeBody ge) -> 0 <= X p < 20 /\ 0 <= Y p < 20) /\
  (0 <= X (foodLocation ge) < 20 /\ 0 <= Y (foodLocation ge) < 20) /\
  ~ In (foodLocation ge) (snakeBody ge).
Proof.
  apply (body_and_food_on_board 20 20).
  - unfold uintModulus. lia.
  - unfold uintModulus. lia.
  - right.
    apply (ExplicitStart_run_reachable 20 20 (CallPlayNew :: ticks 100) 1
             (scripted [3; 3]) (NewGameEngine 20 20) 0 _
             (fun k => scripted [3; 3] (S (S k))) 10%nat).
    + apply ExplicitStartRun.reach_NewGameEngine.
    + vm_compute. reflexivity.
Defined.

(** ** The throttle counter *)

Lemma simulationStep_speed fuel rng ge ge' rng' st :
  simulationStep fuel rng ge = Ok (ge', rng', st) ->
  speed ge' = speed ge \/ speed ge' = uadd (speed ge) 1.
Proof.
  intros Hstep.
  apply simulationStep_inv in Hstep as (head & tail & Hbody & Hcases).
  cbv zeta in Hcases.
  destruct Hcases as [(_ & -> & _ & _) | [(_ & _ & -> & _ & _) |
                      (_ & _ & p & _ & -> & _)]].
  - left. reflexivity.
  - left. reflexivity.
  - unfold afterScore, set_snakeShouldElongate, set_foodLocation. cbv zeta.
    destruct (irem _ 5 =? 0); [right | left]; reflexivity.
Qed.

(** The value the throttle is reset to, against the speed before and after
    a possible increment; the arithmetic is that of [uint]. *)
Lemma throttle_reset_bound s :
  isUint s ->
  isUint (usub 10 (usub s 1)) /\ isUint (uadd s 1) /\
  (s <= 11 -> usub 10 (usub s 1) <= 10 - (s - 1) + 1) /\
  (uadd s 1 <= 11 -> usub 10 (usub s 1) <= 10 - (uadd s 1 - 1) + 1).
Proof.
  intros Hs. split; [apply wrapUint_range|]. split; [apply wrapUint_range|].
  unfold isUint, uintModulus in Hs.
  destruct (Z.eq_dec s 0) as [-> | Hnz]; [split; intros _; vm_compute; discriminate|].
  destruct (Z.eq_dec s 18446744073709551615) as [-> | Hnm].
  { split; [intros H; lia | intros _; vm_compute; discriminate]. }
  assert (Hp : usub s 1 = s - 1).
  { unfold usub. apply wrapUint_small. unfold isUint, uintModulus. lia. }
  assert (Hn : uadd s 1 = s + 1).
  { unfold uadd. apply wrapUint_small. unfold isUint, uintModulus. lia. }
  rewrite Hp, Hn.
  assert (Hsmall : s <= 11 -> usub 10 (s - 1) = 11 - s).
  { intros Hle. unfold usub. rewrite wrapUint_small; [lia|].
    unfold isUint, uintModulus. lia. }
  split; intros Hle; rewrite Hsmall by lia; lia.
Qed.

Lemma tickCases_throttleBounded due fuel rng ge ge' rng' st :
  tickCases due fuel rng ge ge' rng' st ->
  throttleBounded ge -> throttleBounded ge'.
Proof.
  intros Hcases (Hs & Ht & Hb). unfold throttleBounded.
  destruct Hcases as [(_ & -> & _) | [(_ & Hnz & -> & _) | (_ & _ & s0 & Hstep)]].
  - split; [exact Hs|]. split; [exact Ht | exact Hb].
  - cbn [speed tickThrottleCount set_tickThrottleCount].
    unfold isUint in Ht. rewrite usub_pred by lia.
    split; [exact Hs|]. split; [unfold isUint; lia|]. intros Hle.
    specialize (Hb Hle). lia.
  - pose proof (simulationStep_frame _ _ _ _ _ _ Hstep) as (_ & _ & Hft & _).
    pose proof (simulationStep_speed _ _ _ _ _ _ Hstep) as Hsp.
    cbn [speed tickThrottleCount set_status set_tickThrottleCount] in Hft, Hsp.
    destruct (throttle_reset_bound (speed ge) Hs) as (Hr1 & Hr2 & Hr3 & Hr4).
    rewrite Hft.
    destruct Hsp as [-> | ->].
    + split; [exact Hs|]. split; [exact Hr1 | exact Hr3].
    + split; [exact Hr2|]. split; [exact Hr1 | exact Hr4].
Qed.

Lemma NewGame_throttleBounded ge : throttleBounded (NewGame ge).
Proof.
  unfold throttleBounded, isUint, uintModulus. simpl. lia.
Qed.

Lemma UpdateDirection_throttleBounded dir ge :
  throttleBounded ge -> throttleBounded (UpdateDirection dir ge).
Proof. unfold UpdateDirection. destruct (_ || _); intros H; exact H. Qed.

Lemma reachable_throttleBounded w h ge :
  ImplicitStartRun.reachable w h ge \/ ExplicitStartRun.reachable w h ge ->
  throttleBounded ge.
Proof.
  apply (reachable_invariant w h throttleBounded).
  - apply NewGame_throttleBounded.
  - intros g _. apply NewGame_throttleBounded.
  - intros g _. apply (NewGame_throttleBounded g).
  - intros dir g. apply UpdateDirection_throttleBounded.
  - exact tickCases_throttleBounded.
Qed.

(** The claim of C6 fails on a reachable state of the 20 x 20 game: the
    call to [Tick] that brings the score to 5 first sets the counter to 10
    (the speed is still 1) and then raises the speed to 2, for which
    [baseInterval] is 9. *)
Lemma throttle_exceeds_base_interval :
  exists ge rng' steps,
    ImplicitStartRun.run staircase 1 (scripted staircaseFood)
      (NewGameEngine 20 20) 0 = Ok (ge, rng', steps) /\
    ImplicitStartRun.reachable 20 20 ge /\
    score ge = 5 /\ speed ge = 2 /\ tickThrottleCount ge = 10 /\
    baseInterval (speed ge) = 9 /\
    ~ tickThrottleCount ge <= baseInterval (speed ge).
Proof.
  assert (Hrun : exists ge rng' steps,
    ImplicitStartRun.run staircase 1 (scripted staircaseFood)
      (NewGameEngine 20 20) 0 = Ok (ge, rng', steps) /\
    score ge = 5 /\ speed ge = 2 /\ tickThrottleCount ge = 10).
  { do 3 eexists. split; [vm_compute; reflexivity|]. repeat split. }
  destruct Hrun as (ge & rng' & steps & Hrun & Hscore & Hspeed & Hcount).
  exists ge, rng', steps. split; [exact Hrun|]. split.
  - apply (ImplicitStart_run_reachable 20 20 _ _ _ _ _ _ _ _
             (ImplicitStartRun.reach_NewGameEngine 20 20) Hrun).
  - rewrite Hspeed, Hcount. repeat split; try assumption.
    unfold baseInterval. lia.
Qed.

(** Beyond speed 11 the reset value wraps around: at speed 12 the counter is
    set to the largest [uint]. *)
Remark throttle_reset_wraps_at_speed_12 :
  tickThrottle (set_speed 12 (NewGameEngine 20 20)) =
  (set_tickThrottleCount 18446744073709551615 (set_speed 12 (NewGameEngine 20 20)),
   true).
Proof. reflexivity. Qed.

(** C6, amended. In every state reachable in either revision the throttle
    counter is not negative, and while the speed is at most 11 it is at most
    [10 - (speed - 1) + 1], hence at most [baseInterval speed + 1]: the
    counter is set from the speed before the step, and the step may raise
    the speed by one. *)
Theorem throttle_bound (w h : Z) (ge : GameEngine)
  (Hreach : ImplicitStartRun.reachable w h ge \/ ExplicitStartRun.reachable w h ge) :
  0 <= tickThrottleCount ge /\
  (speed ge <= 11 ->
   tickThrottleCount ge <= 10 - (speed ge - 1) + 1 /\
   tickThrottleCount ge <= baseInterval (speed ge) + 1).
Proof.
  assert (H : throttleBounded ge).
  { exact (reachable_throttleBounded w h ge Hreach). }
  destruct H as (_ & [Hlo _] & Hup).
  split; [exact Hlo|]. intros Hle. specialize (Hup Hle).
  split; [exact Hup|]. unfold baseInterval. lia.
Qed.

Lemma throttle_bound_witness :
  let ge := {| status := StatusPlaying; playAreaWidth := 20; playAreaHeight := 20;
               score := 5; speed := 2; tickThrottleCount := 10;
               foodLocation := mkPoint 0 0;
               snakeBody := [mkPoint 19 14; mkPoint 19 13; mkPoint 18 13;
                             mkPoint 18 12; mkPoint 17 12; mkPoint 17 11];
               snakeDirection := DirectionDown;
               snakeDirectionLastMoved := DirectionDown;
               snakeShouldElongate := true |} in
  0 <= tickThrottleCount ge /\
  (speed ge <= 11 ->
   tickThrottleCount ge <= 10 - (speed ge - 1) + 1 /\
   tickThrottleCount ge <= baseInterval (speed ge) + 1).
Proof.
  apply (throttle_bound 20 20). left.
  eapply (ImplicitStart_run_reachable 20 20 staircase 1 (scripted staircaseFood)
            (NewGameEngine 20 20) 0).
  - apply ImplicitStartRun.reach_NewGameEngine.
  - vm_compute. reflexivity.
Defined.

(** ** Termination of food placement *)

Lemma reachable_shape_step fuel rng ge ge' rng' st due :
  tickCases due fuel rng ge ge' rng' st ->
  playAreaWidth ge' = playAreaWidth ge /\ playAreaHeight ge' = playAreaHeight ge.
Proof.
  intros [(_ & -> & _) | [(_ & _ & -> & _) | (_ & _ & s0 & Hstep)]].
  - split; reflexivity.
  - split; reflexivity.
  - apply simulationStep_frame in Hstep as (Hw & Hh & _). split; assumption.
Qed.

(** Every reachable state has the dimensions of its construction and a
    snake of at least two points. *)
Lemma reachable_shape w h ge :
  ImplicitStartRun.reachable w h ge \/ ExplicitStartRun.reachable w h ge ->
  playAreaWidth ge = w /\ playAreaHeight ge = h /\
  (2 <= length (snakeBody ge))%nat.
Proof.
  apply (reachable_invariant w h
           (fun ge => playAreaWidth ge = w /\ playAreaHeight ge = h /\
                      (2 <= length (snakeBody ge))%nat)).
  - repeat split. simpl. lia.
  - intros g (Hgw & Hgh & _). split; [exact Hgw|]. split; [exact Hgh|]. simpl. lia.
  - intros g (Hgw & Hgh & _). split; [exact Hgw|]. split; [exact Hgh|]. simpl. lia.
  - intros dir g (Hgw & Hgh & Hlen).
    destruct (UpdateDirection_frame dir g)
      as (_ & Hfw & Hfh & _ & _ & _ & _ & Hb & _).
    rewrite Hfw, Hfh, Hb. tauto.
  - intros due fuel rng g g' rng' st Hcases (Hgw & Hgh & Hlen).
    pose proof (tickCases_length _ _ _ _ _ _ _ Hcases) as Hl.
    apply reachable_shape_step in Hcases as [Hfw Hfh].
    rewrite Hfw, Hfh. split; [exact Hgw|]. split; [exact Hgh | lia].
Qed.

(** No fuel is enough when the source never offers an acceptable cell. *)
Lemma placeFoodLoop_starved fuel : forall rng ge,
  0 < intOfUint (playAreaWidth ge) -> 0 < intOfUint (playAreaHeight ge) ->
  (forall k, acceptsFood ge
               (rng (2 * k)%nat mod intOfUint (playAreaWidth ge))
               (rng (2 * k + 1)%nat mod intOfUint (playAreaHeight ge)) = false) ->
  placeFoodLoop fuel rng ge = OutOfFuel.
Proof.
  induction fuel as [|fuel IH]; intros rng ge Hw Hh Hnone; [reflexivity|].
  simpl. unfold Intn.
  rewrite (proj2 (Z.leb_gt _ _) Hw), (proj2 (Z.leb_gt _ _) Hh). simpl bind.
  pose proof (Hnone 0%nat) as H0. simpl in H0. unfold acceptsFood in H0.
  assert (Hnext : placeFoodLoop fuel (fun k => rng (S (S k))) ge = OutOfFuel).
  { apply IH; try assumption. intros k.
    replace (S (S (2 * k))) with (2 * S k)%nat by lia.
    replace (S (S (2 * k + 1))) with (2 * S k + 1)%nat by lia.
    apply Hnone. }
  cbn [X Y].
  destruct ((rng 0%nat mod intOfUint (playAreaWidth ge) =? X (foodLocation ge)) ||
            (rng 1%nat mod intOfUint (playAreaHeight ge) =? Y (foodLocation ge)))
    eqn:Hsame; [exact Hnext|].
  cbn [negb andb] in H0. apply negb_false_iff in H0. rewrite H0. exact Hnext.
Qed.

(** Fuel beyond the index of an acceptable candidate is enough. *)
Lemma placeFoodLoop_returns k : forall fuel rng ge,
  0 < intOfUint (playAreaWidth ge) -> 0 < intOfUint (playAreaHeight ge) ->
  (k < fuel)%nat ->
  acceptsFood ge
    (rng (2 * k)%nat mod intOfUint (playAreaWidth ge))
    (rng (2 * k + 1)%nat mod intOfUint (playAreaHeight ge)) = true ->
  exists p rng', placeFoodLoop fuel rng ge = Ok (p, rng').
Proof.
  induction k as [|k IH]; intros fuel rng ge Hw Hh Hk Hacc;
    (destruct fuel as [|fuel]; [lia|]);
    simpl placeFoodLoop; unfold Intn;
    rewrite (proj2 (Z.leb_gt _ _) Hw), (proj2 (Z.leb_gt _ _) Hh); simpl bind.
  - simpl in Hacc. unfold acceptsFood in Hacc.
    apply andb_true_iff in Hacc as [Hsame Hon].
    apply negb_true_iff in Hsame. apply negb_true_iff in Hon.
    simpl X. simpl Y. rewrite Hsame, Hon. eexists. eexists. reflexivity.
  - assert (Hnext : exists p rng',
              placeFoodLoop fuel (fun j => rng (S (S j))) ge = Ok (p, rng')).
    { apply IH; try assumption; [lia|].
      replace (S (S (2 * k))) with (2 * S k)%nat by lia.
      replace (S (S (2 * k + 1))) with (2 * S k + 1)%nat by lia.
      exact Hacc. }
    destruct (_ || _); [exact Hnext|].
    destruct (existsb _ _); [exact Hnext|].
    eexists. eexists. reflexivity.
Qed.

Lemma simulationStep_returns fuel k rng ge head tail :
  snakeBody ge = head :: tail ->
  0 < playAreaWidth ge <= maxInt -> 0 < playAreaHeight ge <= maxInt ->
  (k < fuel)%nat ->
  (let x := rng (2 * k)%nat mod playAreaWidth ge in
   let y := rng (2 * k + 1)%nat mod playAreaHeight ge in
   x <> X (foodLocation ge) /\ y <> Y (foodLocation ge) /\
   ~ In (mkPoint x y) (nextHead (snakeDirection ge) head :: snakeBody ge)) ->
  exists r, simulationStep fuel rng ge = Ok r.
Proof.
  intros Hbody Hw Hh Hk Hcand. cbv zeta in Hcand.
  rewrite (simulationStep_eq _ _ _ _ _ Hbody). cbv zeta.
  set (next := nextHead (snakeDirection ge) head) in *.
  destruct (wouldMoveCauseLoss ge next); [eexists; reflexivity|].
  destruct (Point_eqb next (foodLocation ge)); [|eexists; reflexivity].
  set (g2 := afterScore (afterMove ge next)).
  destruct (afterScore_frame (afterMove ge next))
    as (_ & Hsw & Hsh & _ & Hsf & Hsb & _).
  fold g2 in Hsw, Hsh, Hsf, Hsb.
  change (playAreaWidth (afterMove ge next)) with (playAreaWidth ge) in Hsw.
  change (playAreaHeight (afterMove ge next)) with (playAreaHeight ge) in Hsh.
  change (foodLocation (afterMove ge next)) with (foodLocation ge) in Hsf.
  assert (Hiw : intOfUint (playAreaWidth g2) = playAreaWidth ge).
  { rewrite Hsw. apply intOfUint_small. lia. }
  assert (Hih : intOfUint (playAreaHeight g2) = playAreaHeight ge).
  { rewrite Hsh. apply intOfUint_small. lia. }
  destruct (placeFoodLoop_returns k fuel rng g2) as (p & rng' & Hloop).
  - rewrite Hiw. lia.
  - rewrite Hih. lia.
  - exact Hk.
  - rewrite Hiw, Hih. unfold acceptsFood. rewrite Hsf, Hsb.
    destruct Hcand as (Hx & Hy & Hoff).
    apply andb_true_iff. split; apply negb_true_iff.
    + apply orb_false_iff. split; apply Z.eqb_neq; assumption.
    + destruct (existsb _ _) eqn:Hex; [|reflexivity].
      exfalso. apply Hoff.
      apply existsb_exists in Hex as (q & Hin & Heq).
      apply Point_eqb_eq in Heq. subst q.
      apply afterMove_body_incl in Hin as [-> | Hin];
        [left; reflexivity | right; exact Hin].
  - rewrite Hloop. eexists. reflexivity.
Qed.

(** In the model, a stream that always yields 15 starves the loop on a
    reachable state of the 20 x 20 game: after 99 calls the head is next to
    the food at (15, 10), the 100th call reaches the food and calls
    [placeFood], and every candidate is (15, 15), in the column of the old
    food. *)
Lemma food_placement_never_returns :
  let s99 := {| status := StatusPlaying; playAreaWidth := 20; playAreaHeight := 20;
                score := 0; speed := 1; tickThrottleCount := 0;
                foodLocation := mkPoint 15 10;
                snakeBody := [mkPoint 14 10; mkPoint 13 10];
                snakeDirection := DirectionRight;
                snakeDirectionLastMoved := DirectionRight;
                snakeShouldElongate := false |} in
  ImplicitStartRun.run (ticks 99) 0 (scripted []) (NewGameEngine 20 20) 0
    = Ok (s99, scripted [], 9%nat) /\
  ImplicitStartRun.reachable 20 20 s99 /\
  (forall fuel, ImplicitStart.Tick fuel (fun _ => 15) s99 = OutOfFuel) /\
  (forall fuel, ExplicitStart.Tick fuel (fun _ => 15) s99 = OutOfFuel).
Proof.
  cbv zeta.
  assert (Hrun : ImplicitStartRun.run (ticks 99) 0 (scripted []) (NewGameEngine 20 20) 0
    = Ok ({| status := StatusPlaying; playAreaWidth := 20; playAreaHeight := 20;
             score := 0; speed := 1; tickThrottleCount := 0;
             foodLocation := mkPoint 15 10;
             snakeBody := [mkPoint 14 10; mkPoint 13 10];
             snakeDirection := DirectionRight;
             snakeDirectionLastMoved := DirectionRight;
             snakeShouldElongate := false |}, scripted [], 9%nat))
    by (vm_compute; reflexivity).
  assert (Hstep : forall fuel,
    simulationStep fuel (fun _ => 15)
      {| status := StatusPlaying; playAreaWidth := 20; playAreaHeight := 20;
         score := 0; speed := 1; tickThrottleCount := 10;
         foodLocation := mkPoint 15 10;
         snakeBody := [mkPoint 14 10; mkPoint 13 10];
         snakeDirection := DirectionRight;
         snakeDirectionLastMoved := DirectionRight;
         snakeShouldElongate := false |} = OutOfFuel).
  { intros fuel.
    erewrite simulationStep_eq by reflexivity.
    cbv zeta.
    change (wouldMoveCauseLoss _ _) with false.
    change (Point_eqb _ _) with true. cbv iota.
    rewrite placeFoodLoop_starved; [reflexivity | reflexivity | reflexivity |].
    intros k. reflexivity. }
  split; [exact Hrun|]. split; [|split].
  - apply (ImplicitStart_run_reachable 20 20 _ _ _ _ _ _ _ _
             (ImplicitStartRun.reach_NewGameEngine 20 20) Hrun).
  - intros fuel. rewrite ImplicitStart_Tick_unfold. exact (Hstep fuel).
  - intros fuel. rewrite ExplicitStart_Tick_unfold. exact (Hstep fuel).
Qed.

(** A run whose last call to [Tick] does not return does not return. *)
Lemma ImplicitStart_run_starved calls :
  forall fuel rng ge n ge' rng' n',
    ImplicitStartRun.run calls fuel rng ge n = Ok (ge', rng', n') ->
    ImplicitStart.Tick fuel rng' ge' = OutOfFuel ->
    ImplicitStartRun.run (calls ++ [CallTick]) fuel rng ge n = OutOfFuel.
Proof.
  induction calls as [|c calls IH]; intros fuel rng ge n ge' rng' n' Hrun Hlast.
  - simpl in Hrun. injection Hrun as <- <- <-.
    change (ImplicitStartRun.run ([] ++ [CallTick]) fuel rng ge n)
      with (bind (ImplicitStart.Tick fuel rng ge)
              (fun p => let '(g, r, _) := p in
                 Ok (g, r, if ImplicitStartRun.stepDue ge then S n else n))).
    rewrite Hlast. reflexivity.
  - destruct c; simpl in Hrun.
    + apply (IH _ _ _ _ _ _ _ Hrun Hlast).
    + discriminate.
    + apply (IH _ _ _ _ _ _ _ Hrun Hlast).
    + destruct (ImplicitStart.Tick fuel rng ge) as [[[g r] s]| |] eqn:Htick;
        simpl in Hrun; try discriminate.
      change (ImplicitStartRun.run ((CallTick :: calls) ++ [CallTick]) fuel rng ge n)
        with (bind (ImplicitStart.Tick fuel rng ge)
                (fun p => let '(g, r, _) := p in
                   ImplicitStartRun.run (calls ++ [CallTick]) fuel r g
                     (if ImplicitStartRun.stepDue ge then S n else n))).
      rewrite Htick. apply (IH _ _ _ _ _ _ _ Hrun Hlast).
Qed.

Lemma ExplicitStart_run_starved calls :
  forall fuel rng ge n ge' rng' n',
    ExplicitStartRun.run calls fuel rng ge n = Ok (ge', rng', n') ->
    ExplicitStart.Tick fuel rng' ge' = OutOfFuel ->
    ExplicitStartRun.run (calls ++ [CallTick]) fuel rng ge n = OutOfFuel.
Proof.
  induction calls as [|c calls IH]; intros fuel rng ge n ge' rng' n' Hrun Hlast.
  - simpl in Hrun. injection Hrun as <- <- <-.
    change (ExplicitStartRun.run ([] ++ [CallTick]) fuel rng ge n)
      with (bind (ExplicitStart.Tick fuel rng ge)
              (fun p => let '(g, r, _) := p in
                 Ok (g, r, if ExplicitStartRun.stepDue ge then S n else n))).
    rewrite Hlast. reflexivity.
  - destruct c; simpl in Hrun.
    + apply (IH _ _ _ _ _ _ _ Hrun Hlast).
    + apply (IH _ _ _ _ _ _ _ Hrun Hlast).
    + apply (IH _ _ _ _ _ _ _ Hrun Hlast).
    + destruct (ExplicitStart.Tick fuel rng ge) as [[[g r] s]| |] eqn:Htick;
        simpl in Hrun; try discriminate.
      change (ExplicitStartRun.run ((CallTick :: calls) ++ [CallTick]) fuel rng ge n)
        with (bind (ExplicitStart.Tick fuel rng ge)
                (fun p => let '(g, r, _) := p in
                   ExplicitStartRun.run (calls ++ [CallTick]) fuel r g
                     (if ExplicitStartRun.stepDue ge then S n else n))).
      rewrite Htick. apply (IH _ _ _ _ _ _ _ Hrun Hlast).
Qed.

(** The claim of C9 fails on the 8 x 1 board, for every random source.
    The fresh snake has its head at (2, 0) and the food at (6, 0).  33 calls
    to [Tick] (three steps to the right) bring the head to (5, 0); the 34th
    call moves it onto the food and calls [placeFood].  Every candidate has
    Y = 0, the row of the old food, and is rejected: whatever the source
    yields and whatever the fuel, that call does not return.  The same holds
    in the second revision after [PlayNew]. *)
Lemma eating_tick_never_returns_on_flat_board :
  let s33 := {| status := StatusPlaying; playAreaWidth := 8; playAreaHeight := 1;
                score := 0; speed := 1; tickThrottleCount := 0;
                foodLocation := mkPoint 6 0;
                snakeBody := [mkPoint 5 0; mkPoint 4 0];
                snakeDirection := DirectionRight;
                snakeDirectionLastMoved := DirectionRight;
                snakeShouldElongate := false |} in
  0 < playAreaWidth s33 /\ 0 < playAreaHeight s33 /\
  ImplicitStartRun.reachable 8 1 s33 /\
  ExplicitStartRun.reachable 8 1 s33 /\
  (forall (fuel : nat) (rng : Rand),
     ImplicitStartRun.run (ticks 33) fuel rng (NewGameEngine 8 1) 0
       = Ok (s33, rng, 3%nat) /\
     ImplicitStart.Tick fuel rng s33 = OutOfFuel /\
     ImplicitStartRun.run (ticks 34) fuel rng (NewGameEngine 8 1) 0 = OutOfFuel /\
     ExplicitStartRun.run (CallPlayNew :: ticks 33) fuel rng (NewGameEngine 8 1) 0
       = Ok (s33, rng, 3%nat) /\
     ExplicitStart.Tick fuel rng s33 = OutOfFuel /\
     ExplicitStartRun.run (CallPlayNew :: ticks 34) fuel rng (NewGameEngine 8 1) 0
       = OutOfFuel).
Proof.
  cbv zeta.
  split; [reflexivity|]. split; [reflexivity|].
  split.
  { apply (ImplicitStart_run_reachable 8 1 (ticks 33) 0 (scripted [])
             (NewGameEngine 8 1) 0 _ (scripted []) 3%nat).
    - apply ImplicitStartRun.reach_NewGameEngine.
    - vm_compute. reflexivity. }
  split.
  { apply (ExplicitStart_run_reachable 8 1 (CallPlayNew :: ticks 33) 0 (scripted [])
             (NewGameEngine 8 1) 0 _ (scripted []) 3%nat).
    - apply ExplicitStartRun.reach_NewGameEngine.
    - vm_compute. reflexivity. }
  intros fuel rng.
  set (s33 := {| status := StatusPlaying; playAreaWidth := 8; playAreaHeight := 1;
                 score := 0; speed := 1; tickThrottleCount := 0;
                 foodLocation := mkPoint 6 0;
                 snakeBody := [mkPoint 5 0; mkPoint 4 0];
                 snakeDirection := DirectionRight;
                 snakeDirectionLastMoved := DirectionRight;
                 snakeShouldElongate := false |}).
  assert (HrunI : ImplicitStartRun.run (ticks 33) fuel rng (NewGameEngine 8 1) 0
                  = Ok (s33, rng, 3%nat)) by (vm_compute; reflexivity).
  assert (HrunE : ExplicitStartRun.run (CallPlayNew :: ticks 33) fuel rng
                    (NewGameEngine 8 1) 0
                  = Ok (s33, rng, 3%nat)) by (vm_compute; reflexivity).
  assert (Hstep : simulationStep fuel rng (set_tickThrottleCount 10 s33) = OutOfFuel).
  { erewrite simulationStep_eq by reflexivity. cbv zeta.
    change (wouldMoveCauseLoss _ _) with false.
    change (Point_eqb _ _) with true. cbv iota.
    rewrite placeFoodLoop_starved; [reflexivity | reflexivity | reflexivity |].
    intros k. unfold acceptsFood.
    change (intOfUint (playAreaHeight _)) with 1. rewrite Z.mod_1_r.
    change (Y (foodLocation _)) with 0. rewrite Z.eqb_refl, orb_true_r.
    reflexivity. }
  assert (HtickI : ImplicitStart.Tick fuel rng s33 = OutOfFuel).
  { rewrite ImplicitStart_Tick_unfold. exact Hstep. }
  assert (HtickE : ExplicitStart.Tick fuel rng s33 = OutOfFuel).
  { rewrite ExplicitStart_Tick_unfold. exact Hstep. }
  split; [exact HrunI|].
  split; [exact HtickI|]. split.
  { change (ticks 34) with (ticks 33 ++ [CallTick]).
    exact (ImplicitStart_run_starved _ _ _ _ _ _ _ _ HrunI HtickI). }
  split; [exact HrunE|].
  split; [exact HtickE|].
  change (CallPlayNew :: ticks 34) with ((CallPlayNew :: ticks 33) ++ [CallTick]).
  exact (ExplicitStart_run_starved _ _ _ _ _ _ _ _ HrunE HtickE).
Qed.

Lemma wouldMoveCauseLoss_started ge s0 t next :
  status ge <> StatusLost -> s0 <> StatusLost ->
  wouldMoveCauseLoss (set_status s0 (set_tickThrottleCount t ge)) next
  = wouldMoveCauseLoss ge next.
Proof.
  intros Hge Hs0. unfold wouldMoveCauseLoss.
  cbn [status playAreaWidth playAreaHeight snakeBody set_status
       set_tickThrottleCount].
  destruct s0; try (contradiction Hs0; reflexivity);
    destruct (status ge); try (contradiction Hge; reflexivity); reflexivity.
Qed.

(** The step of a call that eats, on a source that offers no acceptable
    cell: it does not return. *)
Lemma simulationStep_starved fuel rng ge s0 t head tail :
  snakeBody ge = head :: tail ->
  status ge <> StatusLost -> s0 <> StatusLost ->
  0 < playAreaWidth ge <= maxInt -> 0 < playAreaHeight ge <= maxInt ->
  wouldMoveCauseLoss ge (nextHead (snakeDirection ge) head) = false ->
  nextHead (snakeDirection ge) head = foodLocation ge ->
  (forall j,
     let x := rng (2 * j)%nat mod playAreaWidth ge in
     let y := rng (2 * j + 1)%nat mod playAreaHeight ge in
     x = X (foodLocation ge) \/ y = Y (foodLocation ge) \/
     In (mkPoint x y)
        (snakeBody (afterMove ge (nextHead (snakeDirection ge) head)))) ->
  simulationStep fuel rng (set_status s0 (set_tickThrottleCount t ge)) = OutOfFuel.
Proof.
  intros Hbody Hge Hs0 Hw Hh Hloss Hfood Hrej.
  rewrite (simulationStep_eq _ _ _ head tail) by exact Hbody. cbv zeta.
  cbn [snakeDirection foodLocation set_status set_tickThrottleCount].
  set (next := nextHead (snakeDirection ge) head) in *.
  rewrite (wouldMoveCauseLoss_started ge s0 t next Hge Hs0), Hloss.
  rewrite (proj2 (Point_eqb_eq next (foodLocation ge)) Hfood).
  set (g1 := set_status s0 (set_tickThrottleCount t ge)).
  destruct (afterScore_frame (afterMove g1 next))
    as (_ & Hsw & Hsh & _ & Hsf & Hsb & _).
  change (playAreaWidth (afterMove g1 next)) with (playAreaWidth ge) in Hsw.
  change (playAreaHeight (afterMove g1 next)) with (playAreaHeight ge) in Hsh.
  change (foodLocation (afterMove g1 next)) with (foodLocation ge) in Hsf.
  change (snakeBody (afterMove g1 next)) with (snakeBody (afterMove ge next)) in Hsb.
  rewrite placeFoodLoop_starved; [reflexivity | | |].
  - rewrite Hsw, intOfUint_small by lia. lia.
  - rewrite Hsh, intOfUint_small by lia. lia.
  - intros k. rewrite Hsw, Hsh, !intOfUint_small by lia.
    unfold acceptsFood. rewrite Hsf, Hsb.
    specialize (Hrej k). cbv zeta in Hrej.
    destruct Hrej as [Hx | [Hy | Hin]].
    + rewrite Hx, Z.eqb_refl. reflexivity.
    + rewrite Hy, Z.eqb_refl, orb_true_r. reflexivity.
    + assert (Hex : existsb
                (Point_eqb (mkPoint (rng (2 * k)%nat mod playAreaWidth ge)
                                    (rng (2 * k + 1)%nat mod playAreaHeight ge)))
                (snakeBody (afterMove ge next)) = true).
      { apply existsb_exists. eexists. split; [exact Hin|].
        apply Point_eqb_eq. reflexivity. }
      rewrite Hex. apply andb_false_r.
Qed.

(** C9, amended. [UpdateDirection], [NewGame], [PlayNew] and the accessors
    are straight-line code and always return.  On every reachable state of
    an engine whose dimensions are positive (and fit an [int]):
    [Tick] returns, in either revision, provided the random source offers,
    as one of the first [fuel] candidates (the one with index [k]), a cell
    in another column and another row than the food and neither on the
    snake nor on the cell its head moves to; and the loop of [placeFood],
    which has no bound of its own, does not end otherwise: when the call
    executes a step that moves the head onto the food and every candidate of
    the source is in the column or the row of that food or on the moved
    snake, [Tick] does not return, however much fuel it is given. *)
Theorem tick_returns (w h : Z) (ge : GameEngine)
  (Hw : 0 < w <= maxInt) (Hh : 0 < h <= maxInt)
  (Hreach : ImplicitStartRun.reachable w h ge \/ ExplicitStartRun.reachable w h ge) :
  (forall (fuel k : nat) (rng : Rand),
     (k < fuel)%nat ->
     (forall head, hd_error (snakeBody ge) = Some head ->
        let x := rng (2 * k)%nat mod w in
        let y := rng (2 * k + 1)%nat mod h in
        x <> X (foodLocation ge) /\ y <> Y (foodLocation ge) /\
        ~ In (mkPoint x y) (nextHead (snakeDirection ge) head :: snakeBody ge)) ->
     (exists ge' rng' st, ImplicitStart.Tick fuel rng ge = Ok (ge', rng', st)) /\
     (exists ge' rng' st, ExplicitStart.Tick fuel rng ge = Ok (ge', rng', st))) /\
  (forall (rng : Rand) (head : Point) (tail : list Point),
     snakeBody ge = head :: tail ->
     let next := nextHead (snakeDirection ge) head in
     wouldMoveCauseLoss ge next = false ->
     next = foodLocation ge ->
     (forall j,
        let x := rng (2 * j)%nat mod w in
        let y := rng (2 * j + 1)%nat mod h in
        x = X (foodLocation ge) \/ y = Y (foodLocation ge) \/
        In (mkPoint x y) (snakeBody (afterMove ge next))) ->
     forall fuel,
       (ImplicitStartRun.stepDue ge = true ->
        ImplicitStart.Tick fuel rng ge = OutOfFuel) /\
       (ExplicitStartRun.stepDue ge = true ->
        ExplicitStart.Tick fuel rng ge = OutOfFuel)).
Proof.
  destruct (reachable_shape w h ge Hreach) as (Hgw & Hgh & Hlen).
  split.
  - intros fuel k rng Hk Hcand.
    destruct (snakeBody ge) as [|head tail] eqn:Hbody; [simpl in Hlen; lia|].
    specialize (Hcand head eq_refl). cbv zeta in Hcand.
    assert (Hstep : forall s0 t,
              exists r, simulationStep fuel rng
                          (set_status s0 (set_tickThrottleCount t ge)) = Ok r).
    { intros s0 t.
      apply (simulationStep_returns fuel k rng _ head tail).
      - exact Hbody.
      - cbn [playAreaWidth set_status set_tickThrottleCount]. lia.
      - cbn [playAreaHeight set_status set_tickThrottleCount]. lia.
      - exact Hk.
      - cbn [playAreaWidth playAreaHeight foodLocation snakeDirection snakeBody
             set_status set_tickThrottleCount].
        rewrite Hgw, Hgh, Hbody. exact Hcand. }
    assert (Hsplit : forall r : result (GameEngine * Rand * Status),
              (exists v, r = Ok v) -> exists ge' rng' st, r = Ok (ge', rng', st)).
    { intros r [[[g r'] s] ->]. exists g, r', s. reflexivity. }
    split; apply Hsplit.
    + rewrite ImplicitStart_Tick_unfold.
      destruct (Status_eqb (status ge) StatusLost); [eexists; reflexivity|].
      destruct (tickThrottleCount ge =? 0); [|eexists; reflexivity].
      cbv zeta. destruct (Status_eqb (status ge) StatusNew).
      * apply Hstep.
      * apply (Hstep (status ge)).
    + rewrite ExplicitStart_Tick_unfold.
      destruct (negb (Status_eqb (status ge) StatusPlaying)); [eexists; reflexivity|].
      destruct (tickThrottleCount ge =? 0); [|eexists; reflexivity].
      apply (Hstep (status ge)).
  - intros rng head tail Hbody next Hloss Hfood Hrej fuel.
    assert (Hstep : forall s0 t, status ge <> StatusLost -> s0 <> StatusLost ->
              simulationStep fuel rng (set_status s0 (set_tickThrottleCount t ge))
              = OutOfFuel).
    { intros s0 t Hge Hs0.
      apply (simulationStep_starved fuel rng ge s0 t head tail); try assumption.
      - rewrite Hgw. exact Hw.
      - rewrite Hgh. exact Hh.
      - rewrite Hgw, Hgh. exact Hrej. }
    split.
    + unfold ImplicitStartRun.stepDue. intros Hdue.
      apply andb_true_iff in Hdue as [Hnl Hzero].
      rewrite ImplicitStart_Tick_unfold.
      destruct (Status_eqb (status ge) StatusLost) eqn:Hlost; [discriminate|].
      rewrite Hzero. cbv zeta.
      assert (Hge : status ge <> StatusLost).
      { intros Heq. rewrite Heq in Hlost. discriminate. }
      destruct (Status_eqb (status ge) StatusNew).
      * apply Hstep; [exact Hge | discriminate].
      * apply (Hstep (status ge)); exact Hge.
    + unfold ExplicitStartRun.stepDue. intros Hdue.
      apply andb_true_iff in Hdue as [Hplay Hzero].
      rewrite ExplicitStart_Tick_unfold, Hplay, Hzero. simpl negb. cbv iota.
      apply Status_eqb_eq in Hplay.
      apply (Hstep (status ge)); rewrite Hplay; discriminate.
Qed.

(** Both halves at work.  On the 20 x 20 board, after 99 calls, the call
    that eats returns when the first candidate is (3, 3).  On the 8 x 1
    board, after 33 calls, the call that eats does not return, whatever the
    source: every candidate is in the row of the food. *)
Lemma tick_returns_witness :
  let s99 := {| status := StatusPlaying; playAreaWidth := 20; playAreaHeight := 20;
                score := 0; speed := 1; tickThrottleCount := 0;
                foodLocation := mkPoint 15 10;
                snakeBody := [mkPoint 14 10; mkPoint 13 10];
                snakeDirection := DirectionRight;
                snakeDirectionLastMoved := DirectionRight;
                snakeShouldElongate := false |} in
  let s33 := {| status := StatusPlaying; playAreaWidth := 8; playAreaHeight := 1;
                score := 0; speed := 1; tickThrottleCount := 0;
                foodLocation := mkPoint 6 0;
                snakeBody := [mkPoint 5 0; mkPoint 4 0];
                snakeDirection := DirectionRight;
                snakeDirectionLastMoved := DirectionRight;
                snakeShouldElongate := false |} in
  (0 < 20 <= maxInt /\ ImplicitStartRun.reachable 20 20 s99 /\
   (exists ge' rng' st,
      ImplicitStart.Tick 1 (scripted [3; 3]) s99 = Ok (ge', rng', st)) /\
   (exists ge' rng' st,
      ExplicitStart.Tick 1 (scripted [3; 3]) s99 = Ok (ge', rng', st))) /\
  (0 < 8 <= maxInt /\ 0 < 1 <= maxInt /\ ImplicitStartRun.reachable 8 1 s33 /\
   forall (rng : Rand) (fuel : nat),
     ImplicitStart.Tick fuel rng s33 = OutOfFuel /\
     ExplicitStart.Tick fuel rng s33 = OutOfFuel).
Proof.
  cbv zeta.
  assert (H20 : 0 < 20 <= maxInt) by (unfold maxInt; lia).
  assert (H8 : 0 < 8 <= maxInt) by (unfold maxInt; lia).
  assert (H1 : 0 < 1 <= maxInt) by (unfold maxInt; lia).
  assert (R99 : ImplicitStartRun.reachable 20 20 {| status := StatusPlaying; playAreaWidth := 20; playAreaHeight := 20;
                  score := 0; speed := 1; tickThrottleCount := 0;
                  foodLocation := mkPoint 15 10;
                  snakeBody := [mkPoint 14 10; mkPoint 13 10];
                  snakeDirection := DirectionRight;
                  snakeDirectionLastMoved := DirectionRight;
                  snakeShouldElongate := false |}).
  { apply (ImplicitStart_run_reachable 20 20 (ticks 99) 0 (scripted [])
             (NewGameEngine 20 20) 0 _ (scripted []) 9%nat).
    - apply ImplicitStartRun.reach_NewGameEngine.
    - vm_compute. reflexivity. }
  assert (R33 : ImplicitStartRun.reachable 8 1 {| status := StatusPlaying; playAreaWidth := 8; playAreaHeight := 1;
                  score := 0; speed := 1; tickThrottleCount := 0;
                  foodLocation := mkPoint 6 0;
                  snakeBody := [mkPoint 5 0; mkPoint 4 0];
                  snakeDirection := DirectionRight;
                  snakeDirectionLastMoved := DirectionRight;
                  snakeShouldElongate := false |}).
  { apply (ImplicitStart_run_reachable 8 1 (ticks 33) 0 (scripted [])
             (NewGameEngine 8 1) 0 _ (scripted []) 3%nat).
    - apply ImplicitStartRun.reach_NewGameEngine.
    - vm_compute. reflexivity. }
  split.
  - split; [exact H20|]. split; [exact R99|].
    destruct (tick_returns 20 20 _ H20 H20 (or_introl R99)) as [Hret _].
    apply (Hret 1%nat 0%nat (scripted [3; 3])); [lia|].
    intros head Hhd. cbn [hd_error snakeBody] in Hhd. injection Hhd as <-.
    vm_compute.
    split; [discriminate|]. split; [discriminate|].
    intros [H | [H | [H | []]]]; discriminate H.
  - split; [exact H8|]. split; [exact H1|]. split; [exact R33|].
    intros rng fuel.
    destruct (tick_returns 8 1 _ H8 H1 (or_introl R33)) as [_ Hloop].
    specialize (Hloop rng (mkPoint 5 0) [mkPoint 4 0] eq_refl eq_refl eq_refl).
    assert (Hrej : forall j : nat,
              rng (2 * j)%nat mod 8 = 6 \/ rng (2 * j + 1)%nat mod 1 = 0 \/
              In (mkPoint (rng (2 * j)%nat mod 8) (rng (2 * j + 1)%nat mod 1))
                 [mkPoint 6 0; mkPoint 5 0]).
    { intros j. right. left. apply Z.mod_1_r. }
    destruct (Hloop Hrej fuel) as [HI HE].
    split; [apply HI | apply HE]; reflexivity.
Defined.

(** * Further properties of the engine *)

(** ** The body has no duplicate cell *)

Lemma usub_1_neq q : usub q 1 <> q.
Proof.
  unfold usub, wrapUint, uintModulus. intros Heq.
  pose proof (Z.mod_pos_bound (q - 1) 18446744073709551616 ltac:(lia)) as Hb.
  rewrite Heq in Hb.
  destruct (Z.eq_dec q 0) as [-> | Hnz]; [vm_compute in Heq; discriminate|].
  rewrite Z.mod_small in Heq by lia. lia.
Qed.

Lemma NoDup_removelast (A : Type) (l : list A) : NoDup l -> NoDup (removelast l).
Proof.
  induction l as [|a l IH]; intros Hnd; [exact Hnd|].
  destruct l as [|b l]; [constructor|].
  change (removelast (a :: b :: l)) with (a :: removelast (b :: l)).
  inversion Hnd as [|? ? Hnot Hrest]; subst. constructor.
  - intros Hin. apply Hnot. apply In_removelast. exact Hin.
  - apply IH. exact Hrest.
Qed.

Lemma afterMove_NoDup ge next :
  ~ In next (snakeBody ge) -> NoDup (snakeBody ge) ->
  NoDup (snakeBody (afterMove ge next)).
Proof.
  intros Hnot Hnd. unfold afterMove.
  cbn [snakeBody set_snakeShouldElongate set_snakeBody].
  assert (Hcons : NoDup (next :: snakeBody ge)) by (constructor; assumption).
  destruct (snakeShouldElongate ge); [exact Hcons|].
  apply NoDup_removelast. exact Hcons.
Qed.

Lemma simulationStep_NoDup fuel rng ge ge' rng' st :
  simulationStep fuel rng ge = Ok (ge', rng', st) ->
  NoDup (snakeBody ge) -> NoDup (snakeBody ge').
Proof.
  intros Hstep Hnd.
  apply simulationStep_inv in Hstep as (head & tail & Hbody & Hcases).
  cbv zeta in Hcases.
  destruct Hcases as [(_ & -> & _ & _) | [(Hloss & _ & -> & _ & _) |
                      (Hloss & _ & p & _ & -> & _)]].
  - exact Hnd.
  - apply wouldMoveCauseLoss_false in Hloss as (_ & _ & _ & Hnot).
    apply afterMove_NoDup; assumption.
  - apply wouldMoveCauseLoss_false in Hloss as (_ & _ & _ & Hnot).
    destruct (afterScore_frame (afterMove ge (nextHead (snakeDirection ge) head)))
      as (_ & _ & _ & _ & _ & Hb & _).
    unfold set_snakeShouldElongate, set_foodLocation. cbn [snakeBody].
    rewrite Hb. apply afterMove_NoDup; assumption.
Qed.

(** X1. In every state reachable in either revision, whatever the
    dimensions, no cell occurs twice in the body of the snake. *)
Theorem body_has_no_duplicates (w h : Z) (ge : GameEngine)
  (Hreach : ImplicitStartRun.reachable w h ge \/ ExplicitStartRun.reachable w h ge) :
  NoDup (snakeBody ge).
Proof.
  revert ge Hreach.
  assert (Hnew : forall g, NoDup (snakeBody (NewGame g))).
  { intros g. cbn [snakeBody NewGame]. constructor.
    - intros [Heq | []]. apply (f_equal X) in Heq. cbn [X] in Heq.
      exact (usub_1_neq _ Heq).
    - constructor; [intros [] | constructor]. }
  apply (reachable_invariant w h (fun ge => NoDup (snakeBody ge))).
  - apply Hnew.
  - intros g _. apply Hnew.
  - intros g _. apply (Hnew g).
  - intros dir g Hnd.
    destruct (UpdateDirection_frame dir g) as (_ & _ & _ & _ & _ & _ & _ & Hb & _).
    rewrite Hb. exact Hnd.
  - intros due fuel rng g g' rng' st Hcases Hnd.
    destruct Hcases as [(_ & -> & _) | [(_ & _ & -> & _) | (_ & _ & s0 & Hstep)]].
    + exact Hnd.
    + exact Hnd.
    + apply (simulationStep_NoDup _ _ _ _ _ _ Hstep). exact Hnd.
Qed.

Lemma body_has_no_duplicates_witness :
  NoDup (snakeBody
           {| status := StatusPlaying; playAreaWidth := 20; playAreaHeight := 20;
              score := 1; speed := 1; tickThrottleCount := 10;
              foodLocation := mkPoint 3 3;
              snakeBody := [mkPoint 15 10; mkPoint 14 10];
              snakeDirection := DirectionRight;
              snakeDirectionLastMoved := DirectionRight;
              snakeShouldElongate := true |}).
Proof.
  apply (body_has_no_duplicates 20 20). left.
  apply (ImplicitStart_run_reachable 20 20 (ticks 100) 1 (scripted [3; 3])
           (NewGameEngine 20 20) 0 _ (fun k => scripted [3; 3] (S (S k))) 10%nat).
  - apply ImplicitStartRun.reach_NewGameEngine.
  - vm_compute. reflexivity.
Defined.

(** ** Directions *)

Lemma simulationStep_directions fuel rng ge ge' rng' st :
  simulationStep fuel rng ge = Ok (ge', rng', st) ->
  snakeDirection ge' = snakeDirection ge /\
  (snakeDirectionLastMoved ge' = snakeDirectionLastMoved ge \/
   snakeDirectionLastMoved ge' = snakeDirection ge).
Proof.
  intros Hstep.
  apply simulationStep_inv in Hstep as (head & tail & Hbody & Hcases).
  cbv zeta in Hcases.
  destruct Hcases as [(_ & -> & _ & _) | [(_ & _ & -> & _ & _) |
                      (_ & _ & p & _ & -> & _)]].
  - split; [reflexivity | left; reflexivity].
  - split; [reflexivity | right; reflexivity].
  - unfold afterScore, set_snakeShouldElongate, set_foodLocation. cbv zeta.
    destruct (irem _ 5 =? 0); (split; [reflexivity | right; reflexivity]).
Qed.

(** X2. In every reachable state the pending direction is not the reverse
    of the direction of the last executed step: it is that direction or
    one at a right angle to it. *)
Theorem pending_direction_never_reverses (w h : Z) (ge : GameEngine)
  (Hreach : ImplicitStartRun.reachable w h ge \/ ExplicitStartRun.reachable w h ge) :
  isOpposite (snakeDirection ge) (snakeDirectionLastMoved ge) = false /\
  snakeDirection ge <> opposite (snakeDirectionLastMoved ge).
Proof.
  assert (H : isOpposite (snakeDirection ge) (snakeDirectionLastMoved ge) = false).
  { revert ge Hreach.
    apply (reachable_invariant w h
             (fun ge => isOpposite (snakeDirection ge)
                          (snakeDirectionLastMoved ge) = false)).
    - reflexivity.
    - intros g _. reflexivity.
    - intros g _. reflexivity.
    - intros dir g Hinv. unfold UpdateDirection.
      destruct (_ || _) eqn:Hrej; [exact Hinv|].
      cbn [snakeDirection snakeDirectionLastMoved set_snakeDirection].
      apply orb_false_iff in Hrej as [_ Hrej].
      destruct (snakeDirectionLastMoved g), dir; try reflexivity; discriminate.
    - intros due fuel rng g g' rng' st Hcases Hinv.
      destruct Hcases as [(_ & -> & _) | [(_ & _ & -> & _) | (_ & _ & s0 & Hstep)]].
      + exact Hinv.
      + exact Hinv.
      + apply simulationStep_directions in Hstep as [Hp Hl].
        cbn [snakeDirection snakeDirectionLastMoved set_status
             set_tickThrottleCount] in Hp, Hl.
        rewrite Hp. destruct Hl as [-> | ->]; [exact Hinv|].
        destruct (snakeDirection g); reflexivity. }
  split; [exact H|].
  intros Heq. rewrite Heq in H.
  destruct (snakeDirectionLastMoved ge); discriminate.
Qed.

Lemma pending_direction_never_reverses_witness :
  let ge := UpdateDirection DirectionDown
              (UpdateDirection DirectionUp (NewGameEngine 20 20)) in
  isOpposite (snakeDirection ge) (snakeDirectionLastMoved ge) = false /\
  snakeDirection ge <> opposite (snakeDirectionLastMoved ge).
Proof.
  apply (pending_direction_never_reverses 20 20). left.
  do 2 apply ImplicitStartRun.reach_UpdateDirection.
  apply ImplicitStartRun.reach_NewGameEngine.
Defined.

Lemma accepted_direction_blocks ge d1 d2 :
  rejectsDirection ge d1 = false ->
  rejectsDirection (set_snakeDirection d1 ge) d2 = true.
Proof.
  unfold rejectsDirection.
  cbn [snakeDirection snakeDirectionLastMoved set_snakeDirection].
  destruct (snakeDirection ge), (snakeDirectionLastMoved ge), d1, d2;
    simpl; intros H; try reflexivity; discriminate.
Qed.

Lemma only_first_accepted_named (dirs : list Direction) (ge : GameEngine) :
  UpdateDirections dirs ge =
  match find (fun dir => negb (rejectsDirection ge dir)) dirs with
  | Some dir => set_snakeDirection dir ge
  | None => ge
  end.
Proof.
  unfold UpdateDirections. revert ge.
  induction dirs as [|d dirs IH]; intros ge; [reflexivity|].
  cbn [fold_left find].
  destruct (rejectsDirection ge d) eqn:Hrej; cbn [negb].
  - rewrite (UpdateDirection_rejected _ _ Hrej). apply IH.
  - rewrite (UpdateDirection_accepted _ _ Hrej). rewrite IH.
    assert (Hnone : find (fun dir => negb (rejectsDirection (set_snakeDirection d ge) dir))
                      dirs = None).
    { clear IH. induction dirs as [|e dirs IHd]; [reflexivity|].
      cbn [find]. rewrite (accepted_direction_blocks ge d e Hrej). exact IHd. }
    rewrite Hnone. reflexivity.
Qed.

Lemma Uint8Direction_named v :
  Uint8Direction.named v = true -> v = 0 \/ v = 1 \/ v = 2 \/ v = 3.
Proof. unfold Uint8Direction.named. lia. Qed.

Lemma Uint8Direction_code_eqb a b :
  (Uint8Direction.code a =? Uint8Direction.code b) = Direction_eqb a b.
Proof. destruct a, b; reflexivity. Qed.

Lemma Uint8Direction_isOpposite_code a b :
  Uint8Direction.isOpposite (Uint8Direction.code a) (Uint8Direction.code b)
  = isOpposite a b.
Proof. destruct a, b; reflexivity. Qed.

(** On the named constants the raw [UpdateDirection] is the one of the
    engine. *)
Lemma Uint8Direction_refines dir ge :
  directionFields (UpdateDirection dir ge)
  = Uint8Direction.UpdateDirection (Uint8Direction.code dir) (directionFields ge).
Proof.
  unfold UpdateDirection, Uint8Direction.UpdateDirection, directionFields.
  cbn [Uint8Direction.pending Uint8Direction.lastMoved].
  rewrite !Uint8Direction_code_eqb, !Uint8Direction_isOpposite_code.
  destruct (_ || _); reflexivity.
Qed.

Lemma Uint8Direction_accepted_blocks ge d1 d2 :
  Uint8Direction.named (Uint8Direction.lastMoved ge) = true ->
  Uint8Direction.named d1 = true ->
  Uint8Direction.named d2 = true ->
  Uint8Direction.rejects ge d1 = false ->
  Uint8Direction.rejects
    (Uint8Direction.mkDirections d1 (Uint8Direction.lastMoved ge)) d2 = true.
Proof.
  destruct ge as [p l]. cbn [Uint8Direction.lastMoved].
  intros Hl H1 H2 Hrej.
  unfold Uint8Direction.rejects in Hrej.
  cbn [Uint8Direction.pending Uint8Direction.lastMoved] in Hrej.
  apply orb_false_iff in Hrej as [Hrej Hopp].
  apply orb_false_iff in Hrej as [_ Hsame].
  apply Uint8Direction_named in Hl, H1, H2.
  destruct Hl as [-> | [-> | [-> | ->]]];
    destruct H1 as [-> | [-> | [-> | ->]]];
    try (cbn in Hsame; discriminate Hsame);
    try (cbn in Hopp; discriminate Hopp);
    destruct H2 as [-> | [-> | [-> | ->]]]; reflexivity.
Qed.

(** X3. [UpdateDirection] on the raw [uint8] values of [Direction].  When
    the direction of the last move is one of the four named constants and
    every request of a row of calls (no step in between) is one of them,
    only the first request that the guard accepts has an effect: once it is
    pending, every further named request is discarded, whatever value was
    pending before.  On the named constants the raw function is the one of
    the engine, so the same holds of the engine for every list of named
    requests and every state.  The restriction to the named constants is
    needed: a value outside them that differs from both fields is always
    accepted, so that on a fresh engine the requests 9 and then
    [DirectionUp] are both accepted. *)
Theorem only_first_accepted_direction_counts
  (dirs : list Z) (ge : Uint8Direction.Directions)
  (Hdirs : forallb Uint8Direction.named dirs = true)
  (Hlast : Uint8Direction.named (Uint8Direction.lastMoved ge) = true) :
  Uint8Direction.UpdateDirections dirs ge =
    match find (fun dir => negb (Uint8Direction.rejects ge dir)) dirs with
    | Some dir => Uint8Direction.mkDirections dir (Uint8Direction.lastMoved ge)
    | None => ge
    end /\
  (forall (ds : list Direction) (g : GameEngine),
     directionFields (UpdateDirections ds g)
       = Uint8Direction.UpdateDirections (map Uint8Direction.code ds)
           (directionFields g) /\
     UpdateDirections ds g =
       match find (fun dir => negb (rejectsDirection g dir)) ds with
       | Some dir => set_snakeDirection dir g
       | None => g
       end) /\
  (forall v : Z,
     Uint8Direction.isUint8 v ->
     Uint8Direction.named v = false ->
     v <> Uint8Direction.pending ge -> v <> Uint8Direction.lastMoved ge ->
     Uint8Direction.UpdateDirection v ge
       = Uint8Direction.mkDirections v (Uint8Direction.lastMoved ge)) /\
  (forall w h : Z,
     Uint8Direction.UpdateDirection 9 (directionFields (NewGameEngine w h))
       = Uint8Direction.mkDirections 9 (Uint8Direction.code DirectionRight) /\
     Uint8Direction.UpdateDirections [9; Uint8Direction.code DirectionUp]
       (directionFields (NewGameEngine w h))
       = Uint8Direction.mkDirections (Uint8Direction.code DirectionUp)
           (Uint8Direction.code DirectionRight)).
Proof.
  split; [|split; [|split]].
  - assert (Hgen : forall dirs ge,
              forallb Uint8Direction.named dirs = true ->
              Uint8Direction.named (Uint8Direction.lastMoved ge) = true ->
              Uint8Direction.UpdateDirections dirs ge =
              match find (fun dir => negb (Uint8Direction.rejects ge dir)) dirs with
              | Some dir => Uint8Direction.mkDirections dir (Uint8Direction.lastMoved ge)
              | None => ge
              end).
    { clear. unfold Uint8Direction.UpdateDirections.
      induction dirs as [|d dirs IH]; intros ge Hdirs Hlast; [reflexivity|].
      cbn [forallb] in Hdirs. apply andb_true_iff in Hdirs as [Hd Hdirs].
      cbn [fold_left find].
      destruct (Uint8Direction.rejects ge d) eqn:Hrej; cbn [negb].
      - replace (Uint8Direction.UpdateDirection d ge) with ge
          by (unfold Uint8Direction.UpdateDirection;
              unfold Uint8Direction.rejects in Hrej; rewrite Hrej; reflexivity).
        apply IH; assumption.
      - replace (Uint8Direction.UpdateDirection d ge)
          with (Uint8Direction.mkDirections d (Uint8Direction.lastMoved ge))
          by (unfold Uint8Direction.UpdateDirection;
              unfold Uint8Direction.rejects in Hrej; rewrite Hrej; reflexivity).
        rewrite IH by assumption.
        cbn [Uint8Direction.lastMoved].
        assert (Hnone : find (fun dir => negb (Uint8Direction.rejects
                           (Uint8Direction.mkDirections d (Uint8Direction.lastMoved ge))
                           dir)) dirs = None).
        { clear IH. induction dirs as [|e dirs IHd]; [reflexivity|].
          cbn [forallb] in Hdirs. apply andb_true_iff in Hdirs as [He Hdirs].
          cbn [find].
          rewrite (Uint8Direction_accepted_blocks ge d e Hlast Hd He Hrej).
          exact (IHd Hdirs). }
        rewrite Hnone. reflexivity. }
    apply Hgen; assumption.
  - intros ds g. split; [|apply only_first_accepted_named].
    unfold UpdateDirections, Uint8Direction.UpdateDirections. revert g.
    induction ds as [|d ds IH]; intros g; [reflexivity|].
    cbn [map fold_left]. rewrite IH, Uint8Direction_refines. reflexivity.
  - intros v Hv Hn Hp Hl.
    unfold Uint8Direction.UpdateDirection.
    assert (Hopp : forall d, Uint8Direction.isOpposite d v = false).
    { intros d. unfold Uint8Direction.isOpposite, Uint8Direction.named in *.
      cbn [Uint8Direction.code]. lia. }
    rewrite !Hopp.
    replace (Uint8Direction.pending ge =? v) with false by lia.
    replace (Uint8Direction.lastMoved ge =? v) with false by lia.
    reflexivity.
  - intros w h. split; reflexivity.
Qed.

Lemma only_first_accepted_direction_counts_witness :
  let dirs := [3; 0; 1; 2] in
  let ge := Uint8Direction.mkDirections 3 3 in
  Uint8Direction.UpdateDirections dirs ge = Uint8Direction.mkDirections 0 3 /\
  Uint8Direction.UpdateDirection 9 ge = Uint8Direction.mkDirections 9 3.
Proof.
  cbv zeta.
  destruct (only_first_accepted_direction_counts [3; 0; 1; 2]
              (Uint8Direction.mkDirections 3 3) eq_refl eq_refl)
    as (Hfirst & _ & Hother & _).
  split.
  - rewrite Hfirst. reflexivity.
  - apply Hother.
    + unfold Uint8Direction.isUint8. lia.
    + reflexivity.
    + cbn. lia.
    + cbn. lia.
Defined.

(** ** Score and speed *)

Lemma div5_succ s :
  0 <= s ->
  ((s + 1) mod 5 = 0 -> (s + 1) / 5 = s / 5 + 1) /\
  ((s + 1) mod 5 <> 0 -> (s + 1) / 5 = s / 5).
Proof.
  intros Hs.
  pose proof (Z.div_mod s 5 ltac:(lia)) as H1.
  pose proof (Z.mod_pos_bound s 5 ltac:(lia)) as H2.
  pose proof (Z.div_mod (s + 1) 5 ltac:(lia)) as H3.
  pose proof (Z.mod_pos_bound (s + 1) 5 ltac:(lia)) as H4.
  split; intros H5; lia.
Qed.

Lemma simulationStep_speedTracksScore fuel rng ge ge' rng' st :
  simulationStep fuel rng ge = Ok (ge', rng', st) ->
  lengthTracksScore ge -> (2 <= length (snakeBody ge))%nat ->
  Z.of_nat (length (snakeBody ge')) <= maxInt ->
  speed ge = 1 + score ge / 5 ->
  speed ge' = 1 + score ge' / 5.
Proof.
  intros Hstep Hinv Htwo Hmax Hspeed.
  apply simulationStep_inv in Hstep as (head & tail & Hbody & Hcases).
  cbv zeta in Hcases. unfold lengthTracksScore in Hinv.
  destruct Hcases as [(_ & -> & _ & _) | [(_ & _ & -> & _ & _) |
                      (_ & _ & p & _ & -> & _)]].
  - exact Hspeed.
  - exact Hspeed.
  - set (gm := afterMove ge (nextHead (snakeDirection ge) head)) in *.
    assert (Hlen : Z.of_nat (length (snakeBody gm)) = score ge + 2).
    { unfold gm. rewrite afterMove_length.
      destruct (snakeShouldElongate ge); lia. }
    assert (Hnonneg : 0 <= score ge) by (destruct (snakeShouldElongate ge); lia).
    destruct (afterScore_frame gm) as (_ & _ & _ & _ & _ & Hb & _).
    unfold set_snakeShouldElongate, set_foodLocation in Hmax |- *.
    cbn [snakeBody speed score] in Hmax |- *.
    rewrite Hb in Hmax.
    assert (Hsc : iadd (score ge) 1 = score ge + 1).
    { unfold iadd. apply wrapInt_small. unfold maxInt in *. lia. }
    unfold afterScore. cbv zeta.
    change (score (set_score (iadd (score gm) 1) gm)) with (iadd (score ge) 1).
    change (speed (set_score (iadd (score gm) 1) gm)) with (speed ge).
    rewrite Hsc. unfold irem. rewrite Z.rem_mod_nonneg by lia.
    destruct (div5_succ (score ge) Hnonneg) as [Hzero Hnz].
    destruct ((score ge + 1) mod 5 =? 0) eqn:Hrem.
    + apply Z.eqb_eq in Hrem. cbn [speed score set_speed set_score].
      change (iadd (score gm) 1) with (iadd (score ge) 1). rewrite Hsc.
      rewrite (Hzero Hrem), Hspeed.
      unfold uadd. rewrite wrapUint_small; [lia|].
      assert (0 <= score ge / 5) by (apply Z.div_pos; lia).
      assert (score ge / 5 <= score ge) by (apply Z.div_le_upper_bound; lia).
      unfold isUint, uintModulus, maxInt in *. lia.
    + apply Z.eqb_neq in Hrem. cbn [speed score set_speed set_score].
      change (iadd (score gm) 1) with (iadd (score ge) 1). rewrite Hsc.
      rewrite (Hnz Hrem). exact Hspeed.
Qed.

(** X4. In every reachable state the score is not negative and the speed
    is [1 + score / 5]: one more for every five points.  (As for the length
    of the body, the bound of a Go slice is stated.) *)
Theorem speed_follows_score (w h : Z) (ge : GameEngine)
  (Hreach : ImplicitStartRun.reachable w h ge \/ ExplicitStartRun.reachable w h ge)
  (Hlen : Z.of_nat (length (snakeBody ge)) <= maxInt) :
  0 <= score ge /\ speed ge = 1 + score ge / 5.
Proof.
  assert (H : lengthTracksScore ge /\ (2 <= length (snakeBody ge))%nat /\
              speed ge = 1 + score ge / 5).
  { revert ge Hreach Hlen.
    apply (reachable_invariant w h
             (fun ge => Z.of_nat (length (snakeBody ge)) <= maxInt ->
                        lengthTracksScore ge /\ (2 <= length (snakeBody ge))%nat /\
                        speed ge = 1 + score ge / 5)).
    - intros _. repeat split. simpl. lia.
    - intros g _ _. repeat split. simpl. lia.
    - intros g _ _. repeat split. simpl. lia.
    - intros dir g IH.
      destruct (UpdateDirection_frame dir g)
        as (_ & _ & _ & Hs & Hv & _ & _ & Hb & He).
      unfold lengthTracksScore. rewrite Hs, Hv, Hb, He. exact IH.
    - intros due fuel rng g g' rng' st Hcases IH Hmax.
      pose proof (tickCases_length _ _ _ _ _ _ _ Hcases) as Hl.
      destruct IH as (Hinv & Htwo & Hspeed); [lia|].
      split; [|split].
      + apply (tickCases_lengthTracksScore _ _ _ _ _ _ _ Hcases); [|exact Hmax].
        intros _. exact Hinv.
      + lia.
      + destruct Hcases as [(_ & -> & _) | [(_ & _ & -> & _) | (_ & _ & s0 & Hstep)]].
        * exact Hspeed.
        * exact Hspeed.
        * apply (simulationStep_speedTracksScore _ _ _ _ _ _ Hstep); assumption. }
  destruct H as (Hinv & Htwo & Hspeed). split; [|exact Hspeed].
  unfold lengthTracksScore in Hinv. destruct (snakeShouldElongate ge); lia.
Qed.

Lemma speed_follows_score_witness :
  let ge := {| status := StatusPlaying; playAreaWidth := 20; playAreaHeight := 20;
               score := 5; speed := 2; tickThrottleCount := 10;
               foodLocation := mkPoint 0 0;
               snakeBody := [mkPoint 19 14; mkPoint 19 13; mkPoint 18 13;
                             mkPoint 18 12; mkPoint 17 12; mkPoint 17 11];
               snakeDirection := DirectionDown;
               snakeDirectionLastMoved := DirectionDown;
               snakeShouldElongate := true |} in
  0 <= score ge /\ speed ge = 1 + score ge / 5.
Proof.
  apply (speed_follows_score 20 20).
  - left.
    eapply (ImplicitStart_run_reachable 20 20 staircase 1 (scripted staircaseFood)
              (NewGameEngine 20 20) 0).
    + apply ImplicitStartRun.reach_NewGameEngine.
    + vm_compute. reflexivity.
  - vm_compute. discriminate.
Defined.

(** ** What a call to [Tick] changes *)

(** X5. A returning call to [Tick] either leaves score, speed, food and
    random source as they were, or it executed a step that did not lose and
    whose new head is the cell of the food: then the score is one higher,
    the speed is one higher exactly when the new score is a multiple of 5,
    [snakeShouldElongate] is set, and the food is in another column and
    another row than before and on no cell of the snake. *)
Theorem food_eaten_law (fuel : nat) (rng : Rand) (ge ge' : GameEngine)
  (rng' : Rand) (st : Status) (due : bool)
  (Htick :
     (ImplicitStart.Tick fuel rng ge = Ok (ge', rng', st) /\
      due = ImplicitStartRun.stepDue ge) \/
     (ExplicitStart.Tick fuel rng ge = Ok (ge', rng', st) /\
      due = ExplicitStartRun.stepDue ge)) :
  (score ge' = score ge /\ speed ge' = speed ge /\
   foodLocation ge' = foodLocation ge /\ rng' = rng) \/
  (due = true /\ st <> StatusLost /\
   hd_error (snakeBody ge') = Some (foodLocation ge) /\
   score ge' = iadd (score ge) 1 /\
   speed ge' = (if irem (score ge') 5 =? 0 then uadd (speed ge) 1 else speed ge) /\
   snakeShouldElongate ge' = true /\
   X (foodLocation ge') <> X (foodLocation ge) /\
   Y (foodLocation ge') <> Y (foodLocation ge) /\
   ~ In (foodLocation ge') (snakeBody ge')).
Proof.
  assert (Hcases : tickCases due fuel rng ge ge' rng' st).
  { destruct Htick as [[Ht ->] | [Ht ->]].
    - apply ImplicitStart_Tick_cases; exact Ht.
    - apply ExplicitStart_Tick_cases; exact Ht. }
  destruct Hcases as [(_ & -> & -> & _) | [(_ & _ & -> & -> & _) |
                      (Hdue & _ & s0 & Hstep)]].
  - left. repeat split.
  - left. repeat split.
  - apply simulationStep_inv in Hstep as (head & tail & Hbody & Hcases).
    cbv zeta in Hcases.
    cbn [snakeDirection foodLocation snakeBody set_status set_tickThrottleCount]
      in Hbody, Hcases.
    set (g1 := set_status s0
                 (set_tickThrottleCount (usub 10 (usub (speed ge) 1)) ge)) in *.
    set (next := nextHead (snakeDirection ge) head) in *.
    destruct Hcases as [(_ & -> & -> & _) | [(_ & _ & -> & -> & _) |
                        (Hloss & Hfood & p & Hloop & -> & ->)]].
    + left. repeat split.
    + left. repeat split.
    + right.
      apply wouldMoveCauseLoss_false in Hloss as (Hst & _).
      apply Point_eqb_eq in Hfood.
      apply placeFoodLoop_spec in Hloop as (_ & _ & Hpx & Hpy & Hpoff).
      destruct (afterScore_frame (afterMove g1 next))
        as (_ & _ & _ & _ & Hsf & Hsb & _ & Hsc).
      rewrite Hsf in Hpx, Hpy. rewrite Hsb in Hpoff.
      unfold set_snakeShouldElongate, set_foodLocation.
      cbn [snakeBody score speed foodLocation snakeShouldElongate].
      rewrite Hsb, Hsc.
      split; [exact Hdue|]. split; [exact Hst|].
      split; [rewrite <- Hfood; apply (afterMove_head g1 next head tail Hbody)|].
      split; [reflexivity|].
      split; [unfold afterScore; cbv zeta; destruct (irem _ 5 =? 0); reflexivity|].
      split; [reflexivity|].
      split; [exact Hpx|]. split; [exact Hpy | exact Hpoff].
Qed.

Lemma food_eaten_law_witness :
  let s99 := {| status := StatusPlaying; playAreaWidth := 20; playAreaHeight := 20;
                score := 0; speed := 1; tickThrottleCount := 0;
                foodLocation := mkPoint 15 10;
                snakeBody := [mkPoint 14 10; mkPoint 13 10];
                snakeDirection := DirectionRight;
                snakeDirectionLastMoved := DirectionRight;
                snakeShouldElongate := false |} in
  let s100 := {| status := StatusPlaying; playAreaWidth := 20; playAreaHeight := 20;
                 score := 1; speed := 1; tickThrottleCount := 10;
                 foodLocation := mkPoint 3 3;
                 snakeBody := [mkPoint 15 10; mkPoint 14 10];
                 snakeDirection := DirectionRight;
                 snakeDirectionLastMoved := DirectionRight;
                 snakeShouldElongate := true |} in
  let rng := scripted [3; 3] in
  let rng' := fun k => scripted [3; 3] (S (S k)) in
  (score s100 = score s99 /\ speed s100 = speed s99 /\
   foodLocation s100 = foodLocation s99 /\ rng' = rng) \/
  (true = true /\ StatusPlaying <> StatusLost /\
   hd_error (snakeBody s100) = Some (foodLocation s99) /\
   score s100 = iadd (score s99) 1 /\
   speed s100 = (if irem (score s100) 5 =? 0 then uadd (speed s99) 1 else speed s99) /\
   snakeShouldElongate s100 = true /\
   X (foodLocation s100) <> X (foodLocation s99) /\
   Y (foodLocation s100) <> Y (foodLocation s99) /\
   ~ In (foodLocation s100) (snakeBody s100)).
Proof.
  cbv zeta.
  apply (food_eaten_law 1 (scripted [3; 3]) _ _ _ StatusPlaying true).
  left. split; reflexivity.
Defined.

(** X6. A call to [Tick] that turns a game that was not lost into a lost
    one changes nothing but the status and the throttle counter: body,
    food, score, speed, directions and random source are as before. *)
Theorem losing_tick_changes_only_status (fuel : nat) (rng : Rand)
  (ge ge' : GameEngine) (rng' : Rand)
  (Hstatus : status ge <> StatusLost)
  (Htick : ImplicitStart.Tick fuel rng ge = Ok (ge', rng', StatusLost) \/
           ExplicitStart.Tick fuel rng ge = Ok (ge', rng', StatusLost)) :
  tickThrottleCount ge = 0 /\
  ge' = set_status StatusLost
          (set_tickThrottleCount (usub 10 (usub (speed ge) 1)) ge) /\
  rng' = rng.
Proof.
  assert (Hcases : exists due, tickCases due fuel rng ge ge' rng' StatusLost).
  { destruct Htick as [Ht | Ht].
    - eexists. apply ImplicitStart_Tick_cases; exact Ht.
    - eexists. apply ExplicitStart_Tick_cases; exact Ht. }
  destruct Hcases as (due & [(_ & _ & _ & Hst) | [(_ & _ & _ & _ & Hst) |
                             (_ & Hzero & s0 & Hstep)]]).
  - contradiction Hstatus. symmetry. exact Hst.
  - contradiction Hstatus. symmetry. exact Hst.
  - split; [exact Hzero|].
    apply simulationStep_inv in Hstep as (head & tail & Hbody & Hcases).
    cbv zeta in Hcases.
    destruct Hcases as [(_ & -> & -> & _) | [(Hloss & _ & _ & _ & Hst) |
                        (Hloss & _ & p & _ & _ & Hst)]].
    + split; reflexivity.
    + apply wouldMoveCauseLoss_false in Hloss as (Hnl & _).
      contradiction Hnl. symmetry. exact Hst.
    + apply wouldMoveCauseLoss_false in Hloss as (Hnl & _).
      contradiction Hnl. symmetry. exact Hst.
Qed.

Lemma losing_tick_changes_only_status_witness :
  let ge := NewGameEngine 1 1 in
  tickThrottleCount ge = 0 /\
  set_status StatusLost (set_tickThrottleCount 10 ge) =
    set_status StatusLost
      (set_tickThrottleCount (usub 10 (usub (speed ge) 1)) ge) /\
  scripted [] = scripted [].
Proof.
  apply (losing_tick_changes_only_status 0 (scripted []) (NewGameEngine 1 1)).
  - discriminate.
  - left. reflexivity.
Defined.

(** X7. The status that [Tick] returns is the status it leaves.  A call
    that executes no step leaves the status as it was; a call that executes
    one leaves Playing or Lost.  So [Tick] never turns a status into New, and
    the only way out of Lost or (in the second revision) out of New is a
    reset. *)
Theorem tick_status_transitions (fuel : nat) (rng : Rand) (ge ge' : GameEngine)
  (rng' : Rand) (st : Status) (due : bool)
  (Htick :
     (ImplicitStart.Tick fuel rng ge = Ok (ge', rng', st) /\
      due = ImplicitStartRun.stepDue ge) \/
     (ExplicitStart.Tick fuel rng ge = Ok (ge', rng', st) /\
      due = ExplicitStartRun.stepDue ge)) :
  st = status ge' /\
  (due = false -> st = status ge) /\
  (due = true -> status ge <> StatusLost /\ (st = StatusPlaying \/ st = StatusLost)).
Proof.
  assert (Hstep : forall s0 t,
            s0 = StatusPlaying ->
            simulationStep fuel rng (set_status s0 (set_tickThrottleCount t ge))
              = Ok (ge', rng', st) ->
            st = status ge' /\ (st = StatusPlaying \/ st = StatusLost)).
  { intros s0 t -> H. apply simulationStep_frame in H as (_ & _ & _ & Hs & Hor).
    split; [symmetry; exact Hs|].
    destruct Hor as [-> | [-> _]]; [right | left]; reflexivity. }
  destruct Htick as [[Ht ->] | [Ht ->]].
  - rewrite ImplicitStart_Tick_unfold in Ht. unfold ImplicitStartRun.stepDue.
    destruct (Status_eqb (status ge) StatusLost) eqn:Hlost.
    + injection Ht as <- _ <-. repeat split; simpl; try intros Hd; try reflexivity; discriminate.
    + assert (Hnl : status ge <> StatusLost).
      { intros Heq. rewrite Heq in Hlost. discriminate. }
      destruct (tickThrottleCount ge =? 0).
      * cbv zeta in Ht.
        assert (Hs0 : exists s0, s0 = StatusPlaying /\
                  simulationStep fuel rng
                    (set_status s0
                       (set_tickThrottleCount (usub 10 (usub (speed ge) 1)) ge))
                  = Ok (ge', rng', st)).
        { destruct (status ge) eqn:Hs; simpl Status_eqb in Ht; cbv iota in Ht.
          - exists StatusPlaying. split; [reflexivity | exact Ht].
          - exists StatusPlaying. split; [reflexivity|]. rewrite <- Ht. f_equal.
            unfold set_status, set_tickThrottleCount. cbn. rewrite Hs. reflexivity.
          - contradiction Hnl; reflexivity. }
        destruct Hs0 as (s0 & Hs0 & Hrun).
        destruct (Hstep s0 _ Hs0 Hrun) as [Hst Hor].
        split; [exact Hst|]. split; [intros H; discriminate|].
        intros _. split; assumption.
      * injection Ht as <- _ <-. repeat split; simpl; try intros Hd; try reflexivity; discriminate.
  - rewrite ExplicitStart_Tick_unfold in Ht. unfold ExplicitStartRun.stepDue.
    destruct (Status_eqb (status ge) StatusPlaying) eqn:Hplay;
      simpl negb in Ht; cbv iota in Ht.
    + apply Status_eqb_eq in Hplay.
      destruct (tickThrottleCount ge =? 0).
      * assert (Hrun : simulationStep fuel rng
                  (set_status StatusPlaying
                     (set_tickThrottleCount (usub 10 (usub (speed ge) 1)) ge))
                = Ok (ge', rng', st)).
        { rewrite <- Ht. f_equal.
          unfold set_status, set_tickThrottleCount. cbn. rewrite Hplay. reflexivity. }
        destruct (Hstep _ _ eq_refl Hrun) as [Hst Hor].
        split; [exact Hst|]. split; [intros H; discriminate|].
        intros _. split; [rewrite Hplay; discriminate | exact Hor].
      * injection Ht as <- _ <-. repeat split; simpl; try intros Hd; try reflexivity; discriminate.
    + injection Ht as <- _ <-. repeat split; simpl; try intros Hd; try reflexivity; discriminate.
Qed.

Lemma tick_status_transitions_witness :
  let ge := NewGameEngine 20 20 in
  let ge' := set_snakeBody [mkPoint 6 10; mkPoint 5 10]
               (set_status StatusPlaying (set_tickThrottleCount 10 ge)) in
  StatusPlaying = status ge' /\
  (true = false -> StatusPlaying = status ge) /\
  (true = true ->
   status ge <> StatusLost /\
   (StatusPlaying = StatusPlaying \/ StatusPlaying = StatusLost)).
Proof.
  cbv zeta.
  apply (tick_status_transitions 0 (scripted []) (NewGameEngine 20 20) _
           (scripted []) StatusPlaying true).
  left. split; reflexivity.
Defined.

(** ** Collisions *)

Lemma wouldMoveCauseLoss_iff ge next :
  wouldMoveCauseLoss ge next = false <->
  status ge <> StatusLost /\
  0 <= X next <= usub (playAreaWidth ge) 1 /\
  0 <= Y next <= usub (playAreaHeight ge) 1 /\
  ~ In next (snakeBody ge).
Proof.
  unfold wouldMoveCauseLoss. split.
  - destruct (Status_eqb (status ge) StatusLost) eqn:Hst; [discriminate|].
    destruct (_ || _) eqn:Hbounds; [discriminate|].
    intros Hbody.
    apply orb_false_iff in Hbounds as [Hbounds Hy].
    apply orb_false_iff in Hbounds as [Hbounds Hx].
    apply orb_false_iff in Hbounds as [Hx0 Hy0].
    repeat split; try lia.
    + intros Heq. rewrite Heq in Hst. discriminate.
    + intros Hin.
      assert (Hex : existsb
                (fun point => (X next =? X point) && (Y next =? Y point))
                (snakeBody ge) = true).
      { apply existsb_exists. exists next. split; [exact Hin|].
        rewrite !Z.eqb_refl. reflexivity. }
      rewrite Hex in Hbody. discriminate.
  - intros (Hst & Hx & Hy & Hnot).
    destruct (Status_eqb (status ge) StatusLost) eqn:Hlost.
    { apply Status_eqb_eq in Hlost. contradiction. }
    assert (Hb : (X next <? 0) || (Y next <? 0) ||
                 (X next >? usub (playAreaWidth ge) 1) ||
                 (Y next >? usub (playAreaHeight ge) 1) = false).
    { repeat (apply orb_false_iff; split); lia. }
    rewrite Hb.
    destruct (existsb _ _) eqn:Hex; [|reflexivity].
    exfalso. apply Hnot.
    apply existsb_exists in Hex as (q & Hin & Heq).
    apply andb_true_iff in Heq as [Hqx Hqy].
    apply Z.eqb_eq in Hqx. apply Z.eqb_eq in Hqy.
    destruct next as [nx ny], q as [qx qy]. simpl in Hqx, Hqy. subst. exact Hin.
Qed.

Lemma usub_1_zero : usub 0 1 = 18446744073709551615.
Proof. reflexivity. Qed.

(** X8. On a board with positive dimensions and for a head on the board,
    the move that [moveSnake] tests is accepted exactly when the game is not
    lost and the cell ahead, computed without wrap-around, is on the board
    and on no cell of the body (the tail included); the cell that
    [moveSnake] then takes as the new head is that cell.  In particular the
    wrap-around of [uint] below 0 is caught as leaving the board. *)
Theorem move_accepted_iff (ge : GameEngine) (head : Point)
  (Hw : 0 < playAreaWidth ge < uintModulus)
  (Hh : 0 < playAreaHeight ge < uintModulus)
  (Hhead : inBounds ge head) :
  let next := nextHead (snakeDirection ge) head in
  let ahead := cellAhead (snakeDirection ge) head in
  (wouldMoveCauseLoss ge next = false <->
   status ge <> StatusLost /\ inBounds ge ahead /\ ~ In ahead (snakeBody ge)) /\
  (inBounds ge ahead -> next = ahead).
Proof.
  cbv zeta. destruct Hhead as [Hx Hy]. unfold uintModulus in *.
  assert (Hwm : usub (playAreaWidth ge) 1 = playAreaWidth ge - 1)
    by (apply usub_pred; unfold uintModulus; lia).
  assert (Hhm : usub (playAreaHeight ge) 1 = playAreaHeight ge - 1)
    by (apply usub_pred; unfold uintModulus; lia).
  assert (Hup : forall x bound, 0 <= x < bound -> bound < 18446744073709551616 ->
                  uadd x 1 = x + 1).
  { intros x bound Hxb Hb. unfold uadd. apply wrapUint_small.
    unfold isUint, uintModulus. lia. }
  assert (Hdown : forall x, 0 < x < 18446744073709551616 -> usub x 1 = x - 1).
  { intros x Hxb. apply usub_pred. unfold uintModulus. lia. }
  assert (Hsame : inBounds ge (cellAhead (snakeDirection ge) head) ->
                  nextHead (snakeDirection ge) head
                  = cellAhead (snakeDirection ge) head).
  { unfold inBounds.
    destruct (snakeDirection ge); cbn [nextHead cellAhead X Y]; intros [Hax Hay].
    - rewrite Hdown by lia. reflexivity.
    - rewrite (Hup _ _ Hy) by lia. reflexivity.
    - rewrite Hdown by lia. reflexivity.
    - rewrite (Hup _ _ Hx) by lia. reflexivity. }
  split; [|exact Hsame].
  rewrite wouldMoveCauseLoss_iff, Hwm, Hhm.
  split.
  - intros (Hst & Hnx & Hny & Hnot).
    assert (Hin : inBounds ge (cellAhead (snakeDirection ge) head)).
    { unfold inBounds. revert Hnx Hny.
      destruct (snakeDirection ge); cbn [nextHead cellAhead X Y]; intros Hnx Hny.
      - destruct (Z.eq_dec (Y head) 0) as [Hz | Hnz].
        + rewrite Hz, usub_1_zero in Hny. lia.
        + rewrite Hdown in Hny by lia. lia.
      - rewrite (Hup _ _ Hy) in Hny by lia. lia.
      - destruct (Z.eq_dec (X head) 0) as [Hz | Hnz].
        + rewrite Hz, usub_1_zero in Hnx. lia.
        + rewrite Hdown in Hnx by lia. lia.
      - rewrite (Hup _ _ Hx) in Hnx by lia. lia. }
    split; [exact Hst|]. split; [exact Hin|].
    rewrite <- (Hsame Hin). exact Hnot.
  - intros (Hst & Hin & Hnot). rewrite (Hsame Hin).
    destruct Hin as [Hax Hay].
    split; [exact Hst|]. split; [lia|]. split; [lia | exact Hnot].
Qed.

Lemma move_accepted_iff_witness :
  let ge := UpdateDirection DirectionUp (NewGameEngine 4 1) in
  let head := mkPoint 1 0 in
  let next := nextHead (snakeDirection ge) head in
  let ahead := cellAhead (snakeDirection ge) head in
  (wouldMoveCauseLoss ge next = false <->
   status ge <> StatusLost /\ inBounds ge ahead /\ ~ In ahead (snakeBody ge)) /\
  (inBounds ge ahead -> next = ahead).
Proof.
  apply (move_accepted_iff (UpdateDirection DirectionUp (NewGameEngine 4 1))
           (mkPoint 1 0)).
  - unfold uintModulus. simpl. lia.
  - unfold uintModulus. simpl. lia.
  - unfold inBounds. simpl. lia.
Defined.

(** ** The cadence at every speed *)

Lemma throttle_reset_value s :
  1 <= s < uintModulus ->
  usub 10 (usub s 1) =
  if s <=? 11 then 11 - s else uintModulus + 11 - s.
Proof.
  intros Hs. rewrite (usub_pred s) by lia. unfold usub, wrapUint, uintModulus in *.
  destruct (s <=? 11) eqn:Hle.
  - apply Z.leb_le in Hle. rewrite Z.mod_small by lia. lia.
  - apply Z.leb_gt in Hle.
    replace (10 - (s - 1)) with (18446744073709551616 + 11 - s
                                 + (-1) * 18446744073709551616) by lia.
    rewrite Z.mod_add by lia. apply Z.mod_small. lia.
Qed.

(** X9. When a call to [Tick] executes a step at speed [s] and the game is
    not lost by it, the throttle counter is left at [11 - s] for speeds up to
    11 and, because the subtraction wraps, at [2^64 + 11 - s] for higher
    speeds; that many following calls execute no step and change nothing but
    the counter, and the call after them executes the next step.  At speed
    11 every call steps; from speed 12 on the game all but stands still. *)
Theorem throttle_cadence (ge ge1 : GameEngine) (fuel : nat) (rng rng1 : Rand)
  (st : Status)
  (Hspeed : 1 <= speed ge < uintModulus)
  (Hcount : tickThrottleCount ge = 0)
  (Htick :
     (ImplicitStart.Tick fuel rng ge = Ok (ge1, rng1, st) /\
      status ge <> StatusLost) \/
     (ExplicitStart.Tick fuel rng ge = Ok (ge1, rng1, st) /\
      status ge = StatusPlaying))
  (Hst : st <> StatusLost) :
  let pause := if speed ge <=? 11 then 11 - speed ge
               else uintModulus + 11 - speed ge in
  tickThrottleCount ge1 = pause /\
  (forall k fuel' rng', Z.of_nat k <= pause ->
     ImplicitStartRun.run (ticks k) fuel' rng' ge1 0 =
       Ok (set_tickThrottleCount (pause - Z.of_nat k) ge1, rng', 0%nat) /\
     ExplicitStartRun.run (ticks k) fuel' rng' ge1 0 =
       Ok (set_tickThrottleCount (pause - Z.of_nat k) ge1, rng', 0%nat)) /\
  ImplicitStartRun.stepDue (set_tickThrottleCount 0 ge1) = true /\
  ExplicitStartRun.stepDue (set_tickThrottleCount 0 ge1) = true.
Proof.
  cbv zeta. rewrite <- (throttle_reset_value _ Hspeed).
  assert (Hrange : isUint (usub 10 (usub (speed ge) 1))) by apply wrapUint_range.
  assert (Hstep : exists s0,
            simulationStep fuel rng
              (set_status s0
                 (set_tickThrottleCount (usub 10 (usub (speed ge) 1)) ge))
            = Ok (ge1, rng1, st) /\ s0 = StatusPlaying).
  { destruct Htick as [[Ht Hnl] | [Ht Hplay]].
    - rewrite ImplicitStart_Tick_unfold, Hcount in Ht.
      assert (Hl : Status_eqb (status ge) StatusLost = false).
      { destruct (status ge); try reflexivity. contradiction Hnl; reflexivity. }
      rewrite Hl in Ht. simpl Z.eqb in Ht. cbv iota zeta in Ht.
      exists StatusPlaying. split; [|reflexivity].
      destruct (status ge) eqn:Hs; simpl Status_eqb in Ht; cbv iota in Ht.
      + exact Ht.
      + rewrite <- Ht. f_equal.
        unfold set_status, set_tickThrottleCount. cbn. rewrite Hs. reflexivity.
      + contradiction Hnl; reflexivity.
    - rewrite ExplicitStart_Tick_unfold, Hcount, Hplay in Ht.
      exists StatusPlaying. split; [|reflexivity].
      rewrite <- Ht. simpl. f_equal.
      unfold set_status, set_tickThrottleCount. cbn. rewrite Hplay. reflexivity. }
  destruct Hstep as (s0 & Hrun & ->).
  apply simulationStep_frame in Hrun as (_ & _ & Ht & Hs & Hor).
  cbn [tickThrottleCount set_status set_tickThrottleCount] in Ht.
  assert (Hplaying : status ge1 = StatusPlaying).
  { rewrite Hs. destruct Hor as [Hl | [Hp _]]; [contradiction | exact Hp]. }
  split; [exact Ht|]. split; [|split].
  - intros k fuel' rng' Hk. unfold isUint in Hrange. split.
    + rewrite ImplicitStart_skips; [rewrite Ht; reflexivity | |rewrite Ht; lia].
      rewrite Hplaying. discriminate.
    + rewrite ExplicitStart_skips; [rewrite Ht; reflexivity | exact Hplaying |].
      rewrite Ht. lia.
  - unfold ImplicitStartRun.stepDue. simpl. rewrite Hplaying. reflexivity.
  - unfold ExplicitStartRun.stepDue. simpl. rewrite Hplaying. reflexivity.
Qed.

Lemma throttle_cadence_witness :
  let ge := {| status := StatusPlaying; playAreaWidth := 20; playAreaHeight := 20;
               score := 5; speed := 2; tickThrottleCount := 0;
               foodLocation := mkPoint 0 0;
               snakeBody := [mkPoint 19 14; mkPoint 19 13; mkPoint 18 13;
                             mkPoint 18 12; mkPoint 17 12; mkPoint 17 11];
               snakeDirection := DirectionDown;
               snakeDirectionLastMoved := DirectionDown;
               snakeShouldElongate := true |} in
  let ge1 := {| status := StatusPlaying; playAreaWidth := 20; playAreaHeight := 20;
                score := 5; speed := 2; tickThrottleCount := 9;
                foodLocation := mkPoint 0 0;
                snakeBody := [mkPoint 19 15; mkPoint 19 14; mkPoint 19 13;
                              mkPoint 18 13; mkPoint 18 12; mkPoint 17 12;
                              mkPoint 17 11];
                snakeDirection := DirectionDown;
                snakeDirectionLastMoved := DirectionDown;
                snakeShouldElongate := false |} in
  let pause := if speed ge <=? 11 then 11 - speed ge
               else uintModulus + 11 - speed ge in
  ImplicitStartRun.reachable 20 20 ge /\
  pause = 9 /\
  tickThrottleCount ge1 = pause /\
  (forall k fuel' rng', Z.of_nat k <= pause ->
     ImplicitStartRun.run (ticks k) fuel' rng' ge1 0 =
       Ok (set_tickThrottleCount (pause - Z.of_nat k) ge1, rng', 0%nat) /\
     ExplicitStartRun.run (ticks k) fuel' rng' ge1 0 =
       Ok (set_tickThrottleCount (pause - Z.of_nat k) ge1, rng', 0%nat)) /\
  ImplicitStartRun.stepDue (set_tickThrottleCount 0 ge1) = true /\
  ExplicitStartRun.stepDue (set_tickThrottleCount 0 ge1) = true.
Proof.
  cbv zeta. split; [|split; [reflexivity|]].
  - eapply (ImplicitStart_run_reachable 20 20 (staircase ++ ticks 10) 1
              (scripted staircaseFood) (NewGameEngine 20 20) 0).
    + apply ImplicitStartRun.reach_NewGameEngine.
    + vm_compute. reflexivity.
  - apply (throttle_cadence
             {| status := StatusPlaying; playAreaWidth := 20; playAreaHeight := 20;
                score := 5; speed := 2; tickThrottleCount := 0;
                foodLocation := mkPoint 0 0;
                snakeBody := [mkPoint 19 14; mkPoint 19 13; mkPoint 18 13;
                              mkPoint 18 12; mkPoint 17 12; mkPoint 17 11];
                snakeDirection := DirectionDown;
                snakeDirectionLastMoved := DirectionDown;
                snakeShouldElongate := true |}
             _ 0 (scripted []) (scripted []) StatusPlaying).
    + unfold uintModulus. simpl. lia.
    + reflexivity.
    + left. split; [reflexivity | discriminate].
    + discriminate.
Defined.

(** ** Which cell [placeFood] chooses *)

Lemma placeFoodLoop_first_acceptable k : forall fuel rng ge,
  0 < intOfUint (playAreaWidth ge) -> 0 < intOfUint (playAreaHeight ge) ->
  (k < fuel)%nat ->
  (forall j, (j < k)%nat ->
     acceptsFood ge (candidateX rng ge j) (candidateY rng ge j) = false) ->
  acceptsFood ge (candidateX rng ge k) (candidateY rng ge k) = true ->
  exists rng',
    placeFoodLoop fuel rng ge
      = Ok (mkPoint (candidateX rng ge k) (candidateY rng ge k), rng') /\
    forall j, rng' j = rng (2 * S k + j)%nat.
Proof.
  induction k as [|k IH]; intros fuel rng ge Hw Hh Hk Hrej Hacc;
    (destruct fuel as [|fuel]; [lia|]);
    simpl placeFoodLoop; unfold Intn;
    rewrite (proj2 (Z.leb_gt _ _) Hw), (proj2 (Z.leb_gt _ _) Hh); simpl bind;
    cbn [X Y].
  - unfold acceptsFood, candidateX, candidateY in Hacc. simpl in Hacc.
    apply andb_true_iff in Hacc as [Hsame Hon].
    apply negb_true_iff in Hsame. apply negb_true_iff in Hon.
    rewrite Hsame, Hon. eexists. split; [reflexivity|].
    intros j. reflexivity.
  - pose proof (Hrej 0%nat ltac:(lia)) as H0.
    unfold acceptsFood, candidateX, candidateY in H0. simpl in H0.
    destruct (IH fuel (fun j => rng (S (S j))) ge Hw Hh ltac:(lia))
      as (rng' & Hloop & Hrng).
    + intros j Hj. specialize (Hrej (S j) ltac:(lia)).
      unfold candidateX, candidateY in *.
      replace (2 * S j)%nat with (S (S (2 * j))) in Hrej by lia.
      replace (2 * S j + 1)%nat with (S (S (2 * j + 1))) in Hrej by lia.
      exact Hrej.
    + unfold candidateX, candidateY in *.
      replace (2 * S k)%nat with (S (S (2 * k))) in Hacc by lia.
      replace (2 * S k + 1)%nat with (S (S (2 * k + 1))) in Hacc by lia.
      exact Hacc.
    + assert (Hcand :
        mkPoint (candidateX (fun j => rng (S (S j))) ge k)
                (candidateY (fun j => rng (S (S j))) ge k)
        = mkPoint (candidateX rng ge (S k)) (candidateY rng ge (S k))).
      { unfold candidateX, candidateY.
        replace (2 * S k)%nat with (S (S (2 * k))) by lia.
        replace (2 * S k + 1)%nat with (S (S (2 * k + 1))) by lia.
        reflexivity. }
      rewrite Hcand in Hloop.
      assert (Hrng' : forall j, rng' j = rng (2 * S (S k) + j)%nat).
      { intros j. rewrite Hrng. f_equal. lia. }
      destruct ((rng 0%nat mod intOfUint (playAreaWidth ge) =? X (foodLocation ge)) ||
                (rng 1%nat mod intOfUint (playAreaHeight ge) =? Y (foodLocation ge)))
        eqn:Hsame.
      * exists rng'. split; assumption.
      * cbn [negb andb] in H0. apply negb_false_iff in H0. rewrite H0.
        exists rng'. split; assumption.
Qed.

(** X10. [placeFood] takes the first candidate of the random source that is
    in another column and another row than the food and on no cell of the
    snake: if candidate [k] is the first such and there is fuel for more
    than [k] candidates, the call returns with that cell as the food,
    every other field as it was, and exactly [2 * (k + 1)] values drawn. *)
Theorem placeFood_takes_first_acceptable (ge : GameEngine) (fuel k : nat)
  (rng : Rand)
  (Hw : 0 < playAreaWidth ge <= maxInt) (Hh : 0 < playAreaHeight ge <= maxInt)
  (Hk : (k < fuel)%nat)
  (Hrej : forall j, (j < k)%nat ->
     acceptsFood ge (candidateX rng ge j) (candidateY rng ge j) = false)
  (Hacc : acceptsFood ge (candidateX rng ge k) (candidateY rng ge k) = true) :
  exists rng',
    placeFood fuel rng ge
      = Ok (set_foodLocation
              (mkPoint (rng (2 * k)%nat mod playAreaWidth ge)
                       (rng (2 * k + 1)%nat mod playAreaHeight ge)) ge,
            rng') /\
    forall j, rng' j = rng (2 * S k + j)%nat.
Proof.
  assert (Hiw : intOfUint (playAreaWidth ge) = playAreaWidth ge)
    by (apply intOfUint_small; lia).
  assert (Hih : intOfUint (playAreaHeight ge) = playAreaHeight ge)
    by (apply intOfUint_small; lia).
  destruct (placeFoodLoop_first_acceptable k fuel rng ge) as (rng' & Hloop & Hrng);
    try assumption; try (rewrite ?Hiw, ?Hih; lia).
  exists rng'. split; [|exact Hrng].
  unfold placeFood. rewrite Hloop. unfold candidateX, candidateY.
  rewrite Hiw, Hih. reflexivity.
Qed.

Lemma placeFood_takes_first_acceptable_witness :
  let ge := {| status := StatusPlaying; playAreaWidth := 20; playAreaHeight := 20;
               score := 1; speed := 1; tickThrottleCount := 10;
               foodLocation := mkPoint 15 10;
               snakeBody := [mkPoint 15 10; mkPoint 14 10];
               snakeDirection := DirectionRight;
               snakeDirectionLastMoved := DirectionRight;
               snakeShouldElongate := false |} in
  let rng := scripted [15; 3; 14; 10; 7; 8] in
  exists rng',
    placeFood 5 rng ge
      = Ok (set_foodLocation
              (mkPoint (rng (2 * 2)%nat mod playAreaWidth ge)
                       (rng (2 * 2 + 1)%nat mod playAreaHeight ge)) ge,
            rng') /\
    forall j, rng' j = rng (2 * 3 + j)%nat.
Proof.
  apply (placeFood_takes_first_acceptable _ 5 2 (scripted [15; 3; 14; 10; 7; 8])).
  - unfold maxInt. simpl. lia.
  - unfold maxInt. simpl. lia.
  - lia.
  - intros j Hj.
    destruct j as [|[|j]]; [reflexivity | reflexivity | lia].
  - reflexivity.
Defined.

(** X11. When no cell of the board is in another column and another row
    than the food and off the snake (a board of width 1 or height 1, or a
    board that the snake has nearly filled), [placeFood] does not return,
    whatever the random source yields and however much fuel it is given. *)
Theorem placeFood_without_free_cell (ge : GameEngine) (fuel : nat) (rng : Rand)
  (Hw : 0 < playAreaWidth ge <= maxInt) (Hh : 0 < playAreaHeight ge <= maxInt)
  (Hnone : forall x y, 0 <= x < playAreaWidth ge -> 0 <= y < playAreaHeight ge ->
             acceptsFood ge x y = false) :
  placeFood fuel rng ge = OutOfFuel.
Proof.
  assert (Hiw : intOfUint (playAreaWidth ge) = playAreaWidth ge)
    by (apply intOfUint_small; lia).
  assert (Hih : intOfUint (playAreaHeight ge) = playAreaHeight ge)
    by (apply intOfUint_small; lia).
  unfold placeFood. rewrite placeFoodLoop_starved; [reflexivity | | |].
  - rewrite Hiw. lia.
  - rewrite Hih. lia.
  - intros k. rewrite Hiw, Hih.
    apply Hnone; apply Z.mod_pos_bound; lia.
Qed.

Lemma placeFood_without_free_cell_witness :
  placeFood 1000 (scripted [3; 1; 4; 1; 5; 9; 2; 6]) (NewGameEngine 1 5) = OutOfFuel.
Proof.
  apply placeFood_without_free_cell.
  - unfold maxInt. simpl. lia.
  - unfold maxInt. simpl. lia.
  - intros x y Hx Hy. simpl in Hx. assert (x = 0) as -> by lia. reflexivity.
Defined.

(** ** The snake is a connected path *)

Lemma contiguous_removelast body : contiguous body -> contiguous (removelast body).
Proof.
  induction body as [|p body IH]; intros Hc; [exact I|].
  destruct body as [|q body]; [exact I|].
  change (removelast (p :: q :: body)) with (p :: removelast (q :: body)).
  destruct Hc as [Hpq Hrest]. specialize (IH Hrest).
  destruct body as [|r body]; [exact I|].
  change (removelast (q :: r :: body)) with (q :: removelast (r :: body)) in *.
  split; [exact Hpq | exact IH].
Qed.

Lemma accepted_move_adjacent ge head tail :
  snakeBody ge = head :: tail ->
  0 < playAreaWidth ge < uintModulus -> 0 < playAreaHeight ge < uintModulus ->
  inBounds ge head ->
  wouldMoveCauseLoss ge (nextHead (snakeDirection ge) head) = false ->
  adjacent (nextHead (snakeDirection ge) head) head.
Proof.
  intros Hbody Hw Hh [Hx Hy] Hloss. unfold uintModulus in *.
  apply wouldMoveCauseLoss_false in Hloss as (_ & Hnx & Hny & _).
  rewrite usub_pred in Hnx by (unfold uintModulus; lia).
  rewrite usub_pred in Hny by (unfold uintModulus; lia).
  assert (Hup : forall x bound, 0 <= x < bound -> bound < 18446744073709551616 ->
                  uadd x 1 = x + 1).
  { intros x bound Hxb Hb. unfold uadd. apply wrapUint_small.
    unfold isUint, uintModulus. lia. }
  assert (Hdown : forall x, 0 < x < 18446744073709551616 -> usub x 1 = x - 1).
  { intros x Hxb. apply usub_pred. unfold uintModulus. lia. }
  unfold adjacent. revert Hnx Hny.
  destruct (snakeDirection ge); cbn [nextHead X Y]; intros Hnx Hny.
  - destruct (Z.eq_dec (Y head) 0) as [Hz | Hnz].
    + rewrite Hz, usub_1_zero in Hny. lia.
    + rewrite Hdown by lia. lia.
  - rewrite (Hup _ _ Hy) by lia. lia.
  - destruct (Z.eq_dec (X head) 0) as [Hz | Hnz].
    + rewrite Hz, usub_1_zero in Hnx. lia.
    + rewrite Hdown by lia. lia.
  - rewrite (Hup _ _ Hx) by lia. lia.
Qed.

Lemma simulationStep_contiguous fuel rng ge ge' rng' st :
  simulationStep fuel rng ge = Ok (ge', rng', st) ->
  0 < playAreaWidth ge < uintModulus -> 0 < playAreaHeight ge < uintModulus ->
  onBoard ge -> contiguous (snakeBody ge) -> contiguous (snakeBody ge').
Proof.
  intros Hstep Hw Hh (Hon & _) Hc.
  apply simulationStep_inv in Hstep as (head & tail & Hbody & Hcases).
  cbv zeta in Hcases.
  set (next := nextHead (snakeDirection ge) head) in *.
  assert (Hmoved : wouldMoveCauseLoss ge next = false ->
                   contiguous (snakeBody (afterMove ge next))).
  { intros Hloss.
    assert (Hadj : adjacent next head).
    { apply (accepted_move_adjacent ge head tail); try assumption.
      apply Hon. rewrite Hbody. left. reflexivity. }
    assert (Hcons : contiguous (next :: snakeBody ge)).
    { rewrite Hbody. split; [exact Hadj|]. rewrite <- Hbody. exact Hc. }
    unfold afterMove. cbn [snakeBody set_snakeShouldElongate set_snakeBody].
    destruct (snakeShouldElongate ge); [exact Hcons|].
    apply contiguous_removelast. exact Hcons. }
  destruct Hcases as [(_ & -> & _ & _) | [(Hloss & _ & -> & _ & _) |
                      (Hloss & _ & p & _ & -> & _)]].
  - exact Hc.
  - exact (Hmoved Hloss).
  - destruct (afterScore_frame (afterMove ge next)) as (_ & _ & _ & _ & _ & Hb & _).
    unfold set_snakeShouldElongate, set_foodLocation. cbn [snakeBody].
    rewrite Hb. exact (Hmoved Hloss).
Qed.

Lemma NewGame_contiguous ge :
  4 <= playAreaWidth ge < uintModulus -> contiguous (snakeBody (NewGame ge)).
Proof.
  intros Hw. cbn [snakeBody NewGame contiguous]. split; [|exact I].
  unfold adjacent. cbn [X Y].
  pose proof (Z.div_mod (playAreaWidth ge) 4 ltac:(lia)) as Hd.
  pose proof (Z.mod_pos_bound (playAreaWidth ge) 4 ltac:(lia)) as Hm.
  unfold uintModulus in *.
  assert (Ht : usub (udiv (playAreaWidth ge) 4) 1 = playAreaWidth ge / 4 - 1).
  { unfold usub, udiv. apply wrapUint_small. unfold isUint, uintModulus. lia. }
  rewrite Ht. unfold udiv. lia.
Qed.

(** X12. On an engine created with width >= 4 and height > 0, in every
    reachable state each point of the body shares a side with the point
    that follows it: since no cell occurs twice, the snake is a simple path
    of cells from head to tail. *)
Theorem body_is_contiguous (w h : Z) (ge : GameEngine)
  (Hw : 4 <= w < uintModulus) (Hh : 0 < h < uintModulus)
  (Hreach : ImplicitStartRun.reachable w h ge \/ ExplicitStartRun.reachable w h ge) :
  contiguous (snakeBody ge).
Proof.
  assert (H : (playAreaWidth ge = w /\ playAreaHeight ge = h /\ onBoard ge) /\
              contiguous (snakeBody ge)).
  { revert ge Hreach.
    assert (Hreset : forall g,
              (playAreaWidth g = w /\ playAreaHeight g = h /\ onBoard g) /\
              contiguous (snakeBody g) ->
              (playAreaWidth (NewGame g) = w /\ playAreaHeight (NewGame g) = h /\
               onBoard (NewGame g)) /\
              contiguous (snakeBody (NewGame g))).
    { intros g ((Hgw & Hgh & _) & _). split.
      - split; [exact Hgw|]. split; [exact Hgh|].
        apply NewGame_onBoard; [rewrite Hgw | rewrite Hgh]; assumption.
      - apply NewGame_contiguous. rewrite Hgw. exact Hw. }
    apply (reachable_invariant w h
             (fun ge => (playAreaWidth ge = w /\ playAreaHeight ge = h /\ onBoard ge) /\
                        contiguous (snakeBody ge))).
    - split.
      + split; [reflexivity|]. split; [reflexivity|].
        apply NewGame_onBoard; assumption.
      + apply NewGame_contiguous. exact Hw.
    - exact Hreset.
    - intros g Hg. exact (Hreset g Hg).
    - intros dir g ((Hgw & Hgh & Hon) & Hc).
      destruct (UpdateDirection_frame dir g)
        as (_ & Hfw & Hfh & _ & _ & _ & _ & Hb & _).
      split.
      + split; [congruence|]. split; [congruence|].
        apply UpdateDirection_onBoard; exact Hon.
      + rewrite Hb. exact Hc.
    - intros due fuel rng g g' rng' st Hcases (Hboard & Hc).
      split.
      + apply (tickCases_onBoard w h _ _ _ _ _ _ _ ltac:(lia) Hh Hcases Hboard).
      + destruct Hboard as (Hgw & Hgh & Hon).
        destruct Hcases as [(_ & -> & _) | [(_ & _ & -> & _) | (_ & _ & s0 & Hstep)]].
        * exact Hc.
        * exact Hc.
        * apply (simulationStep_contiguous _ _ _ _ _ _ Hstep).
          -- cbn [playAreaWidth set_status set_tickThrottleCount]. lia.
          -- cbn [playAreaHeight set_status set_tickThrottleCount]. lia.
          -- exact Hon.
          -- exact Hc. }
  exact (proj2 H).
Qed.

Lemma body_is_contiguous_witness :
  contiguous
    (snakeBody
       {| status := StatusPlaying; playAreaWidth := 20; playAreaHeight := 20;
          score := 5; speed := 2; tickThrottleCount := 10;
          foodLocation := mkPoint 0 0;
          snakeBody := [mkPoint 19 14; mkPoint 19 13; mkPoint 18 13;
                        mkPoint 18 12; mkPoint 17 12; mkPoint 17 11];
          snakeDirection := DirectionDown;
          snakeDirectionLastMoved := DirectionDown;
          snakeShouldElongate := true |}).
Proof.
  apply (body_is_contiguous 20 20).
  - unfold uintModulus. lia.
  - unfold uintModulus. lia.
  - left.
    eapply (ImplicitStart_run_reachable 20 20 staircase 1 (scripted staircaseFood)
              (NewGameEngine 20 20) 0).
    + apply ImplicitStartRun.reach_NewGameEngine.
    + vm_compute. reflexivity.
Defined.

(** ** Resets *)

(** X13. The dimensions never change, and a reset forgets everything else:
    in every reachable state [NewGame] gives back exactly the engine that
    construction gave, and [PlayNew] that engine in status Playing. *)
Theorem reset_restores_construction (w h : Z) (ge : GameEngine)
  (Hreach : ImplicitStartRun.reachable w h ge \/ ExplicitStartRun.reachable w h ge) :
  playAreaWidth ge = w /\ playAreaHeight ge = h /\
  NewGame ge = NewGameEngine w h /\
  ExplicitStart.PlayNew ge = set_status StatusPlaying (NewGameEngine w h).
Proof.
  destruct (reachable_shape w h ge Hreach) as (Hgw & Hgh & _).
  split; [exact Hgw|]. split; [exact Hgh|].
  unfold ExplicitStart.PlayNew, NewGameEngine, NewGame.
  cbn [playAreaWidth playAreaHeight]. rewrite Hgw, Hgh. split; reflexivity.
Qed.

Lemma reset_restores_construction_witness :
  let ge := {| status := StatusPlaying; playAreaWidth := 20; playAreaHeight := 20;
               score := 5; speed := 2; tickThrottleCount := 10;
               foodLocation := mkPoint 0 0;
               snakeBody := [mkPoint 19 14; mkPoint 19 13; mkPoint 18 13;
                             mkPoint 18 12; mkPoint 17 12; mkPoint 17 11];
               snakeDirection := DirectionDown;
               snakeDirectionLastMoved := DirectionDown;
               snakeShouldElongate := true |} in
  playAreaWidth ge = 20 /\ playAreaHeight ge = 20 /\
  NewGame ge = NewGameEngine 20 20 /\
  ExplicitStart.PlayNew ge = set_status StatusPlaying (NewGameEngine 20 20).
Proof.
  apply (reset_restores_construction 20 20). left.
  eapply (ImplicitStart_run_reachable 20 20 staircase 1 (scripted staircaseFood)
            (NewGameEngine 20 20) 0).
  - apply ImplicitStartRun.reach_NewGameEngine.
  - vm_compute. reflexivity.
Defined.

(** * Properties of the front end *)

Lemma handlePlayInput_cases keys ge :
  handlePlayInput keys ge = ge \/
  exists dir, handlePlayInput keys ge = UpdateDirection dir ge.
Proof.
  unfold handlePlayInput.
  destruct (keyArrowUp keys); [right; eexists; reflexivity|].
  destruct (keyArrowDown keys); [right; eexists; reflexivity|].
  destruct (keyArrowLeft keys); [right; eexists; reflexivity|].
  destruct (keyArrowRight keys); [right; eexists; reflexivity|].
  left. reflexivity.
Qed.

Lemma handlePlayInput_status keys ge : status (handlePlayInput keys ge) = status ge.
Proof.
  destruct (handlePlayInput_cases keys ge) as [-> | [dir ->]]; [reflexivity|].
  apply UpdateDirection_frame.
Qed.

Lemma ImplicitStart_input_reachable w h keys ge :
  ImplicitStartRun.reachable w h ge ->
  ImplicitStartRun.reachable w h (handlePlayInput keys ge).
Proof.
  intros Hr. destruct (handlePlayInput_cases keys ge) as [-> | [dir ->]].
  - exact Hr.
  - apply ImplicitStartRun.reach_UpdateDirection. exact Hr.
Qed.

Lemma ExplicitStart_input_reachable w h keys ge :
  ExplicitStartRun.reachable w h ge ->
  ExplicitStartRun.reachable w h (handlePlayInput keys ge).
Proof.
  intros Hr. destruct (handlePlayInput_cases keys ge) as [-> | [dir ->]].
  - exact Hr.
  - apply ExplicitStartRun.reach_UpdateDirection. exact Hr.
Qed.

Lemma FrontEnd_Update_reachable w h keys fuel rng ge ge' rng' :
  ImplicitStartRun.reachable w h ge ->
  FrontEnd.Update keys fuel rng ge = Ok (ge', rng') ->
  ImplicitStartRun.reachable w h ge'.
Proof.
  intros Hr Hup. unfold FrontEnd.Update in Hup.
  assert (Hplay : forall r,
            ('(g, r0, _) <- ImplicitStart.Tick fuel rng (handlePlayInput keys ge) ;;
             Ok (g, r0)) = r -> r = Ok (ge', rng') ->
            ImplicitStartRun.reachable w h ge').
  { intros r <- Hok.
    destruct (ImplicitStart.Tick fuel rng (handlePlayInput keys ge))
      as [[[g r0] s]| |] eqn:Htick; simpl in Hok; try discriminate.
    injection Hok as <- <-.
    apply (ImplicitStartRun.reach_Tick _ _ _ _ _ _ _ _
             (ImplicitStart_input_reachable w h keys ge Hr) Htick). }
  destruct (status ge).
  - exact (Hplay _ eq_refl Hup).
  - exact (Hplay _ eq_refl Hup).
  - destruct (keyEnter keys); injection Hup as <- _.
    + apply ImplicitStartRun.reach_NewGame. exact Hr.
    + exact Hr.
Qed.

Lemma FrontEndNoRestart_Update_reachable w h keys fuel rng ge ge' rng' :
  ImplicitStartRun.reachable w h ge ->
  FrontEndNoRestart.Update keys fuel rng ge = Ok (ge', rng') ->
  ImplicitStartRun.reachable w h ge'.
Proof.
  intros Hr Hup. unfold FrontEndNoRestart.Update in Hup.
  destruct (_ || _).
  - destruct (ImplicitStart.Tick fuel rng (handlePlayInput keys ge))
      as [[[g r0] s]| |] eqn:Htick; simpl in Hup; try discriminate.
    injection Hup as <- <-.
    apply (ImplicitStartRun.reach_Tick _ _ _ _ _ _ _ _
             (ImplicitStart_input_reachable w h keys ge Hr) Htick).
  - injection Hup as <- _. exact Hr.
Qed.

Lemma GUIFrontEnd_Update_reachable w h keys fuel rng ge ge' rng' :
  ExplicitStartRun.reachable w h ge ->
  GUIFrontEnd.Update keys fuel rng ge = Ok (ge', rng') ->
  ExplicitStartRun.reachable w h ge'.
Proof.
  intros Hr Hup. unfold GUIFrontEnd.Update in Hup.
  assert (Hwait : (if keyEnter keys then Ok (ExplicitStart.PlayNew ge, rng)
                   else Ok (ge, rng)) = Ok (ge', rng') ->
                  ExplicitStartRun.reachable w h ge').
  { destruct (keyEnter keys); intros Hok; injection Hok as <- _.
    - apply ExplicitStartRun.reach_PlayNew. exact Hr.
    - exact Hr. }
  destruct (status ge).
  - exact (Hwait Hup).
  - destruct (ExplicitStart.Tick fuel rng (handlePlayInput keys ge))
      as [[[g r0] s]| |] eqn:Htick; simpl in Hup; try discriminate.
    injection Hup as <- <-.
    apply (ExplicitStartRun.reach_Tick _ _ _ _ _ _ _ _
             (ExplicitStart_input_reachable w h keys ge Hr) Htick).
  - exact (Hwait Hup).
Qed.

(** X14. Whatever keys are pressed in whatever frames, an engine that a
    front end drives stays within the reachable states of the engine
    revision it is written for, so that every invariant of those states
    holds in every frame of a game. *)
Theorem frames_stay_reachable (w h : Z) (frames : list Keys) (fuel : nat)
  (rng rng' : Rand) (ge ge' : GameEngine)
  (Hplay :
     (ImplicitStartRun.reachable w h ge /\
      (FrontEnd.playFrames frames fuel rng ge = Ok (ge', rng') \/
       FrontEndNoRestart.playFrames frames fuel rng ge = Ok (ge', rng'))) \/
     (ExplicitStartRun.reachable w h ge /\
      GUIFrontEnd.playFrames frames fuel rng ge = Ok (ge', rng'))) :
  ImplicitStartRun.reachable w h ge' \/ ExplicitStartRun.reachable w h ge'.
Proof.
  revert rng ge Hplay. induction frames as [|keys frames IH]; intros rng ge Hplay.
  - destruct Hplay as [[Hr [Hp | Hp]] | [Hr Hp]]; simpl in Hp;
      injection Hp as <- _; [left | left | right]; exact Hr.
  - destruct Hplay as [[Hr [Hp | Hp]] | [Hr Hp]]; simpl in Hp.
    + destruct (FrontEnd.Update keys fuel rng ge) as [[g r]| |] eqn:Hup;
        simpl in Hp; try discriminate.
      apply (IH r g). left. split; [|left; exact Hp].
      exact (FrontEnd_Update_reachable _ _ _ _ _ _ _ _ Hr Hup).
    + destruct (FrontEndNoRestart.Update keys fuel rng ge) as [[g r]| |] eqn:Hup;
        simpl in Hp; try discriminate.
      apply (IH r g). left. split; [|right; exact Hp].
      exact (FrontEndNoRestart_Update_reachable _ _ _ _ _ _ _ _ Hr Hup).
    + destruct (GUIFrontEnd.Update keys fuel rng ge) as [[g r]| |] eqn:Hup;
        simpl in Hp; try discriminate.
      apply (IH r g). right. split; [|exact Hp].
      exact (GUIFrontEnd_Update_reachable _ _ _ _ _ _ _ _ Hr Hup).
Qed.

Lemma frames_stay_reachable_witness :
  let up := mkKeys false true false false false in
  let enter := mkKeys true false false false false in
  let ge' := set_snakeBody [mkPoint 5 9; mkPoint 5 10]
               (set_snakeDirectionLastMoved DirectionUp
                  (set_snakeDirection DirectionUp
                     (set_tickThrottleCount 10
                        (ExplicitStart.PlayNew (NewGameEngine 20 20))))) in
  ImplicitStartRun.reachable 20 20 ge' \/ ExplicitStartRun.reachable 20 20 ge'.
Proof.
  apply (frames_stay_reachable 20 20
           [mkKeys false true false false false;
            mkKeys true false false false false;
            mkKeys false true false false false]
           0 (scripted []) (scripted []) (NewGameEngine 20 20)).
  right. split.
  - apply ExplicitStartRun.reach_NewGameEngine.
  - reflexivity.
Defined.

(** X15. The first front end, once the game is lost, and the GUI front
    end, while the game is new or lost, wait for Enter: frames in which
    Enter is not pressed leave the engine and the random source untouched,
    whatever arrow keys are pressed, and a frame with Enter resets the
    engine, with [NewGame] in the first and with [PlayNew] in the GUI front
    end. *)
Theorem front_end_waits_for_enter (frames : list Keys) (keys : Keys) (fuel : nat)
  (rng : Rand) (ge : GameEngine)
  (Hquiet : Forall (fun k => keyEnter k = false) frames)
  (Henter : keyEnter keys = true) :
  (status ge = StatusLost ->
   FrontEnd.playFrames frames fuel rng ge = Ok (ge, rng) /\
   FrontEnd.playFrames (frames ++ [keys]) fuel rng ge = Ok (NewGame ge, rng)) /\
  (status ge <> StatusPlaying ->
   GUIFrontEnd.playFrames frames fuel rng ge = Ok (ge, rng) /\
   GUIFrontEnd.playFrames (frames ++ [keys]) fuel rng ge
     = Ok (ExplicitStart.PlayNew ge, rng)).
Proof.
  split.
  - intros Hlost.
    induction Hquiet as [|k frames Hk _ IH].
    + split; [reflexivity|]. simpl. unfold FrontEnd.Update.
      rewrite Hlost, Henter. reflexivity.
    + assert (Hup : FrontEnd.Update k fuel rng ge = Ok (ge, rng)).
      { unfold FrontEnd.Update. rewrite Hlost, Hk. reflexivity. }
      simpl. rewrite Hup. simpl. exact IH.
  - intros Hidle.
    assert (Hwait : forall k, GUIFrontEnd.Update k fuel rng ge =
              if keyEnter k then Ok (ExplicitStart.PlayNew ge, rng) else Ok (ge, rng)).
    { intros k. unfold GUIFrontEnd.Update.
      destruct (status ge); try reflexivity. contradiction Hidle; reflexivity. }
    induction Hquiet as [|k frames Hk _ IH].
    + split; [reflexivity|]. simpl. rewrite Hwait, Henter. reflexivity.
    + simpl. rewrite Hwait, Hk. simpl. exact IH.
Qed.

Lemma front_end_waits_for_enter_witness :
  let ge := set_status StatusLost (NewGameEngine 20 20) in
  let frames := [mkKeys false true false false false;
                 mkKeys false false false true true] in
  let keys := mkKeys true false true false false in
  (status ge = StatusLost ->
   FrontEnd.playFrames frames 0 (scripted []) ge = Ok (ge, scripted []) /\
   FrontEnd.playFrames (frames ++ [keys]) 0 (scripted []) ge
     = Ok (NewGame ge, scripted [])) /\
  (status ge <> StatusPlaying ->
   GUIFrontEnd.playFrames frames 0 (scripted []) ge = Ok (ge, scripted []) /\
   GUIFrontEnd.playFrames (frames ++ [keys]) 0 (scripted []) ge
     = Ok (ExplicitStart.PlayNew ge, scripted [])).
Proof.
  apply (front_end_waits_for_enter
           [mkKeys false true false false false;
            mkKeys false false false true true]
           (mkKeys true false true false false)).
  - repeat constructor.
  - reflexivity.
Defined.

(** X16. The second front end has no way back from a lost game: whatever
    keys are pressed, Enter included, every frame leaves a lost engine and
    the random source exactly as they are. *)
Theorem lost_game_cannot_be_restarted (frames : list Keys) (fuel : nat)
  (rng : Rand) (ge : GameEngine) (Hlost : status ge = StatusLost) :
  FrontEndNoRestart.playFrames frames fuel rng ge = Ok (ge, rng).
Proof.
  induction frames as [|keys frames IH]; [reflexivity|].
  simpl. unfold FrontEndNoRestart.Update. rewrite Hlost. simpl. exact IH.
Qed.

Lemma lost_game_cannot_be_restarted_witness :
  let ge := set_status StatusLost (NewGameEngine 20 20) in
  FrontEndNoRestart.playFrames
    [mkKeys true false false false false; mkKeys true true false false false]
    0 (scripted []) ge = Ok (ge, scripted []).
Proof.
  apply lost_game_cannot_be_restarted. reflexivity.
Defined.

(** ** Creating the front end *)

(** X17. [NewFrontEnd] divides the extent of the play area by the
    dimensions of the engine's board: it panics exactly when the engine has
    width 0 or height 0, whatever the size asked for, and returns a front
    end otherwise. *)
Theorem NewFrontEnd_panics_iff_zero_dimension (ge : GameEngine) (width height : Z) :
  (NewFrontEnd ge width height = Panic <->
   playAreaWidth ge = 0 \/ playAreaHeight ge = 0) /\
  (playAreaWidth ge <> 0 -> playAreaHeight ge <> 0 ->
   exists fe, NewFrontEnd ge width height = Ok fe).
Proof.
  unfold NewFrontEnd, udivChecked, PlayAreaWidth, PlayAreaHeight. cbv zeta.
  destruct (playAreaWidth ge =? 0) eqn:Hw; simpl bind.
  - apply Z.eqb_eq in Hw. split.
    + split; [intros _; left; exact Hw | reflexivity].
    + intros Hnz. contradiction.
  - apply Z.eqb_neq in Hw.
    destruct (playAreaHeight ge =? 0) eqn:Hh; simpl bind.
    + apply Z.eqb_eq in Hh. split.
      * split; [intros _; right; exact Hh | reflexivity].
      * intros _ Hnz. contradiction.
    + apply Z.eqb_neq in Hh. split.
      * split; [discriminate | intros [H | H]; contradiction].
      * intros _ _. eexists. reflexivity.
Qed.

(** X18. For a window of width >= 0 and height >= 20 (the status bar) and an
    engine with positive dimensions, [NewFrontEnd] returns; the play area is
    the window below the status bar and the multipliers are its extents
    divided, rounding down, by the dimensions of the board.  For every cell
    of the board, the products of its coordinates with the multipliers (the
    corner at which the cell is drawn) do not wrap around, and the cell,
    one multiplier wide and high, lies within the play area.  When the
    window is narrower than the board has columns the multiplier is 0. *)
Theorem scaled_board_fits (ge : GameEngine) (width height : Z)
  (Hwidth : 0 <= width <= maxInt) (Hheight : 20 <= height <= maxInt)
  (Hw : 0 < playAreaWidth ge < uintModulus)
  (Hh : 0 < playAreaHeight ge < uintModulus) :
  exists fe,
    NewFrontEnd ge width height = Ok fe /\
    playAreaBounds fe = mkRectangle 0 20 width height /\
    playAreaGameWidthMultiplier fe = width / playAreaWidth ge /\
    playAreaGameHeightMultiplier fe = (height - 20) / playAreaHeight ge /\
    (width < playAreaWidth ge -> playAreaGameWidthMultiplier fe = 0) /\
    forall p, inBounds ge p ->
      umul (X p) (playAreaGameWidthMultiplier fe)
        = X p * playAreaGameWidthMultiplier fe /\
      umul (Y p) (playAreaGameHeightMultiplier fe)
        = Y p * playAreaGameHeightMultiplier fe /\
      0 <= X p * playAreaGameWidthMultiplier fe /\
      X p * playAreaGameWidthMultiplier fe + playAreaGameWidthMultiplier fe
        <= Dx (playAreaBounds fe) /\
      0 <= Y p * playAreaGameHeightMultiplier fe /\
      Y p * playAreaGameHeightMultiplier fe + playAreaGameHeightMultiplier fe
        <= Dy (playAreaBounds fe).
Proof.
  unfold maxInt, uintModulus in *.
  assert (Hr1 : Rect 0 0 width 20 = mkRectangle 0 0 width 20).
  { unfold Rect.
    destruct (0 >? width) eqn:Hc; [apply Z.gtb_lt in Hc; lia|]. reflexivity. }
  assert (Hr2 : Rect 0 20 width height = mkRectangle 0 20 width height).
  { unfold Rect.
    destruct (0 >? width) eqn:Hc; [apply Z.gtb_lt in Hc; lia|].
    destruct (20 >? height) eqn:Hd; [apply Z.gtb_lt in Hd; lia|]. reflexivity. }
  assert (Hdx : uintOfInt (Dx (mkRectangle 0 20 width height)) = width).
  { unfold Dx, uintOfInt. cbn [MaxX MinX]. rewrite Z.sub_0_r.
    rewrite wrapInt_small by (unfold maxInt; lia).
    apply wrapUint_small. unfold isUint, uintModulus. lia. }
  assert (Hdy : uintOfInt (Dy (mkRectangle 0 20 width height)) = height - 20).
  { unfold Dy, uintOfInt. cbn [MaxY MinY].
    rewrite wrapInt_small by (unfold maxInt; lia).
    apply wrapUint_small. unfold isUint, uintModulus. lia. }
  assert (Hdx' : Dx (mkRectangle 0 20 width height) = width).
  { unfold Dx. cbn [MaxX MinX]. rewrite Z.sub_0_r.
    apply wrapInt_small. unfold maxInt. lia. }
  assert (Hdy' : Dy (mkRectangle 0 20 width height) = height - 20).
  { unfold Dy. cbn [MaxY MinY]. apply wrapInt_small. unfold maxInt. lia. }
  unfold NewFrontEnd, PlayAreaWidth, PlayAreaHeight. cbv zeta.
  rewrite Hr1. cbn [MaxY]. rewrite Hr2, Hdx, Hdy. unfold udivChecked.
  rewrite (proj2 (Z.eqb_neq _ _)) by lia.
  rewrite (proj2 (Z.eqb_neq (playAreaHeight ge) 0)) by lia.
  simpl bind. eexists. split; [reflexivity|].
  cbn [playAreaBounds playAreaGameWidthMultiplier playAreaGameHeightMultiplier].
  rewrite Hdx', Hdy'.
  set (mw := width / playAreaWidth ge). set (mh := (height - 20) / playAreaHeight ge).
  assert (Hmw : 0 <= mw) by (apply Z.div_pos; lia).
  assert (Hmh : 0 <= mh) by (apply Z.div_pos; lia).
  assert (Hfw : playAreaWidth ge * mw <= width) by (apply Z.mul_div_le; lia).
  assert (Hfh : playAreaHeight ge * mh <= height - 20) by (apply Z.mul_div_le; lia).
  split; [reflexivity|]. split; [reflexivity|]. split; [reflexivity|].
  split; [intros Hnarrow; apply Z.div_small; lia|].
  intros p [Hx Hy].
  assert (Hcx : X p * mw + mw <= width) by nia.
  assert (Hcy : Y p * mh + mh <= height - 20) by nia.
  assert (Hpx : 0 <= X p * mw) by nia.
  assert (Hpy : 0 <= Y p * mh) by nia.
  repeat split; try assumption.
  - unfold umul. apply wrapUint_small. unfold isUint, uintModulus. lia.
  - unfold umul. apply wrapUint_small. unfold isUint, uintModulus. lia.
Qed.

Lemma scaled_board_fits_witness :
  exists fe,
    NewFrontEnd (NewGameEngine 20 20) 200 220 = Ok fe /\
    playAreaBounds fe = mkRectangle 0 20 200 220 /\
    playAreaGameWidthMultiplier fe = 200 / playAreaWidth (NewGameEngine 20 20) /\
    playAreaGameHeightMultiplier fe
      = (220 - 20) / playAreaHeight (NewGameEngine 20 20) /\
    (200 < playAreaWidth (NewGameEngine 20 20) ->
     playAreaGameWidthMultiplier fe = 0) /\
    forall p, inBounds (NewGameEngine 20 20) p ->
      umul (X p) (playAreaGameWidthMultiplier fe)
        = X p * playAreaGameWidthMultiplier fe /\
      umul (Y p) (playAreaGameHeightMultiplier fe)
        = Y p * playAreaGameHeightMultiplier fe /\
      0 <= X p * playAreaGameWidthMultiplier fe /\
      X p * playAreaGameWidthMultiplier fe + playAreaGameWidthMultiplier fe
        <= Dx (playAreaBounds fe) /\
      0 <= Y p * playAreaGameHeightMultiplier fe /\
      Y p * playAreaGameHeightMultiplier fe + playAreaGameHeightMultiplier fe
        <= Dy (playAreaBounds fe).
Proof.
  apply (scaled_board_fits (NewGameEngine 20 20) 200 220).
  - unfold maxInt. lia.
  - unfold maxInt. lia.
  - unfold uintModulus. simpl. lia.
  - unfold uintModulus. simpl. lia.
Defined.

(** * The directions across a call to [Tick] *)

(** X19. [Tick] never changes the pending direction: a direction that
    [UpdateDirection] accepted stays pending until another one is accepted
    or the game is reset.  The direction of the last move becomes the
    pending one when the call executes a step that does not lose, and is
    unchanged otherwise. *)
Theorem tick_keeps_pending_direction (fuel : nat) (rng : Rand)
  (ge ge' : GameEngine) (rng' : Rand) (st : Status) (due : bool)
  (Htick :
     (ImplicitStart.Tick fuel rng ge = Ok (ge', rng', st) /\
      due = ImplicitStartRun.stepDue ge) \/
     (ExplicitStart.Tick fuel rng ge = Ok (ge', rng', st) /\
      due = ExplicitStartRun.stepDue ge)) :
  snakeDirection ge' = snakeDirection ge /\
  snakeDirectionLastMoved ge' =
    if due && negb (Status_eqb st StatusLost)
    then snakeDirection ge else snakeDirectionLastMoved ge.
Proof.
  assert (Hcases : tickCases due fuel rng ge ge' rng' st).
  { destruct Htick as [[Ht ->] | [Ht ->]].
    - apply ImplicitStart_Tick_cases; exact Ht.
    - apply ExplicitStart_Tick_cases; exact Ht. }
  destruct Hcases as [(-> & -> & _) | [(-> & _ & -> & _) | (-> & _ & s0 & Hstep)]].
  - split; reflexivity.
  - split; reflexivity.
  - apply simulationStep_inv in Hstep as (head & tail & Hbody & Hcases).
    cbv zeta in Hcases.
    destruct Hcases as [(_ & -> & _ & ->) | [(Hloss & _ & -> & _ & ->) |
                        (Hloss & _ & p & _ & -> & ->)]].
    + split; reflexivity.
    + apply wouldMoveCauseLoss_false in Hloss as (Hst & _).
      cbn [status set_status set_tickThrottleCount] in Hst |- *.
      split; [reflexivity|].
      destruct s0; try reflexivity. contradiction Hst; reflexivity.
    + apply wouldMoveCauseLoss_false in Hloss as (Hst & _).
      cbn [status set_status set_tickThrottleCount] in Hst |- *.
      unfold afterScore, set_snakeShouldElongate, set_foodLocation. cbv zeta.
      destruct (irem _ 5 =? 0);
        (split; [reflexivity|]);
        (destruct s0; try reflexivity; contradiction Hst; reflexivity).
Qed.

Lemma tick_keeps_pending_direction_witness :
  let ge := UpdateDirection DirectionUp (NewGameEngine 20 20) in
  let ge' := set_snakeBody [mkPoint 5 9; mkPoint 5 10]
               (set_snakeDirectionLastMoved DirectionUp
                  (set_status StatusPlaying (set_tickThrottleCount 10 ge))) in
  snakeDirection ge' = snakeDirection ge /\
  snakeDirectionLastMoved ge' =
    if true && negb (Status_eqb StatusPlaying StatusLost)
    then snakeDirection ge else snakeDirectionLastMoved ge.
Proof.
  cbv zeta.
  apply (tick_keeps_pending_direction 0 (scripted [])
           (UpdateDirection DirectionUp (NewGameEngine 20 20)) _
           (scripted []) StatusPlaying true).
  left. split; reflexivity.
Defined.
